(** * MetadataAddress: the typed address codec of x/metadata/types

    A shallow embedding of [address.go] (package [types]): the format check
    [VerifyMetadataAddressFormat], the six address constructors, the bech32
    text form, the derivation and iterator-prefix methods, [GetDetails], and
    the [AccMDLinks] validation.

    Conventions of the embedding.
    - A Go [[]byte] is a [list byte]: the elements the slice shows. An index
      expression is checked against the length. A slice expression that the
      code guards by a test of the length is [slice]. Go checks the upper
      bound of a slice expression against the capacity, so the one place
      that slices without such a test, [ma[1:17]] in the iterator-prefix
      methods, is [slice_cap]: it takes, beside the address, the elements
      of the backing array behind it.
    - A Go [string] is a [string]: a sequence of bytes.
    - A Go function returning [(T, error)] returns a pair [T * option error];
      the value component is kept also when the error is set, as callers such
      as [Prefix] read it.
    - A run-time panic is the [Panics] outcome of the [outcome] monad. *)

From Stdlib Require Import ZArith NArith List String Ascii Bool Lia.
From Stdlib.Strings Require Import Byte.
From stdpp Require Import base option list gmap strings.

Set Warnings "-clear-no-such-hyp".

Open Scope string_scope.
Open Scope list_scope.
Open Scope nat_scope.

Abbreviation bytes := (list byte).

#[global] Instance byte_eq_decision : EqDecision byte := Byte.byte_eq_dec.

#[global] Instance byte_countable : Countable byte :=
  inj_countable Byte.to_N Byte.of_N Byte.of_to_N.

(** ** Errors and panics *)

(** One constructor per error message of the package; the arguments are the
    values the message is formatted with. *)
Inductive error : Type :=
| ErrAddressIsEmpty
    (* "address is empty" *)
| ErrInvalidAddressType (tag : byte)
    (* "invalid metadata address type: %d" *)
| ErrIncorrectLength (expected actual : nat)
    (* "incorrect address length (expected: %d, actual: %d)" *)
| ErrInvalidUUIDBytes (cause : error)
    (* "invalid address bytes of uuid, expected uuid compliant: %w" *)
| ErrInvalidSecondaryUUIDBytes (cause : error)
    (* "invalid address bytes of secondary uuid, expected uuid compliant: %w" *)
| ErrUUIDSize (got : nat)
    (* google/uuid: "invalid UUID (got %d bytes)" *)
| ErrInvalidMetadataAddress (expHRP : string) (ma : bytes) (cause : error)
    (* "invalid %s metadata address %#v: %w" *)
| ErrWrongTypeID (expHRP : string) (ma : bytes)
    (* "invalid %s id %q: wrong type" *)
| ErrEmptyAddressString
    (* "empty address string is not allowed" *)
| ErrBech32 (msg : string)
    (* an error of the bech32 package *)
| ErrInvalidBech32Prefix (expected got : string)
    (* "invalid bech32 prefix; expected %s, got %s" *)
| ErrNoScopeUUID (ma : bytes)
    (* "this metadata address (%s) does not contain a scope uuid" *)
| ErrNoSessionUUID (ma : bytes)
    (* "this metadata address (%s) does not contain a session uuid" *)
| ErrNoScopeSpecUUID (ma : bytes)
    (* "this metadata address (%s) does not contain a scope specification uuid" *)
| ErrNoContractSpecUUID (ma : bytes)
    (* "this metadata address (%s) does not contain a contract specification uuid" *)
| ErrAddressEmpty
    (* "address empty" *)
| ErrTypeOutOfRange (tag : byte)
    (* "invalid address type out of valid range (got: %d)" *)
| ErrLengthAtLeast (least actual : nat)
    (* "incorrect address length (must be at least %d, actual: %d)" *)
| ErrMissingRecordName
    (* "missing name value for record metadata address" *)
| ErrIterNoScopeUUID
    (* "this metadata address does not contain a scope uuid" *)
| ErrIterNoContractSpecUUID
    (* "this metadata address does not contain a contract spec uuid" *)
| ErrNilEntry
    (* "nil entry not allowed" *)
| ErrDuplicateMDAddr (ma : bytes)
    (* "duplicate metadata address %q not allowed" *)
| ErrNoAccAddr (ma : bytes)
    (* "no account address associated with metadata address %q" *).

#[global] Instance error_eq_decision : EqDecision error.
Proof. solve_decision. Defined.

Inductive panic : Type :=
| PanicIndex (i len : nat)          (* index out of range [i] with length len *)
| PanicSlice (lo hi bound : nat)    (* slice bounds out of range [lo:hi]
                                       with length or capacity bound *)
| PanicError (e : error)            (* panic(err) *)
| PanicString (msg : string)        (* panic("...") *).

Inductive outcome (A : Type) : Type :=
| Returns (a : A)
| Panics (p : panic).
Arguments Returns {A} a.
Arguments Panics {A} p.

#[global] Instance panic_eq_decision : EqDecision panic.
Proof. solve_decision. Defined.

#[global] Instance outcome_eq_decision `{EqDecision A} :
  EqDecision (outcome A).
Proof. solve_decision. Defined.

#[global] Instance outcome_ret : MRet outcome := @Returns.

#[global] Instance outcome_bind : MBind outcome := fun A B k m =>
  match m with
  | Returns a => k a
  | Panics p => Panics p
  end.

(** ** Slices *)

(** [bz[i]] *)
Definition index (bz : bytes) (i : nat) : outcome byte :=
  match bz !! i with
  | Some b => Returns b
  | None => Panics (PanicIndex i (length bz))
  end.

(** [bz[lo:hi]] where the code has tested [hi <= len(bz)] before: within the
    length the capacity of the slice plays no part. *)
Definition slice (bz : bytes) (lo hi : nat) : outcome bytes :=
  if (lo <=? hi) && (hi <=? length bz)
  then Returns (take (hi - lo) (drop lo bz))
  else Panics (PanicSlice lo hi (length bz)).

(** [bz[lo:hi]] in general. A slice shows [len(bz)] elements of its backing
    array; [spare] are the elements of that array behind them, so that
    [cap(bz) = len(bz) + length spare]. The bounds are checked against the
    capacity ("slice bounds out of range [:hi] with capacity cap"), and the
    result shows the elements [lo] to [hi] of the backing array, those of
    [spare] among them when [hi] is beyond the length. *)
Definition slice_cap (bz spare : bytes) (lo hi : nat) : outcome bytes :=
  if (lo <=? hi) && (hi <=? length bz + length spare)
  then Returns (take (hi - lo) (drop lo (bz ++ spare)))
  else Panics (PanicSlice lo hi (length bz + length spare)).

(** [bz[lo:]] *)
Definition slice_from (bz : bytes) (lo : nat) : outcome bytes :=
  slice bz lo (length bz).

(** ** The key prefix table *)

(** Modelled from the spec: the six [...KeyPrefix] variables are declared in
    the package's key table, outside [address.go]. Each is a one-byte slice
    holding the type tag; the tags are distinct byte constants, one per
    type. *)
Class Keys : Type := {
  ScopeTag : byte;
  SessionTag : byte;
  RecordTag : byte;
  ScopeSpecificationTag : byte;
  ContractSpecificationTag : byte;
  RecordSpecificationTag : byte;
  tags_distinct :
    NoDup [ScopeTag; SessionTag; RecordTag;
           ScopeSpecificationTag; ContractSpecificationTag;
           RecordSpecificationTag]
}.

Section WithKeys.
Context `{K : Keys}.

Definition ScopeKeyPrefix : bytes := [ScopeTag].
Definition SessionKeyPrefix : bytes := [SessionTag].
Definition RecordKeyPrefix : bytes := [RecordTag].
Definition ScopeSpecificationKeyPrefix : bytes := [ScopeSpecificationTag].
Definition ContractSpecificationKeyPrefix : bytes := [ContractSpecificationTag].
Definition RecordSpecificationKeyPrefix : bytes := [RecordSpecificationTag].

End WithKeys.

(** ** Bech32 human readable prefixes *)

Definition PrefixScope : string := "scope".
Definition PrefixSession : string := "session".
Definition PrefixRecord : string := "record".
Definition PrefixScopeSpecification : string := "scopespec".
Definition PrefixContractSpecification : string := "contractspec".
Definition PrefixRecordSpecification : string := "recspec".
Definition DenomPrefix : string := "nft/".

(** ** encoding/hex *)

Module hex.

Definition hextable : string := "0123456789abcdef".

Definition digit (n : N) : ascii :=
  match String.get (N.to_nat n) hextable with
  | Some c => c
  | None => "0"%char
  end.

(** [hex.EncodeToString]: two lower-case digits per byte. *)
Fixpoint EncodeToString (src : bytes) : string :=
  match src with
  | [] => ""
  | b :: rest =>
      String (digit (N.shiftr (Byte.to_N b) 4))
        (String (digit (N.land (Byte.to_N b) 15)) (EncodeToString rest))
  end.

(** The errors of the decoder: [hex.ErrLength] and
    [hex.InvalidByteError]. *)
Inductive DecodeError : Type :=
| ErrLength
    (* "encoding/hex: odd length hex string" *)
| InvalidByteError (c : ascii)
    (* "encoding/hex: invalid byte: %#U" *).

(** The table [reverseHexTable]: the value of a digit of either case. *)
Definition fromHexChar (c : ascii) : option N :=
  let n := N_of_ascii c in
  if ((48 <=? n) && (n <=? 57))%N then Some (n - 48)%N
  else if ((97 <=? n) && (n <=? 102))%N then Some (n - 97 + 10)%N
  else if ((65 <=? n) && (n <=? 70))%N then Some (n - 65 + 10)%N
  else None.

Definition byteOf (n : N) : byte :=
  match Byte.of_N n with
  | Some b => b
  | None => x00
  end.

(** [hex.Decode]: two digits to a byte; the bytes decoded before the first
    bad digit are kept; an odd length is reported after its last digit was
    looked at. *)
Fixpoint Decode (src : list ascii) : bytes * option DecodeError :=
  match src with
  | [] => ([], None)
  | [p] =>
      match fromHexChar p with
      | None => ([], Some (InvalidByteError p))
      | Some _ => ([], Some ErrLength)
      end
  | p :: q :: rest =>
      match fromHexChar p with
      | None => ([], Some (InvalidByteError p))
      | Some a =>
          match fromHexChar q with
          | None => ([], Some (InvalidByteError q))
          | Some b =>
              let '(dst, err) := Decode rest in
              (byteOf (N.lor (N.shiftl a 4) b) :: dst, err)
          end
      end
  end.

(** [hex.DecodeString] *)
Definition DecodeString (s : string) : bytes * option DecodeError :=
  Decode (list_ascii_of_string s).

End hex.

(** ** github.com/google/uuid *)

Module uuid.

(** [type UUID [16]byte] *)
Record UUID : Type := MkUUID {
  raw : bytes;
  raw_size : length raw = 16
}.

(** The zero value [uuid.UUID{}]. *)
Definition Nil : UUID := MkUUID (replicate 16 x00) eq_refl.

(** [uuid.FromBytes]: the only check is the length of the slice. *)
Definition FromBytes (b : bytes) : UUID * option error :=
  match decide (length b = 16) with
  | left H => (MkUUID b H, None)
  | right _ => (Nil, Some (ErrUUIDSize (length b)))
  end.

(** [UUID.MarshalBinary] never fails. *)
Definition MarshalBinary (u : UUID) : bytes * option error := (raw u, None).

(** [UUID.String]: xxxxxxxx-xxxx-xxxx-xxxx-xxxxxxxxxxxx *)
Definition String (u : UUID) : string :=
  let b := raw u in
  hex.EncodeToString (take 4 b) +:+ "-" +:+
  hex.EncodeToString (take 2 (drop 4 b)) +:+ "-" +:+
  hex.EncodeToString (take 2 (drop 6 b)) +:+ "-" +:+
  hex.EncodeToString (take 2 (drop 8 b)) +:+ "-" +:+
  hex.EncodeToString (drop 10 b).

End uuid.

(** ** Format verification *)

Section Verify.
Context `{K : Keys}.

(** The [switch bz[0]] of [VerifyMetadataAddressFormat]: the cases are tried
    in the order they are written; each sets [hrp], [requiredLength] and
    [checkSecondaryUUID]. *)
Definition typeOfTag (b : byte) : option (string * nat * bool) :=
  if decide (b = ScopeTag) then Some (PrefixScope, 1 + 16, false)
  else if decide (b = SessionTag) then Some (PrefixSession, 1 + 16 + 16, true)
  else if decide (b = RecordTag) then Some (PrefixRecord, 1 + 16 + 16, false)
  else if decide (b = ScopeSpecificationTag)
       then Some (PrefixScopeSpecification, 1 + 16, false)
  else if decide (b = ContractSpecificationTag)
       then Some (PrefixContractSpecification, 1 + 16, false)
  else if decide (b = RecordSpecificationTag)
       then Some (PrefixRecordSpecification, 1 + 16 + 16, false)
  else None.

Definition VerifyMetadataAddressFormat (bz : bytes)
  : outcome (string * option error) :=
  let hrp := "" in
  if decide (length bz = 0) then mret (hrp, Some ErrAddressIsEmpty) else
  b0 ← index bz 0;
  match typeOfTag b0 with
  | None => mret (hrp, Some (ErrInvalidAddressType b0))
  | Some (hrp, requiredLength, checkSecondaryUUID) =>
      if decide (length bz ≠ requiredLength)
      then mret (hrp, Some (ErrIncorrectLength requiredLength (length bz)))
      else
        primary ← slice bz 1 17;
        match (uuid.FromBytes primary).2 with
        | Some err => mret (hrp, Some (ErrInvalidUUIDBytes err))
        | None =>
            if checkSecondaryUUID then
              secondary ← slice bz 17 33;
              match (uuid.FromBytes secondary).2 with
              | Some err => mret (hrp, Some (ErrInvalidSecondaryUUIDBytes err))
              | None => mret (hrp, None)
              end
            else mret (hrp, None)
        end
  end.

End Verify.

(** ** strings, unicode *)

(** The non-ASCII paths of [strings.TrimSpace] and [strings.ToLower] go
    through the Unicode tables of the standard library; they are taken as
    parameters. The ASCII paths are written out. *)
Class Unicode : Type := {
  (* strings.TrimFunc(s, unicode.IsSpace) *)
  TrimFuncIsSpace : string -> string;
  (* strings.TrimRightFunc(s, unicode.IsSpace) *)
  TrimRightFuncIsSpace : string -> string;
  (* strings.Map(unicode.ToLower, s) *)
  MapToLower : string -> string;
  (* strings.Map(unicode.ToUpper, s) *)
  MapToUpper : string -> string
}.

Module strings.
Section WithUnicode.
Context `{U : Unicode}.

(** [utf8.RuneSelf]: bytes below it are single-byte runes. *)
Definition RuneSelf : nat := 128.

(** The table [asciiSpace]: tab, line feed, vertical tab, form feed, carriage
    return, space. *)
Definition asciiSpace (c : ascii) : bool :=
  match nat_of_ascii c with
  | 9 | 10 | 11 | 12 | 13 | 32 => true
  | _ => false
  end.

(** The second loop of [TrimSpace], on the reversed [s[start:stop]]: moves
    [stop] down over ASCII spaces. *)
Fixpoint trimSpaceStop (r : list ascii) : string :=
  match r with
  | [] => ""
  | c :: r' =>
      if RuneSelf <=? nat_of_ascii c
      then TrimRightFuncIsSpace (string_of_list_ascii (rev r))
      else if asciiSpace c then trimSpaceStop r'
      else string_of_list_ascii (rev r)
  end.

(** [strings.TrimSpace]; the first loop moves [start] up over ASCII spaces. *)
Fixpoint TrimSpace (s : string) : string :=
  match s with
  | EmptyString => ""
  | String c rest =>
      if RuneSelf <=? nat_of_ascii c then TrimFuncIsSpace s
      else if asciiSpace c then TrimSpace rest
      else trimSpaceStop (rev (list_ascii_of_string s))
  end.

Definition isUpper (c : ascii) : bool :=
  (nat_of_ascii "A" <=? nat_of_ascii c) && (nat_of_ascii c <=? nat_of_ascii "Z").

Definition lowerByte (c : ascii) : ascii :=
  if isUpper c
  then ascii_of_nat (nat_of_ascii c + (nat_of_ascii "a" - nat_of_ascii "A"))
  else c.

(** [strings.ToLower] *)
Definition ToLower (s : string) : string :=
  let cs := list_ascii_of_string s in
  let isASCII := forallb (fun c => nat_of_ascii c <? RuneSelf) cs in
  let hasUpper := existsb isUpper cs in
  if isASCII then
    if negb hasUpper then s
    else string_of_list_ascii (map lowerByte cs)
  else MapToLower s.

Definition isLower (c : ascii) : bool :=
  (nat_of_ascii "a" <=? nat_of_ascii c) && (nat_of_ascii c <=? nat_of_ascii "z").

Definition upperByte (c : ascii) : ascii :=
  if isLower c
  then ascii_of_nat (nat_of_ascii c - (nat_of_ascii "a" - nat_of_ascii "A"))
  else c.

(** [strings.ToUpper] *)
Definition ToUpper (s : string) : string :=
  let cs := list_ascii_of_string s in
  let isASCII := forallb (fun c => nat_of_ascii c <? RuneSelf) cs in
  let hasLower := existsb isLower cs in
  if isASCII then
    if negb hasLower then s
    else string_of_list_ascii (map upperByte cs)
  else MapToUpper s.

(** [strings.IndexByte] *)
Fixpoint IndexByte (s : string) (c : ascii) : option nat :=
  match s with
  | EmptyString => None
  | String d rest =>
      if Ascii.eqb d c then Some 0 else S <$> IndexByte rest c
  end.

(** [strings.LastIndexByte] *)
Fixpoint LastIndexByte (s : string) (c : ascii) : option nat :=
  match s with
  | EmptyString => None
  | String d rest =>
      match LastIndexByte rest c with
      | Some i => Some (S i)
      | None => if Ascii.eqb d c then Some 0 else None
      end
  end.

(** [strings.HasPrefix] *)
Definition HasPrefix (s prefix : string) : bool :=
  (String.length prefix <=? String.length s)
  && String.eqb (substring 0 (String.length prefix) s) prefix.

(** [strings.TrimPrefix] *)
Definition TrimPrefix (s prefix : string) : string :=
  if HasPrefix s prefix
  then substring (String.length prefix)
         (String.length s - String.length prefix) s
  else s.

End WithUnicode.
End strings.

(** ** crypto/sha256 *)

(** [sha256.Sum256] returns a [[32]byte]. *)
Class Sha256 : Type := {
  Sum256 : bytes -> bytes;
  Sum256_size : forall data, length (Sum256 data) = 32
}.

(** ** cosmos-sdk/types/bech32 *)

Class Bech32 : Type := {
  ConvertAndEncode : string -> bytes -> string * option error;
  DecodeAndConvert : string -> string * bytes * option error
}.

(** ** fmt *)

Module fmt.

Definition hexNoPad (b : byte) : string :=
  let n := Byte.to_N b in
  if (n <? 16)%N then String (hex.digit n) ""
  else String (hex.digit (N.shiftr n 4)) (String (hex.digit (N.land n 15)) "").

Fixpoint goSyntaxElems (bz : bytes) : string :=
  match bz with
  | [] => ""
  | [b] => "0x" +:+ hexNoPad b
  | b :: rest => "0x" +:+ hexNoPad b +:+ ", " +:+ goSyntaxElems rest
  end.

(** [fmt.Sprintf("%#v", ma)] for a non-nil [MetadataAddress]: the [Format]
    method prints the bytes as a [[]byte] and swaps the type name. *)
Definition GoSyntax (ma : bytes) : string :=
  "MetadataAddress" +:+ "{" +:+ goSyntaxElems ma +:+ "}".

End fmt.

(** ** encoding/base64 *)

Module base64.

Definition encodeStd : string :=
  "ABCDEFGHIJKLMNOPQRSTUVWXYZabcdefghijklmnopqrstuvwxyz0123456789+/".

Definition char (n : N) : ascii :=
  match String.get (N.to_nat n) encodeStd with
  | Some c => c
  | None => "A"%char
  end.

(** [base64.StdEncoding.EncodeToString]: three bytes to four characters, the
    last group padded with [=]. *)
Fixpoint EncodeToString (src : bytes) : string :=
  match src with
  | [] => ""
  | [a] =>
      let v := N.shiftl (Byte.to_N a) 16 in
      String (char (N.land (N.shiftr v 18) 63))
        (String (char (N.land (N.shiftr v 12) 63)) "==")
  | [a; b] =>
      let v := N.lor (N.shiftl (Byte.to_N a) 16) (N.shiftl (Byte.to_N b) 8) in
      String (char (N.land (N.shiftr v 18) 63))
        (String (char (N.land (N.shiftr v 12) 63))
          (String (char (N.land (N.shiftr v 6) 63)) "="))
  | a :: b :: c :: rest =>
      let v := N.lor (N.lor (N.shiftl (Byte.to_N a) 16)
                            (N.shiftl (Byte.to_N b) 8)) (Byte.to_N c) in
      String (char (N.land (N.shiftr v 18) 63))
        (String (char (N.land (N.shiftr v 12) 63))
          (String (char (N.land (N.shiftr v 6) 63))
            (String (char (N.land v 63)) (EncodeToString rest))))
  end.

(** The table [decodeMap]: the index of a character of the alphabet. *)
Definition decodeMap (c : ascii) : option N :=
  N.of_nat <$> strings.IndexByte encodeStd c.

Definition byteOf (n : N) : byte :=
  match Byte.of_N (N.land n 0xFF) with
  | Some b => b
  | None => x00
  end.

(** The three bytes of a quantum of four 6-bit values. *)
Definition quantumBytes (dbuf : list N) : bytes :=
  let d := fun j => nth j dbuf 0%N in
  let val := N.lor (N.lor (N.lor (N.shiftl (d 0) 18) (N.shiftl (d 1) 12))
                          (N.shiftl (d 2) 6)) (d 3) in
  [byteOf (N.shiftr val 16); byteOf (N.shiftr val 8); byteOf val].

Definition isNewline (c : ascii) : bool :=
  Ascii.eqb c "010" || Ascii.eqb c "013".

(** [for si < len(src) && (src[si] == '\n' || src[si] == '\r') { si++ }] *)
Fixpoint skipNewlines (src : list ascii) (si : nat) : list ascii * nat :=
  match src with
  | [] => ([], si)
  | c :: rest => if isNewline c then skipNewlines rest (S si) else (src, si)
  end.

(** The end of [decodeQuantum] once the padding was read: what follows may
    only be newlines; the bytes of the short quantum are written. *)
Definition padded (src : list ascii) (si : nat) (dbuf : list N) (dst : bytes)
  : bytes * option nat :=
  let '(src, si) := skipNewlines src si in
  let err := match src with
             | [] => None
             | _ :: _ => Some si
             end in
  (dst ++ take (length dbuf - 1) (quantumBytes dbuf), err).

(** [Encoding.Decode] for [StdEncoding] (padded, not strict): [src] is the
    input from offset [si] on, [dbuf] the values of the quantum read so far,
    [dst] the bytes written. The error is the offset of a
    [CorruptInputError]. *)
Fixpoint decode (src : list ascii) (si : nat) (dbuf : list N) (dst : bytes)
  : bytes * option nat :=
  match src with
  | [] =>
      match dbuf with
      | [] => (dst, None)
      | _ :: _ => (dst, Some (si - length dbuf))
      end
  | c :: rest =>
      match decodeMap c with
      | Some out =>
          let dbuf := dbuf ++ [out] in
          if length dbuf =? 4
          then decode rest (S si) [] (dst ++ quantumBytes dbuf)
          else decode rest (S si) dbuf dst
      | None =>
          if isNewline c then decode rest (S si) dbuf dst
          else if negb (Ascii.eqb c "=") then (dst, Some si)
          else
            match length dbuf with
            | 0 | 1 => (dst, Some si)
            | 2 =>
                let '(rest', si') := skipNewlines rest (S si) in
                match rest' with
                | [] => (dst, Some si')
                | c2 :: rest'' =>
                    if negb (Ascii.eqb c2 "=") then (dst, Some (si' - 1))
                    else padded rest'' (S si') dbuf dst
                end
            | _ => padded rest (S si) dbuf dst
            end
      end
  end.

(** [base64.StdEncoding.DecodeString] *)
Definition DecodeString (s : string) : bytes * option nat :=
  decode (list_ascii_of_string s) 0 [] [].

End base64.

(** ** MetadataAddress *)

(** [copy(dst, src)]: the first [min (len dst) (len src)] bytes of [dst] are
    overwritten by those of [src]. *)
Definition copy (dst src : bytes) : bytes :=
  take (length dst) src ++ drop (length src) dst.

Section Functions.
Context `{K : Keys} `{U : Unicode} `{H : Sha256} `{B : Bech32}.

Definition VerifyMetadataAddressHasType (ma : bytes) (expHRP : string)
  : outcome (option error) :=
  '(hrp, err) ← VerifyMetadataAddressFormat ma;
  match err with
  | Some err => mret (Some (ErrInvalidMetadataAddress expHRP ma err))
  | None =>
      if decide (hrp ≠ expHRP) then mret (Some (ErrWrongTypeID expHRP ma))
      else mret None
  end.

Definition ParseMetadataAddressFromBech32 (address : string)
  : outcome (bytes * string * option error) :=
  if decide (String.length (strings.TrimSpace address) = 0)
  then mret ([], "", Some ErrEmptyAddressString)
  else
    let '(hrp, bz, err) := DecodeAndConvert address in
    match err with
    | Some err => mret ([], "", Some err)
    | None =>
        '(expectedHrp, err) ← VerifyMetadataAddressFormat bz;
        match err with
        | Some err => mret ([], "", Some err)
        | None =>
            if decide (expectedHrp ≠ hrp)
            then mret ([], "", Some (ErrInvalidBech32Prefix expectedHrp hrp))
            else mret (bz, hrp, None)
        end
    end.

Definition MetadataAddressFromBech32 (address : string)
  : outcome (bytes * option error) :=
  '(bz, _, err) ← ParseMetadataAddressFromBech32 address;
  mret (bz, err).

Definition ScopeMetadataAddress (scopeUUID : uuid.UUID) : outcome bytes :=
  let '(bz, err) := uuid.MarshalBinary scopeUUID in
  match err with
  | Some err => Panics (PanicError err)
  | None => mret (ScopeKeyPrefix ++ bz)
  end.

Definition SessionMetadataAddress (scopeUUID sessionUUID : uuid.UUID)
  : outcome bytes :=
  let '(bz, err) := uuid.MarshalBinary scopeUUID in
  match err with
  | Some err => Panics (PanicError err)
  | None =>
      let addr := SessionKeyPrefix in
      let addr := addr ++ bz in
      let '(bz, err) := uuid.MarshalBinary sessionUUID in
      match err with
      | Some err => Panics (PanicError err)
      | None => mret (addr ++ bz)
      end
  end.

Definition RecordMetadataAddress (scopeUUID : uuid.UUID) (name : string)
  : outcome bytes :=
  let '(bz, err) := uuid.MarshalBinary scopeUUID in
  match err with
  | Some err => Panics (PanicError err)
  | None =>
      let addr := RecordKeyPrefix in
      let addr := addr ++ bz in
      let name := strings.ToLower (strings.TrimSpace name) in
      if String.length name <? 1
      then Panics (PanicString "missing name value for record metadata address")
      else
        let nameBytes := Sum256 (list_byte_of_string name) in
        mret (addr ++ take 16 nameBytes)
  end.

Definition ScopeSpecMetadataAddress (specUUID : uuid.UUID) : outcome bytes :=
  let '(bz, err) := uuid.MarshalBinary specUUID in
  match err with
  | Some err => Panics (PanicError err)
  | None => mret (ScopeSpecificationKeyPrefix ++ bz)
  end.

Definition ContractSpecMetadataAddress (specUUID : uuid.UUID) : outcome bytes :=
  let '(bz, err) := uuid.MarshalBinary specUUID in
  match err with
  | Some err => Panics (PanicError err)
  | None => mret (ContractSpecificationKeyPrefix ++ bz)
  end.

Definition RecordSpecMetadataAddress (contractSpecUUID : uuid.UUID)
  (name : string) : outcome bytes :=
  let '(bz, err) := uuid.MarshalBinary contractSpecUUID in
  match err with
  | Some err => Panics (PanicError err)
  | None =>
      let addr := RecordSpecificationKeyPrefix in
      let addr := addr ++ bz in
      let name := strings.ToLower (strings.TrimSpace name) in
      if String.length name <? 1
      then Panics
             (PanicString "missing name value for record spec metadata address")
      else
        let nameBytes := Sum256 (list_byte_of_string name) in
        mret (addr ++ take 16 nameBytes)
  end.

End Functions.

(** ** MetadataAddressDetails *)

Module Details.

Record MetadataAddressDetails : Type := {
  Address : bytes;
  AddressPrefix : bytes;
  AddressPrimaryUUID : bytes;
  AddressSecondaryUUID : bytes;
  AddressNameHash : bytes;
  AddressExcess : bytes;
  Prefix : string;
  PrimaryUUID : string;
  SecondaryUUID : string;
  NameHashHex : string;
  NameHashBase64 : string;
  ExcessHex : string;
  ExcessBase64 : string;
  ParentAddress : bytes
}.

End Details.

(** ** bytes, sdk.Address *)



(** The interface [sdk.Address], with the two methods [Equals] calls on its
    argument. *)
Class Address (A : Type) : Type := {
  address_Empty : A → bool;
  address_Bytes : A → bytes
}.

(** ** Methods of [type MetadataAddress []byte] *)

Module MetadataAddress.
Section Methods.
Context `{K : Keys} `{U : Unicode} `{H : Sha256} `{B : Bech32}.

Definition Bytes (ma : bytes) : bytes := ma.

Definition Empty (ma : bytes) : bool := bool_decide (length ma = 0).

Definition Validate (ma : bytes) : outcome (option error) :=
  '(_, err) ← VerifyMetadataAddressFormat ma;
  mret err.

Definition String (ma : bytes) : outcome string :=
  if Empty ma then mret ""
  else
    '(hrp, err) ← VerifyMetadataAddressFormat ma;
    match err with
    | Some _ => mret (fmt.GoSyntax ma)
    | None =>
        let '(bech32Addr, err) := ConvertAndEncode hrp (Bytes ma) in
        match err with
        | Some err => Panics (PanicError err)
        | None => mret bech32Addr
        end
    end.

(** [isTypeOneOf]: the first byte equals the first byte of an option. *)
Definition isTypeOneOf (ma : bytes) (options : list bytes) : bool :=
  match ma with
  | [] => false
  | ma0 :: _ =>
      existsb (fun o => match o with
                        | [] => false
                        | o0 :: _ => bool_decide (ma0 = o0)
                        end) options
  end.

Definition PrimaryUUID (ma : bytes) : outcome (uuid.UUID * option error) :=
  if length ma <? 1 then mret (uuid.Nil, Some ErrAddressEmpty)
  else if negb (isTypeOneOf ma
                  [ScopeKeyPrefix; SessionKeyPrefix; RecordKeyPrefix;
                   ScopeSpecificationKeyPrefix; ContractSpecificationKeyPrefix;
                   RecordSpecificationKeyPrefix])
  then ma0 ← index ma 0; mret (uuid.Nil, Some (ErrTypeOutOfRange ma0))
  else if length ma <? 17
  then mret (uuid.Nil, Some (ErrLengthAtLeast 17 (length ma)))
  else p ← slice ma 1 17; mret (uuid.FromBytes p).

Definition SecondaryUUID (ma : bytes) : outcome (uuid.UUID * option error) :=
  if length ma <? 1 then mret (uuid.Nil, Some ErrAddressEmpty)
  else if negb (isTypeOneOf ma [SessionKeyPrefix])
  then ma0 ← index ma 0; mret (uuid.Nil, Some (ErrTypeOutOfRange ma0))
  else if length ma <? 33
  then mret (uuid.Nil, Some (ErrLengthAtLeast 33 (length ma)))
  else s ← slice ma 17 33; mret (uuid.FromBytes s).

Definition NameHash (ma : bytes) : outcome (bytes * option error) :=
  let namehash := replicate 16 x00 in
  if length ma <? 1 then mret (namehash, Some ErrAddressEmpty)
  else if negb (isTypeOneOf ma [RecordKeyPrefix; RecordSpecificationKeyPrefix])
  then ma0 ← index ma 0; mret (namehash, Some (ErrTypeOutOfRange ma0))
  else if length ma <? 33
  then mret (namehash, Some (ErrLengthAtLeast 33 (length ma)))
  else tail ← slice_from ma 17; mret (copy namehash tail, None).

Definition ScopeUUID (ma : bytes) : outcome (uuid.UUID * option error) :=
  if negb (isTypeOneOf ma [ScopeKeyPrefix; SessionKeyPrefix; RecordKeyPrefix])
  then mret (uuid.Nil, Some (ErrNoScopeUUID ma))
  else PrimaryUUID ma.

Definition SessionUUID (ma : bytes) : outcome (uuid.UUID * option error) :=
  match ma with
  | ma0 :: _ =>
      if decide (ma0 ≠ SessionTag)
      then mret (uuid.Nil, Some (ErrNoSessionUUID ma))
      else SecondaryUUID ma
  | [] => SecondaryUUID ma
  end.

Definition ScopeSpecUUID (ma : bytes) : outcome (uuid.UUID * option error) :=
  match ma with
  | ma0 :: _ =>
      if decide (ma0 ≠ ScopeSpecificationTag)
      then mret (uuid.Nil, Some (ErrNoScopeSpecUUID ma))
      else PrimaryUUID ma
  | [] => PrimaryUUID ma
  end.

Definition ContractSpecUUID (ma : bytes) : outcome (uuid.UUID * option error) :=
  if negb (isTypeOneOf ma
             [ContractSpecificationKeyPrefix; RecordSpecificationKeyPrefix])
  then mret (uuid.Nil, Some (ErrNoContractSpecUUID ma))
  else PrimaryUUID ma.

Definition Prefix (ma : bytes) : outcome (string * option error) :=
  '(prefix, err) ← VerifyMetadataAddressFormat ma;
  if decide (String.length prefix = 0) then mret (prefix, err)
  else mret (prefix, None).

Definition AsScopeAddress (ma : bytes) : outcome (bytes * option error) :=
  '(scopeUUID, err) ← ScopeUUID ma;
  match err with
  | Some err => mret ([], Some err)
  | None => a ← ScopeMetadataAddress scopeUUID; mret (a, None)
  end.

Definition AsSessionAddress (ma : bytes) (sessionUUID : uuid.UUID)
  : outcome (bytes * option error) :=
  '(scopeUUID, err) ← ScopeUUID ma;
  match err with
  | Some err => mret ([], Some err)
  | None => a ← SessionMetadataAddress scopeUUID sessionUUID; mret (a, None)
  end.

Definition AsRecordAddress (ma : bytes) (name : string)
  : outcome (bytes * option error) :=
  '(scopeUUID, err) ← ScopeUUID ma;
  match err with
  | Some err => mret ([], Some err)
  | None =>
      if decide (String.length name = 0)
      then mret ([], Some ErrMissingRecordName)
      else a ← RecordMetadataAddress scopeUUID name; mret (a, None)
  end.

Definition AsRecordSpecAddress (ma : bytes) (name : string)
  : outcome (bytes * option error) :=
  '(contractSpecUUID, err) ← ContractSpecUUID ma;
  match err with
  | Some err => mret ([], Some err)
  | None => a ← RecordSpecMetadataAddress contractSpecUUID name; mret (a, None)
  end.

Definition AsContractSpecAddress (ma : bytes)
  : outcome (bytes * option error) :=
  '(contractSpecUUID, err) ← ContractSpecUUID ma;
  match err with
  | Some err => mret ([], Some err)
  | None => a ← ContractSpecMetadataAddress contractSpecUUID; mret (a, None)
  end.

(** The three iterator prefixes slice [ma[1:17]] after a test of the tag
    only. [spare] holds the elements of the backing array behind the receiver
    [ma], which the slice expression reaches when [ma] is shorter than 17
    bytes and its capacity is not. The result of [append] is a new array:
    the prefix variables are one-byte literals without spare capacity. *)
Definition ScopeSessionIteratorPrefix (ma spare : bytes)
  : outcome (bytes * option error) :=
  if length ma <? 1 then mret (SessionKeyPrefix, None)
  else if negb (isTypeOneOf ma
                  [ScopeKeyPrefix; SessionKeyPrefix; RecordKeyPrefix])
  then mret ([], Some ErrIterNoScopeUUID)
  else p ← slice_cap ma spare 1 17; mret (SessionKeyPrefix ++ p, None).

Definition ScopeRecordIteratorPrefix (ma spare : bytes)
  : outcome (bytes * option error) :=
  if length ma <? 1 then mret (RecordKeyPrefix, None)
  else if negb (isTypeOneOf ma
                  [ScopeKeyPrefix; SessionKeyPrefix; RecordKeyPrefix])
  then mret ([], Some ErrIterNoScopeUUID)
  else p ← slice_cap ma spare 1 17; mret (RecordKeyPrefix ++ p, None).

Definition ContractSpecRecordSpecIteratorPrefix (ma spare : bytes)
  : outcome (bytes * option error) :=
  if length ma <? 1 then mret (RecordSpecificationKeyPrefix, None)
  else if negb (isTypeOneOf ma
                  [ContractSpecificationKeyPrefix; RecordSpecificationKeyPrefix])
  then mret ([], Some ErrIterNoContractSpecUUID)
  else p ← slice_cap ma spare 1 17;
       mret (RecordSpecificationKeyPrefix ++ p, None).

Definition IsScopeAddress (ma : bytes) : outcome bool :=
  '(hrp, err) ← VerifyMetadataAddressFormat ma;
  mret (bool_decide (err = None) && bool_decide (hrp = PrefixScope)).

Definition IsContractSpecificationAddress (ma : bytes) : outcome bool :=
  '(hrp, err) ← VerifyMetadataAddressFormat ma;
  mret (bool_decide (err = None)
        && bool_decide (hrp = PrefixContractSpecification)).

Definition ValidateIsScopeAddress (ma : bytes) : outcome (option error) :=
  VerifyMetadataAddressHasType ma PrefixScope.

(** [GetDetails]: the fields of [retval] are computed in the order the
    method assigns them; a field that is never assigned keeps its zero value
    (the nil slice, the empty string). *)
Definition GetDetails (ma : bytes) : outcome Details.MetadataAddressDetails :=
  let addr := copy (replicate (length ma) x00) ma in
  '(addressPrefix, prefix) ←
    (if 1 <=? length addr then
       addressPrefix ← slice addr 0 1;
       '(prefix, err) ← Prefix addr;
       let prefix := match err with
                     | Some _ => hex.EncodeToString addressPrefix
                     | None => prefix
                     end in
       mret (addressPrefix, prefix)
     else mret ([], ""));
  '(addressPrimaryUUID, primaryUUID) ←
    (if 17 <=? length addr then
       addressPrimaryUUID ← slice addr 1 17;
       let '(uid, _) := uuid.FromBytes addressPrimaryUUID in
       mret (addressPrimaryUUID, uuid.String uid)
     else mret ([], ""));
  '(secondaryUUID, secondaryUUIDErr) ← SecondaryUUID addr;
  let '(addressSecondaryUUID, secondaryUUIDString) :=
    match secondaryUUIDErr with
    | None => (uuid.raw secondaryUUID, uuid.String secondaryUUID)
    | Some _ => ([], "")
    end in
  '(nameHash, nameHashErr) ← NameHash addr;
  let '(addressNameHash, nameHashHex, nameHashBase64) :=
    match nameHashErr with
    | None => (nameHash, hex.EncodeToString nameHash,
               base64.EncodeToString nameHash)
    | Some _ => ([], "", "")
    end in
  let expectedLength :=
    if bool_decide (secondaryUUIDErr = None) || bool_decide (nameHashErr = None)
    then 17 + 16 else 17 in
  '(addressExcess, excessHex, excessBase64) ←
    (if expectedLength <? length addr then
       addressExcess ← slice_from addr expectedLength;
       mret (addressExcess, hex.EncodeToString addressExcess,
             base64.EncodeToString addressExcess)
     else mret ([], "", ""));
  isScope ← IsScopeAddress addr;
  parentAddress ←
    (if negb isScope then
       '(pAddr, err) ← AsScopeAddress addr;
       match err with
       | None => mret pAddr
       | Some _ => mret []
       end
     else mret []);
  isContractSpec ← IsContractSpecificationAddress addr;
  parentAddress ←
    (if negb isContractSpec then
       '(pAddr, err) ← AsContractSpecAddress addr;
       match err with
       | None => mret pAddr
       | Some _ => mret parentAddress
       end
     else mret parentAddress);
  mret {| Details.Address := addr;
          Details.AddressPrefix := addressPrefix;
          Details.AddressPrimaryUUID := addressPrimaryUUID;
          Details.AddressSecondaryUUID := addressSecondaryUUID;
          Details.AddressNameHash := addressNameHash;
          Details.AddressExcess := addressExcess;
          Details.Prefix := prefix;
          Details.PrimaryUUID := primaryUUID;
          Details.SecondaryUUID := secondaryUUIDString;
          Details.NameHashHex := nameHashHex;
          Details.NameHashBase64 := nameHashBase64;
          Details.ExcessHex := excessHex;
          Details.ExcessBase64 := excessBase64;
          Details.ParentAddress := parentAddress |}.


Definition Marshal (ma : bytes) : bytes * option error := (ma, None).

(** [Unmarshal] has a pointer receiver: the first component of the result is
    the new value of [*ma], assigned before the bytes are checked. *)
Definition Unmarshal (ma data : bytes) : outcome (bytes * option error) :=
  let ma := data in
  if decide (length data = 0) then mret (ma, None)
  else
    '(_, err) ← VerifyMetadataAddressFormat data;
    mret (ma, err).

Definition Size (ma : bytes) : nat := length ma.

(** [MarshalTo]: the first component of the result is [data] after the
    call. *)
Definition MarshalTo (ma data : bytes) : bytes * nat * option error :=
  if decide (length ma = 0) then (data, 0, None)
  else (copy data ma, length ma, None).


Definition MustGetAsScopeAddress (ma : bytes) : outcome bytes :=
  '(retval, err) ← AsScopeAddress ma;
  match err with
  | Some err => Panics (PanicError err)
  | None => mret retval
  end.

Definition MustGetAsSessionAddress (ma : bytes) (sessionUUID : uuid.UUID)
  : outcome bytes :=
  '(retval, err) ← AsSessionAddress ma sessionUUID;
  match err with
  | Some err => Panics (PanicError err)
  | None => mret retval
  end.

Definition MustGetAsRecordAddress (ma : bytes) (name : string)
  : outcome bytes :=
  '(retval, err) ← AsRecordAddress ma name;
  match err with
  | Some err => Panics (PanicError err)
  | None => mret retval
  end.

Definition MustGetAsRecordSpecAddress (ma : bytes) (name : string)
  : outcome bytes :=
  '(retval, err) ← AsRecordSpecAddress ma name;
  match err with
  | Some err => Panics (PanicError err)
  | None => mret retval
  end.

Definition MustGetAsContractSpecAddress (ma : bytes) : outcome bytes :=
  '(retval, err) ← AsContractSpecAddress ma;
  match err with
  | Some err => Panics (PanicError err)
  | None => mret retval
  end.

Definition IsSessionAddress (ma : bytes) : outcome bool :=
  '(hrp, err) ← VerifyMetadataAddressFormat ma;
  mret (bool_decide (err = None) && bool_decide (hrp = PrefixSession)).

Definition IsRecordAddress (ma : bytes) : outcome bool :=
  '(hrp, err) ← VerifyMetadataAddressFormat ma;
  mret (bool_decide (err = None) && bool_decide (hrp = PrefixRecord)).

Definition IsScopeSpecificationAddress (ma : bytes) : outcome bool :=
  '(hrp, err) ← VerifyMetadataAddressFormat ma;
  mret (bool_decide (err = None)
        && bool_decide (hrp = PrefixScopeSpecification)).

Definition IsRecordSpecificationAddress (ma : bytes) : outcome bool :=
  '(hrp, err) ← VerifyMetadataAddressFormat ma;
  mret (bool_decide (err = None)
        && bool_decide (hrp = PrefixRecordSpecification)).

Definition ValidateIsScopeSpecificationAddress (ma : bytes)
  : outcome (option error) :=
  VerifyMetadataAddressHasType ma PrefixScopeSpecification.

Definition Denom (ma : bytes) : outcome string :=
  s ← String ma;
  mret (DenomPrefix +:+ s).

End Methods.
End MetadataAddress.


(** ** Conversion from a hash, from hex and from a denom *)

(** The errors of the conversion functions: those of the format check, which
    they return as they get them, and their own. *)
Inductive conversionError : Type :=
| ErrFormat (err : error)
| ErrEmptyTypeCode
    (* "empty typeCode bytes" *)
| ErrEmptyHash
    (* "empty hash string" *)
| ErrInvalidTypeCode (typeCode : bytes)
    (* "invalid address type code 0x%X" *)
| ErrCorruptInput (offset : nat)
    (* base64: "illegal base64 data at input byte %d" *)
| ErrHashLength (hash : string) (reqLen found : nat)
    (* "invalid hash \"%s\" byte length, expected at least %d bytes, found %d" *)
| ErrMustProvideAddress
    (* "address decode failed: must provide an address" *)
| ErrHex (err : hex.DecodeError)
    (* an error of encoding/hex *)
| ErrNotDenom (denom : string)
    (* "denom %q is not a MetadataAddress denom" *)
| ErrInvalidDenom (denom : string) (cause : error)
    (* "invalid metadata address in denom %q: %w" *).

#[global] Instance hex_DecodeError_eq_decision : EqDecision hex.DecodeError.
Proof. solve_decision. Defined.

#[global] Instance conversionError_eq_decision : EqDecision conversionError.
Proof. solve_decision. Defined.

Section Conversions.
Context `{K : Keys} `{U : Unicode} `{B : Bech32}.

(** The [switch typeCode[0]] of [ConvertHashToAddress]: the number of bytes
    the type takes after its tag. *)
Definition reqLenOfTag (b : byte) : option nat :=
  if bool_decide (b ∈ [ScopeTag; ContractSpecificationTag;
                       ScopeSpecificationTag]) then Some 16
  else if bool_decide (b = SessionTag) then Some 32
  else if bool_decide (b ∈ [RecordTag; RecordSpecificationTag]) then Some 32
  else None.

Definition ConvertHashToAddress (typeCode : bytes) (hash : string)
  : outcome (bytes * option conversionError) :=
  let addr : bytes := [] in
  if decide (length typeCode = 0) then mret (addr, Some ErrEmptyTypeCode)
  else if decide (String.length hash = 0) then mret (addr, Some ErrEmptyHash)
  else
    t0 ← index typeCode 0;
    match reqLenOfTag t0 with
    | None => mret (addr, Some (ErrInvalidTypeCode typeCode))
    | Some reqLen =>
        let '(raw, err) := base64.DecodeString hash in
        match err with
        | Some offset => mret (addr, Some (ErrCorruptInput offset))
        | None =>
            if length raw <? reqLen
            then mret (addr, Some (ErrHashLength hash reqLen (length raw)))
            else
              t0 ← index typeCode 0;
              hashed ← slice raw 0 reqLen;
              '(addr, err) ← MetadataAddress.Unmarshal addr ([t0] ++ hashed);
              mret (addr, ErrFormat <$> err)
        end
    end.

Definition MetadataAddressFromHex (address : string)
  : bytes * option conversionError :=
  if decide (String.length address = 0) then ([], Some ErrMustProvideAddress)
  else
    let '(bz, err) := hex.DecodeString address in
    (bz, ErrHex <$> err).

Definition MetadataAddressFromDenom (denom : string)
  : outcome (bytes * option conversionError) :=
  let id := strings.TrimPrefix denom DenomPrefix in
  if decide (id = denom) then mret ([], Some (ErrNotDenom denom))
  else
    '(rv, err) ← MetadataAddressFromBech32 id;
    match err with
    | Some err => mret ([], Some (ErrInvalidDenom denom err))
    | None => mret (rv, None)
    end.

End Conversions.



(** ** AccMDLinks *)

(** [AccMDLink]: an account address ([sdk.AccAddress], a byte slice) and a
    metadata address. *)
Record AccMDLink : Type := NewAccMDLink {
  AccAddr : bytes;
  MDAddr : bytes
}.

(** [type AccMDLinks []*AccMDLink]: a nil pointer is [None]. *)
Abbreviation AccMDLinks := (list (option AccMDLink)).

Section Links.
Context `{K : Keys}.

(** The [switch seenMDAddrs[key]] of the loop body: the updated map, and the
    error the case returns with, if it does. A key that is not in the map
    reads as 0. *)
Definition seenSwitch (seenMDAddrs : gmap bytes Z) (link : AccMDLink)
  : outcome (gmap bytes Z * option error) :=
  let key := MDAddr link in
  match default 0%Z (seenMDAddrs !! key) with
  | 0%Z =>
      let seenMDAddrs := <[key := 1%Z]> seenMDAddrs in
      err ← MetadataAddress.ValidateIsScopeAddress (MDAddr link);
      mret (seenMDAddrs, err)
  | 1%Z =>
      let seenMDAddrs := <[key := 2%Z]> seenMDAddrs in
      mret (seenMDAddrs, Some (ErrDuplicateMDAddr (MDAddr link)))
  | _ => mret (seenMDAddrs, None)
  end.

(** The [for _, link := range a] loop of [ValidateForScopes]. *)
Fixpoint validateLinks (seenMDAddrs : gmap bytes Z) (a : AccMDLinks)
  : outcome (option error) :=
  match a with
  | [] => mret None
  | None :: _ => mret (Some ErrNilEntry)
  | Some link :: rest =>
      match seenSwitch seenMDAddrs link with
      | Panics p => Panics p
      | Returns (_, Some err) => mret (Some err)
      | Returns (seenMDAddrs, None) =>
          if decide (length (AccAddr link) = 0)
          then mret (Some (ErrNoAccAddr (MDAddr link)))
          else validateLinks seenMDAddrs rest
      end
  end.

Definition ValidateForScopes (a : AccMDLinks) : outcome (option error) :=
  if decide (length a = 0) then mret None
  else validateLinks ∅ a.

(** The loop of [GetAccAddrs], with its map [seen] and its result [rv]; a
    key that is not in the map reads as [false]. *)
Fixpoint getAccAddrs (seen : gmap bytes bool) (rv : list bytes)
  (a : AccMDLinks) : list bytes :=
  match a with
  | [] => rv
  | None :: rest => getAccAddrs seen rv rest
  | Some link :: rest =>
      if decide (length (AccAddr link) = 0) then getAccAddrs seen rv rest
      else if negb (default false (seen !! AccAddr link))
      then getAccAddrs (<[AccAddr link := true]> seen)
             (rv ++ [AccAddr link]) rest
      else getAccAddrs seen rv rest
  end.

Definition GetAccAddrs (a : AccMDLinks) : list bytes := getAccAddrs ∅ [] a.

(** The loop of [GetPrimaryUUIDs]: [i] is the index of the first entry of
    [a] in the whole list, [rv] the result so far. *)
Fixpoint getPrimaryUUIDs (i : nat) (rv : list string) (a : AccMDLinks)
  : outcome (list string) :=
  match a with
  | [] => mret rv
  | link :: rest =>
      rv ← match link with
           | Some link =>
               if 0 <? length (MDAddr link) then
                 '(id, err) ← MetadataAddress.PrimaryUUID (MDAddr link);
                 match err with
                 | None => mret (<[i := uuid.String id]> rv)
                 | Some _ => mret rv
                 end
               else mret rv
           | None => mret rv
           end;
      getPrimaryUUIDs (S i) rv rest
  end.

(** [GetPrimaryUUIDs]: the nil list and the empty list are both [[]], and
    both give the empty result. *)
Definition GetPrimaryUUIDs (a : AccMDLinks) : outcome (list string) :=
  getPrimaryUUIDs 0 (replicate (length a) "") a.

End Links.

(** [sdk.AccAddress.String]: the empty string for the empty address,
    otherwise the bech32 text of the bytes under the account prefix of the
    SDK configuration, which is a parameter. *)
Class SDKConfig : Type := {
  Bech32AccountAddrPrefix : string
}.

Section LinksByAccount.
Context `{B : Bech32} `{C : SDKConfig}.

Definition AccAddress_String (aa : bytes) : outcome string :=
  if decide (length aa = 0) then mret ""
  else
    let '(bech32Addr, err) := ConvertAndEncode Bech32AccountAddrPrefix aa in
    match err with
    | Some err => Panics (PanicError err)
    | None => mret bech32Addr
    end.

(** The loop of [GetMDAddrsForAccAddr], with its result [rv]. *)
Fixpoint getMDAddrsForAccAddr (addr : string) (rv : list bytes)
  (a : AccMDLinks) : outcome (list bytes) :=
  match a with
  | [] => mret rv
  | None :: rest => getMDAddrsForAccAddr addr rv rest
  | Some link :: rest =>
      s ← AccAddress_String (AccAddr link);
      if decide (addr = s)
      then getMDAddrsForAccAddr addr (rv ++ [MDAddr link]) rest
      else getMDAddrsForAccAddr addr rv rest
  end.

Definition GetMDAddrsForAccAddr (a : AccMDLinks) (addr : string)
  : outcome (list bytes) :=
  getMDAddrsForAccAddr addr [] a.

End LinksByAccount.

(** * Reference instances of the collaborators *)

(** ** The key table of the package: tags 0 to 5 *)

Lemma metadataKeys_distinct : NoDup [x00; x01; x02; x04; x03; x05].
Proof. apply (bool_decide_unpack _). vm_compute. exact I. Qed.

Definition metadataKeys : Keys :=
  {| ScopeTag := x00; SessionTag := x01; RecordTag := x02;
     ScopeSpecificationTag := x04; ContractSpecificationTag := x03;
     RecordSpecificationTag := x05;
     tags_distinct := metadataKeys_distinct |}.

(** ** Strings of ASCII bytes: the Unicode paths are not taken on them *)

Definition asciiStrings : Unicode :=
  {| TrimFuncIsSpace := id; TrimRightFuncIsSpace := id;
     MapToLower := id; MapToUpper := id |}.

(** ** SHA-256 (FIPS 180-4) *)

Module sha256.
#[local] Open Scope N_scope.

Definition mask32 : N := 0xFFFFFFFF.
Definition add32 (a b : N) : N := N.land (a + b) mask32.
Definition rotr (n x : N) : N :=
  N.lor (N.shiftr x n) (N.land (N.shiftl x (32 - n)) mask32).
Definition not32 (x : N) : N := N.lxor x mask32.

Definition Ch (x y z : N) : N := N.lxor (N.land x y) (N.land (not32 x) z).
Definition Maj (x y z : N) : N :=
  N.lxor (N.lxor (N.land x y) (N.land x z)) (N.land y z).
Definition bsig0 (x : N) : N :=
  N.lxor (N.lxor (rotr 2 x) (rotr 13 x)) (rotr 22 x).
Definition bsig1 (x : N) : N :=
  N.lxor (N.lxor (rotr 6 x) (rotr 11 x)) (rotr 25 x).
Definition ssig0 (x : N) : N :=
  N.lxor (N.lxor (rotr 7 x) (rotr 18 x)) (N.shiftr x 3).
Definition ssig1 (x : N) : N :=
  N.lxor (N.lxor (rotr 17 x) (rotr 19 x)) (N.shiftr x 10).

(** The primes below [n], in order. *)
Definition primesBelow (n : nat) : list N :=
  let isPrime (p : nat) :=
    forallb (fun d => negb (p mod d =? 0)%nat) (seq 2 (p - 2)) in
  map N.of_nat (filter (fun p => isPrime p = true) (seq 2 (n - 2))).

(** The integer cube root of [n], for [n] below 2^108: one bit at a time. *)
Definition cubeRoot (n : N) : N :=
  fold_left (fun r bit =>
               let r' := N.lor r (N.shiftl 1 bit) in
               if r' * r' * r' <=? n then r' else r)
            (map N.of_nat (rev (seq 0 36))) 0.

(** The round constants: the first 32 bits of the fractional parts of the
    cube roots of the first 64 primes. *)
Definition K256 : list N :=
  Eval vm_compute in
    map (fun p => N.land (cubeRoot (N.shiftl p 96)) mask32) (primesBelow 312).

Definition state : Type := N * N * N * N * N * N * N * N.

(** The initial hash value: the first 32 bits of the fractional parts of the
    square roots of the first 8 primes. *)
Definition initWords : list N :=
  Eval vm_compute in
    map (fun p => N.land (N.sqrt (N.shiftl p 64)) mask32) (primesBelow 20).

Definition init : state :=
  match initWords with
  | [a; b; c; d; e; f; g; h] => (a, b, c, d, e, f, g, h)
  | _ => (0, 0, 0, 0, 0, 0, 0, 0)
  end.

(** The words of a block, big endian. *)
Fixpoint words (bs : list N) : list N :=
  match bs with
  | a :: b :: c :: d :: rest =>
      (N.shiftl a 24 + N.shiftl b 16 + N.shiftl c 8 + d) :: words rest
  | _ => []
  end.

(** The message schedule: [n] more words after those of [w]. *)
Fixpoint schedule (n : nat) (w : list N) : list N :=
  match n with
  | O => w
  | S n' =>
      let t := length w in
      let back (i : nat) := nth (t - i)%nat w 0 in
      schedule n'
        (w ++ [add32 (add32 (add32 (ssig1 (back 2%nat)) (back 7%nat))
                            (ssig0 (back 15%nat))) (back 16%nat)])
  end.

Definition round (s : state) (kw : N * N) : state :=
  let '(a, b, c, d, e, f, g, h) := s in
  let t1 := add32 (add32 (add32 (add32 h (bsig1 e)) (Ch e f g)) kw.1) kw.2 in
  let t2 := add32 (bsig0 a) (Maj a b c) in
  (add32 t1 t2, a, b, c, add32 d t1, e, f, g).

Definition block (s : state) (bs : list N) : state :=
  let w := schedule 48 (words bs) in
  let '(a, b, c, d, e, f, g, h) := fold_left round (zip K256 w) s in
  let '(a0, b0, c0, d0, e0, f0, g0, h0) := s in
  (add32 a0 a, add32 b0 b, add32 c0 c, add32 d0 d,
   add32 e0 e, add32 f0 f, add32 g0 g, add32 h0 h).

Fixpoint blocks (fuel : nat) (s : state) (bs : list N) : state :=
  match fuel, bs with
  | S fuel', _ :: _ => blocks fuel' (block s (take 64 bs)) (drop 64 bs)
  | _, _ => s
  end.

(** The [n] low bytes of [x], big endian. *)
Definition be (n : nat) (x : N) : list N :=
  map (fun i => N.land (N.shiftr x (8 * N.of_nat i)) 0xFF) (rev (seq 0 n)).

Definition pad (msg : list N) : list N :=
  let len := length msg in
  let zeros := ((64 - (len + 9) mod 64) mod 64)%nat in
  msg ++ [0x80] ++ replicate zeros 0 ++ be 8 (8 * N.of_nat len).

Definition byte_of (n : N) : byte :=
  match Byte.of_N (N.land n 0xFF) with
  | Some b => b
  | None => x00
  end.

Definition Sum256 (data : bytes) : bytes :=
  let msg := pad (map Byte.to_N data) in
  let '(a, b, c, d, e, f, g, h) := blocks (length msg) init msg in
  map byte_of (be 4 a ++ be 4 b ++ be 4 c ++ be 4 d ++
               be 4 e ++ be 4 f ++ be 4 g ++ be 4 h).

Lemma Sum256_size data : length (Sum256 data) = 32%nat.
Proof.
  unfold Sum256.
  destruct (blocks _ _ _) as [[[[[[[a b] c] d] e] f] g] h].
  reflexivity.
Qed.

End sha256.

Definition sha256_reference : Sha256 :=
  {| Sum256 := sha256.Sum256; Sum256_size := sha256.Sum256_size |}.

(** ** Bech32 (BIP-173), as the bech32 package of the SDK computes it *)

Module bech32.
Section WithUnicode.
Context `{U : Unicode}.
#[local] Open Scope N_scope.

Definition charset : string := "qpzry9x8gf2tvdw0s3jn54khce6mua7l".

Definition gen : list N :=
  [0x3b6a57b2; 0x26508e6d; 0x1ea119fa; 0x3d4233dd; 0x2a1462b3].

(** Conversion to the [byte] type: the low eight bits. *)
Definition u8 (x : N) : N := N.land x 0xFF.

(** The inner loop of [ConvertBits] on one input byte [b], whose
    [remFromBits] remaining bits are its high bits. *)
Fixpoint extractBits (fuel : nat) (toBits b remFromBits nextByte filledBits : N)
  (regrouped : list N) : N * N * list N :=
  match fuel with
  | O => (nextByte, filledBits, regrouped)
  | S fuel' =>
      if remFromBits =? 0 then (nextByte, filledBits, regrouped)
      else
        let remToBits := toBits - filledBits in
        let toExtract :=
          if remToBits <? remFromBits then remToBits else remFromBits in
        let nextByte :=
          u8 (N.lor (N.shiftl nextByte toExtract) (N.shiftr b (8 - toExtract))) in
        let b := u8 (N.shiftl b toExtract) in
        let remFromBits := remFromBits - toExtract in
        let filledBits := filledBits + toExtract in
        if filledBits =? toBits
        then extractBits fuel' toBits b remFromBits 0 0 (regrouped ++ [nextByte])
        else extractBits fuel' toBits b remFromBits nextByte filledBits regrouped
  end.

(** The outer loop of [ConvertBits]. *)
Definition regroup (fromBits toBits : N) (data : list N) : N * N * list N :=
  fold_left (fun '(nextByte, filledBits, regrouped) b =>
               extractBits 8 toBits (u8 (N.shiftl b (8 - fromBits))) fromBits
                 nextByte filledBits regrouped)
            data (0, 0, []).

Definition ConvertBits (data : list N) (fromBits toBits : N) (pad : bool)
  : option (list N) :=
  if (fromBits <? 1) || (8 <? fromBits) || (toBits <? 1) || (8 <? toBits)
  then None
  else
    let '(nextByte, filledBits, regrouped) := regroup fromBits toBits data in
    let '(nextByte, filledBits, regrouped) :=
      if pad && (0 <? filledBits)
      then (0, 0, regrouped ++ [u8 (N.shiftl nextByte (toBits - filledBits))])
      else (nextByte, filledBits, regrouped) in
    if (0 <? filledBits) && ((4 <? filledBits) || negb (nextByte =? 0))
    then None
    else Some regrouped.

Definition polymodStep (chk v : N) : N :=
  let b := N.shiftr chk 25 in
  let chk := N.lxor (N.shiftl (N.land chk 0x1ffffff) 5) v in
  fold_left (fun chk '(i, g) =>
               if N.land (N.shiftr b i) 1 =? 1 then N.lxor chk g else chk)
            (zip [0; 1; 2; 3; 4] gen) chk.

Definition bech32Polymod (values : list N) : N :=
  fold_left polymodStep values 1.

Definition bech32HrpExpand (hrp : string) : list N :=
  let cs := list_ascii_of_string hrp in
  map (fun c => N.shiftr (N_of_ascii c) 5) cs ++ [0]
  ++ map (fun c => N.land (N_of_ascii c) 31) cs.

Definition bech32Checksum (hrp : string) (data : list N) : list N :=
  let values := bech32HrpExpand hrp ++ data in
  let values := values ++ [0; 0; 0; 0; 0; 0] in
  let polymod := N.lxor (bech32Polymod values) 1 in
  map (fun i => u8 (N.land (N.shiftr polymod (5 * (5 - i))) 31))
      [0; 1; 2; 3; 4; 5].

Definition bech32VerifyChecksum (hrp : string) (data : list N) : bool :=
  bech32Polymod (bech32HrpExpand hrp ++ data) =? 1.

Fixpoint toChars (data : list N) : option string :=
  match data with
  | [] => Some ""
  | b :: rest =>
      if N.of_nat (String.length charset) <=? b then None
      else match String.get (N.to_nat b) charset, toChars rest with
           | Some c, Some s => Some (String c s)
           | _, _ => None
           end
  end.

Fixpoint toBytes (chars : string) : option (list N) :=
  match chars with
  | EmptyString => Some []
  | String c rest =>
      match strings.IndexByte charset c, toBytes rest with
      | Some i, Some decoded => Some (N.of_nat i :: decoded)
      | _, _ => None
      end
  end.

(** [bech32.Encode]: the text is built on the lower-cased human readable
    part. *)
Definition Encode (hrp : string) (data : list N) : option string :=
  let hrp := strings.ToLower hrp in
  let checksum := bech32Checksum hrp data in
  let combined := data ++ checksum in
  match toChars combined with
  | None => None
  | Some dataChars => Some (hrp +:+ "1" +:+ dataChars)
  end.

Definition Decode (bech : string) (limit : nat) : option (string * list N) :=
  if ((String.length bech <? 8) || (limit <? String.length bech))%nat
  then None
  else if negb (forallb (fun c => (33 <=? N_of_ascii c) && (N_of_ascii c <=? 126))
                        (list_ascii_of_string bech))
  then None
  else
    let lower := strings.ToLower bech in
    let upper := strings.ToUpper bech in
    if negb (String.eqb bech lower) && negb (String.eqb bech upper) then None
    else
      let bech := lower in
      match strings.LastIndexByte bech "1" with
      | None => None
      | Some one =>
          if ((one <? 1) || (String.length bech <? one + 7))%nat then None
          else
            let hrp := String.substring 0 one bech in
            let data :=
              String.substring (one + 1) (String.length bech - (one + 1)) bech in
            match toBytes data with
            | None => None
            | Some decoded =>
                if negb (bech32VerifyChecksum hrp decoded) then None
                else Some (hrp, take (length decoded - 6) decoded)
            end
      end.

Definition byte_of (n : N) : byte :=
  match Byte.of_N (u8 n) with
  | Some b => b
  | None => x00
  end.

(** [bech32.ConvertAndEncode] of the SDK. *)
Definition ConvertAndEncode (hrp : string) (data : bytes)
  : string * option error :=
  match ConvertBits (map Byte.to_N data) 8 5 true with
  | None => ("", Some (ErrBech32 "encoding bech32 failed"))
  | Some converted =>
      match Encode hrp converted with
      | None => ("", Some (ErrBech32 "unable to convert data bytes to chars"))
      | Some s => (s, None)
      end
  end.

(** [bech32.DecodeAndConvert] of the SDK. *)
Definition DecodeAndConvert (bech : string) : string * bytes * option error :=
  match Decode bech 1023 with
  | None => ("", [], Some (ErrBech32 "decoding bech32 failed"))
  | Some (hrp, data) =>
      match ConvertBits data 5 8 false with
      | None => ("", [], Some (ErrBech32 "decoding bech32 failed"))
      | Some converted => (hrp, map byte_of converted, None)
      end
  end.

End WithUnicode.
End bech32.

Definition bech32_reference `{U : Unicode} : Bech32 :=
  {| ConvertAndEncode := bech32.ConvertAndEncode;
     DecodeAndConvert := bech32.DecodeAndConvert |}.

(** * Properties *)

(** ** The collaborators agree with published values *)

Example sha256_abc :
  hex.EncodeToString (sha256.Sum256 (list_byte_of_string "abc"))
  = "ba7816bf8f01cfea414140de5dae2223b00361a396177a9cb410ff61f20015ad".
Proof. vm_compute. reflexivity. Qed.

Example bech32_bip173_vector :
  bech32.Decode (U := asciiStrings)
    "abcdef1qpzry9x8gf2tvdw0s3jn54khce6mua7lmqqqxw" 1023
  = Some ("abcdef", map N.of_nat (seq 0 32)).
Proof. vm_compute. reflexivity. Qed.

Example bech32_scope_id :
  bech32.ConvertAndEncode (U := asciiStrings) "scope"
    (x00 :: map bech32.byte_of
       [0x91; 0x97; 0x8b; 0xa2; 0x5f; 0x35; 0x45; 0x9a;
        0x86; 0xa7; 0xfe; 0xca; 0x1b; 0x05; 0x12; 0xe0]%N)
  = ("scope1qzge0zaztu65tx5x5llv5xc9ztsqxlkwel", None).
Proof. vm_compute. reflexivity. Qed.

(** An upper-case human readable part gives the same text. *)
Example bech32_scope_id_upper :
  bech32.ConvertAndEncode (U := asciiStrings) "SCOPE"
    (x00 :: map bech32.byte_of
       [0x91; 0x97; 0x8b; 0xa2; 0x5f; 0x35; 0x45; 0x9a;
        0x86; 0xa7; 0xfe; 0xca; 0x1b; 0x05; 0x12; 0xe0]%N)
  = ("scope1qzge0zaztu65tx5x5llv5xc9ztsqxlkwel", None).
Proof. vm_compute. reflexivity. Qed.

(** ** Slices and the outcome monad *)

Lemma slice_in_range (bz : bytes) (lo hi : nat) :
  lo ≤ hi → hi ≤ length bz →
  slice bz lo hi = Returns (take (hi - lo) (drop lo bz)).
Proof.
  intros Hlo Hhi. unfold slice.
  apply Nat.leb_le in Hlo. apply Nat.leb_le in Hhi.
  by rewrite Hlo, Hhi.
Qed.

Lemma slice_out_of_range (bz : bytes) (lo hi : nat) :
  length bz < hi → slice bz lo hi = Panics (PanicSlice lo hi (length bz)).
Proof.
  intros Hhi. unfold slice.
  apply Nat.leb_gt in Hhi. rewrite Hhi.
  by rewrite andb_false_r.
Qed.

Lemma slice_cap_within (bz spare : bytes) (lo hi : nat) :
  lo ≤ hi → hi ≤ length bz →
  slice_cap bz spare lo hi = Returns (take (hi - lo) (drop lo bz)).
Proof.
  intros Hlo Hhi. unfold slice_cap.
  rewrite (proj2 (Nat.leb_le lo hi)) by done.
  rewrite (proj2 (Nat.leb_le hi _)) by lia. cbn [andb]. f_equal.
  rewrite drop_app_le by lia.
  rewrite take_app_le by (rewrite length_drop; lia). done.
Qed.

Lemma slice_cap_reaches (bz spare : bytes) (lo hi : nat) :
  lo ≤ hi → hi ≤ length bz + length spare →
  slice_cap bz spare lo hi = Returns (take (hi - lo) (drop lo (bz ++ spare))).
Proof.
  intros Hlo Hhi. unfold slice_cap.
  apply Nat.leb_le in Hlo. apply Nat.leb_le in Hhi.
  by rewrite Hlo, Hhi.
Qed.

Lemma slice_cap_beyond (bz spare : bytes) (lo hi : nat) :
  length bz + length spare < hi →
  slice_cap bz spare lo hi
  = Panics (PanicSlice lo hi (length bz + length spare)).
Proof.
  intros Hhi. unfold slice_cap.
  apply Nat.leb_gt in Hhi. rewrite Hhi.
  by rewrite andb_false_r.
Qed.

(** With no spare capacity the general slice expression is [slice]. *)
Lemma slice_cap_exact (bz : bytes) (lo hi : nat) :
  slice_cap bz [] lo hi = slice bz lo hi.
Proof. unfold slice_cap, slice. by rewrite app_nil_r, Nat.add_0_r. Qed.

Lemma length_take_drop (bz : bytes) (lo n : nat) :
  lo + n ≤ length bz → length (take n (drop lo bz)) = n.
Proof. intros Hn. rewrite length_take, length_drop. lia. Qed.

Lemma index_head (b : byte) (bz : bytes) : index (b :: bz) 0 = Returns b.
Proof. reflexivity. Qed.

Lemma FromBytes_size16 (p : bytes) :
  length p = 16 →
  (uuid.FromBytes p).2 = None ∧ uuid.raw (uuid.FromBytes p).1 = p.
Proof.
  intros Hp. unfold uuid.FromBytes.
  destruct (decide (length p = 16)) as [Hl | Hl]; [done | contradiction].
Qed.

Lemma UUID_eq (u v : uuid.UUID) : uuid.raw u = uuid.raw v → u = v.
Proof.
  destruct u as [ru Hu], v as [rv Hv]. simpl. intros ->.
  f_equal. apply proof_irrel.
Qed.

Lemma FromBytes_raw (u : uuid.UUID) : uuid.FromBytes (uuid.raw u) = (u, None).
Proof.
  unfold uuid.FromBytes.
  destruct (decide (length (uuid.raw u) = 16)) as [Hl | Hl].
  - f_equal. by apply UUID_eq.
  - destruct Hl. apply uuid.raw_size.
Qed.

(** ** C1: the format check *)

Section FormatProperties.
Context `{K : Keys}.

(** What [VerifyMetadataAddressFormat] returns, without slices. *)
Definition formatOf (bz : bytes) : string * option error :=
  match bz with
  | [] => ("", Some ErrAddressIsEmpty)
  | b0 :: _ =>
      match typeOfTag b0 with
      | None => ("", Some (ErrInvalidAddressType b0))
      | Some (hrp, requiredLength, _) =>
          if decide (length bz ≠ requiredLength)
          then (hrp, Some (ErrIncorrectLength requiredLength (length bz)))
          else (hrp, None)
      end
  end.

Lemma typeOfTag_cases (b : byte) (hrp : string) (n : nat) (c : bool) :
  typeOfTag b = Some (hrp, n, c) →
  (n = 17 ∧ c = false) ∨ n = 33.
Proof.
  unfold typeOfTag. intros Ht.
  repeat case_decide; simplify_eq; auto.
Qed.

Lemma VerifyMetadataAddressFormat_eq (bz : bytes) :
  VerifyMetadataAddressFormat bz = Returns (formatOf bz).
Proof.
  unfold VerifyMetadataAddressFormat, formatOf.
  destruct bz as [| b0 rest]; [done |].
  destruct (decide (length (b0 :: rest) = 0)) as [Hz | _]; [done |].
  rewrite index_head. unfold mbind, outcome_bind, mret, outcome_ret.
  destruct (typeOfTag b0) as [[[hrp n] c] |] eqn:Ht; [| done].
  destruct (decide (length (b0 :: rest) ≠ n)) as [Hn | Hn]; [done |].
  apply dec_stable in Hn.
  assert (H17 : 17 ≤ length (b0 :: rest))
    by (destruct (typeOfTag_cases _ _ _ _ Ht) as [[-> _] | ->]; lia).
  rewrite slice_in_range by lia.
  destruct (FromBytes_size16 (take (17 - 1) (drop 1 (b0 :: rest)))) as [-> _].
  { apply length_take_drop. lia. }
  destruct c; [| done].
  assert (n = 33) as -> by (destruct (typeOfTag_cases _ _ _ _ Ht) as [[_ ?] | ->]; done).
  rewrite slice_in_range by lia.
  destruct (FromBytes_size16 (take (33 - 17) (drop 17 (b0 :: rest)))) as [-> _].
  { apply length_take_drop. lia. }
  done.
Qed.

(** The layout table of the specification: the total length a tag requires,
    17 for Scope, ScopeSpecification and ContractSpecification, 33 for
    Session, Record and RecordSpecification. *)
Definition requiredLength (tag : byte) : option nat :=
  if bool_decide (tag ∈ [ScopeTag; ScopeSpecificationTag;
                         ContractSpecificationTag]) then Some 17
  else if bool_decide (tag ∈ [SessionTag; RecordTag;
                              RecordSpecificationTag]) then Some 33
  else None.

Lemma tags_pairwise_distinct :
  ScopeTag ≠ SessionTag ∧ ScopeTag ≠ RecordTag
  ∧ ScopeTag ≠ ScopeSpecificationTag ∧ ScopeTag ≠ ContractSpecificationTag
  ∧ ScopeTag ≠ RecordSpecificationTag
  ∧ SessionTag ≠ RecordTag ∧ SessionTag ≠ ScopeSpecificationTag
  ∧ SessionTag ≠ ContractSpecificationTag
  ∧ SessionTag ≠ RecordSpecificationTag
  ∧ RecordTag ≠ ScopeSpecificationTag ∧ RecordTag ≠ ContractSpecificationTag
  ∧ RecordTag ≠ RecordSpecificationTag
  ∧ ScopeSpecificationTag ≠ ContractSpecificationTag
  ∧ ScopeSpecificationTag ≠ RecordSpecificationTag
  ∧ ContractSpecificationTag ≠ RecordSpecificationTag.
Proof.
  pose proof tags_distinct as Hd.
  repeat (apply NoDup_cons in Hd; destruct Hd as [? Hd]).
  set_solver.
Qed.

Lemma requiredLength_typeOfTag (tag : byte) :
  requiredLength tag = (λ t, t.1.2) <$> typeOfTag tag.
Proof.
  pose proof tags_pairwise_distinct as Hd.
  unfold requiredLength, typeOfTag.
  repeat case_decide; subst; simpl;
    repeat case_bool_decide; try done; set_solver.
Qed.

(** C1. [VerifyMetadataAddressFormat] (and so [Validate]) succeeds exactly
    on the non-empty byte sequences whose first byte is one of the six tags
    and whose length is the one the tag requires; the UUID checks on the
    16-byte slices never fail, and the function never panics. *)
Theorem VerifyMetadataAddressFormat_succeeds_iff (bz : bytes) :
  ((∃ hrp, VerifyMetadataAddressFormat bz = Returns (hrp, None))
   ↔ 0 < length bz
     ∧ ∃ tag, bz !! 0 = Some tag ∧ requiredLength tag = Some (length bz))
  ∧ (MetadataAddress.Validate bz = Returns None
     ↔ ∃ hrp, VerifyMetadataAddressFormat bz = Returns (hrp, None))
  ∧ (∀ hrp cause,
       VerifyMetadataAddressFormat bz
         ≠ Returns (hrp, Some (ErrInvalidUUIDBytes cause))
       ∧ VerifyMetadataAddressFormat bz
         ≠ Returns (hrp, Some (ErrInvalidSecondaryUUIDBytes cause)))
  ∧ (∀ p, VerifyMetadataAddressFormat bz ≠ Panics p).
Proof.
  unfold MetadataAddress.Validate.
  rewrite VerifyMetadataAddressFormat_eq.
  assert (Hfmt : (∃ hrp, formatOf bz = (hrp, None))
                 ↔ 0 < length bz
                   ∧ ∃ tag, bz !! 0 = Some tag
                            ∧ requiredLength tag = Some (length bz)).
  { destruct bz as [| b0 rest]; simpl.
    - split; [intros [? ?]; done | intros [? _]; lia].
    - setoid_rewrite requiredLength_typeOfTag.
      destruct (typeOfTag b0) as [[[hrp n] c] |] eqn:Ht; simpl.
      + case_decide as Hn.
        * split; [intros [? ?]; done |].
          intros [_ (tag & [= <-] & Hreq)].
          rewrite Ht in Hreq. simpl in Hreq. by simplify_eq.
        * split; [| by eauto].
          intros _. split; [lia |]. exists b0. rewrite Ht. simpl.
          by rewrite Hn.
      + split; [intros [? ?]; done |].
        intros [_ (tag & [= <-] & Hreq)]. by rewrite Ht in Hreq. }
  split_and!.
  - rewrite <- Hfmt. split; intros [hrp Hh]; exists hrp; congruence.
  - destruct (formatOf bz) as [hrp err] eqn:Hf. simpl. split.
    + intros [= ->]. by exists hrp.
    + intros [hrp' [= -> ->]]. done.
  - intros hrp cause.
    destruct bz as [| b0 rest]; simpl; [by split |].
    destruct (typeOfTag b0) as [[[hrp' n] c] |]; [| by split].
    case_decide; by split.
  - done.
Qed.

End FormatProperties.

(** ** Type tests and UUID extraction *)

Section MethodProperties.
Context `{K : Keys}.

Lemma typeOfTag_inv (b : byte) (hrp : string) (n : nat) (c : bool) :
  typeOfTag b = Some (hrp, n, c) →
  (b = ScopeTag ∧ hrp = PrefixScope ∧ n = 17)
  ∨ (b = SessionTag ∧ hrp = PrefixSession ∧ n = 33)
  ∨ (b = RecordTag ∧ hrp = PrefixRecord ∧ n = 33)
  ∨ (b = ScopeSpecificationTag ∧ hrp = PrefixScopeSpecification ∧ n = 17)
  ∨ (b = ContractSpecificationTag ∧ hrp = PrefixContractSpecification ∧ n = 17)
  ∨ (b = RecordSpecificationTag ∧ hrp = PrefixRecordSpecification ∧ n = 33).
Proof.
  unfold typeOfTag. intros Ht.
  repeat case_decide; simplify_eq; naive_solver.
Qed.

Lemma formatOf_valid_inv (ma : bytes) (hrp : string) :
  formatOf ma = (hrp, None) →
  ∃ b rest n c, ma = b :: rest ∧ typeOfTag b = Some (hrp, n, c)
                ∧ length ma = n.
Proof.
  destruct ma as [| b rest]; simpl; [done |].
  destruct (typeOfTag b) as [[[hrp' n] c] |] eqn:Ht; [| done].
  case_decide as Hn; [done |].
  intros [= ->]. by exists b, rest, n, c.
Qed.

Lemma isTypeOneOf_cons (b : byte) (rest : bytes) (tags : list byte) :
  MetadataAddress.isTypeOneOf (b :: rest) ((λ t, [t]) <$> tags)
  = bool_decide (b ∈ tags).
Proof.
  unfold MetadataAddress.isTypeOneOf.
  induction tags as [| t tags IH]; [done |].
  cbn [fmap list_fmap existsb]. rewrite IH.
  destruct (decide (b = t)) as [-> | Hne].
  - rewrite (bool_decide_true (t = t)) by done. cbn [orb].
    symmetry. apply bool_decide_eq_true. set_solver.
  - rewrite (bool_decide_false (b = t)) by done. cbn [orb].
    apply bool_decide_ext. set_solver.
Qed.

Lemma isScopeFamily (b : byte) (rest : bytes) :
  MetadataAddress.isTypeOneOf (b :: rest)
    [ScopeKeyPrefix; SessionKeyPrefix; RecordKeyPrefix]
  = bool_decide (b ∈ [ScopeTag; SessionTag; RecordTag]).
Proof. apply (isTypeOneOf_cons b rest [ScopeTag; SessionTag; RecordTag]). Qed.

Lemma isContractSpecFamily (b : byte) (rest : bytes) :
  MetadataAddress.isTypeOneOf (b :: rest)
    [ContractSpecificationKeyPrefix; RecordSpecificationKeyPrefix]
  = bool_decide (b ∈ [ContractSpecificationTag; RecordSpecificationTag]).
Proof.
  apply (isTypeOneOf_cons b rest
           [ContractSpecificationTag; RecordSpecificationTag]).
Qed.

Lemma isKnownType (b : byte) (rest : bytes) :
  MetadataAddress.isTypeOneOf (b :: rest)
    [ScopeKeyPrefix; SessionKeyPrefix; RecordKeyPrefix;
     ScopeSpecificationKeyPrefix; ContractSpecificationKeyPrefix;
     RecordSpecificationKeyPrefix]
  = bool_decide (b ∈ [ScopeTag; SessionTag; RecordTag;
                      ScopeSpecificationTag; ContractSpecificationTag;
                      RecordSpecificationTag]).
Proof.
  apply (isTypeOneOf_cons b rest
           [ScopeTag; SessionTag; RecordTag; ScopeSpecificationTag;
            ContractSpecificationTag; RecordSpecificationTag]).
Qed.

Lemma isSessionType (b : byte) (rest : bytes) :
  MetadataAddress.isTypeOneOf (b :: rest) [SessionKeyPrefix]
  = bool_decide (b ∈ [SessionTag]).
Proof. apply (isTypeOneOf_cons b rest [SessionTag]). Qed.

Lemma isNameFamily (b : byte) (rest : bytes) :
  MetadataAddress.isTypeOneOf (b :: rest)
    [RecordKeyPrefix; RecordSpecificationKeyPrefix]
  = bool_decide (b ∈ [RecordTag; RecordSpecificationTag]).
Proof. apply (isTypeOneOf_cons b rest [RecordTag; RecordSpecificationTag]). Qed.

(** [PrimaryUUID] on an address of at least 17 bytes with a known tag. *)
Lemma PrimaryUUID_known (b : byte) (rest : bytes) :
  b ∈ [ScopeTag; SessionTag; RecordTag; ScopeSpecificationTag;
       ContractSpecificationTag; RecordSpecificationTag] →
  16 ≤ length rest →
  MetadataAddress.PrimaryUUID (b :: rest)
  = Returns (uuid.FromBytes (take 16 rest)).
Proof.
  intros Hb Hlen. unfold MetadataAddress.PrimaryUUID.
  rewrite isKnownType, bool_decide_true by done.
  cbn [length negb]. rewrite !(proj2 (Nat.ltb_ge _ _)) by lia.
  rewrite slice_in_range by (cbn [length]; lia).
  reflexivity.
Qed.

(** [PrimaryUUID] never panics. *)
Lemma PrimaryUUID_returns (ma : bytes) :
  ∃ r, MetadataAddress.PrimaryUUID ma = Returns r.
Proof.
  unfold MetadataAddress.PrimaryUUID.
  destruct ma as [| b rest]; [by eexists |].
  cbn [length]. rewrite (proj2 (Nat.ltb_ge _ 1)) by lia.
  destruct (negb _); [rewrite index_head; by eexists |].
  destruct (S (length rest) <? 17) eqn:Hl; [by eexists |].
  apply Nat.ltb_ge in Hl.
  rewrite slice_in_range by (cbn [length]; lia). by eexists.
Qed.

(** What [SecondaryUUID] returns, without slices. *)
Definition secondaryOf (ma : bytes) : uuid.UUID * option error :=
  match ma with
  | [] => (uuid.Nil, Some ErrAddressEmpty)
  | b :: _ =>
      if decide (b = SessionTag) then
        if length ma <? 33
        then (uuid.Nil, Some (ErrLengthAtLeast 33 (length ma)))
        else uuid.FromBytes (take 16 (drop 17 ma))
      else (uuid.Nil, Some (ErrTypeOutOfRange b))
  end.

Lemma SecondaryUUID_eq (ma : bytes) :
  MetadataAddress.SecondaryUUID ma = Returns (secondaryOf ma).
Proof.
  unfold MetadataAddress.SecondaryUUID, secondaryOf.
  destruct ma as [| b rest]; [done |].
  rewrite (proj2 (Nat.ltb_ge (length (b :: rest)) 1)) by (cbn [length]; lia).
  rewrite isSessionType.
  destruct (decide (b = SessionTag)) as [-> | Hne].
  - rewrite bool_decide_true by set_solver. cbn [negb].
    destruct (length (SessionTag :: rest) <? 33) eqn:Hl; [done |].
    apply Nat.ltb_ge in Hl. by rewrite slice_in_range by lia.
  - rewrite bool_decide_false by set_solver. cbn [negb].
    by rewrite index_head.
Qed.

(** What [NameHash] returns, without slices. *)
Definition nameHashOf (ma : bytes) : bytes * option error :=
  match ma with
  | [] => (replicate 16 x00, Some ErrAddressEmpty)
  | b :: _ =>
      if bool_decide (b ∈ [RecordTag; RecordSpecificationTag]) then
        if length ma <? 33
        then (replicate 16 x00, Some (ErrLengthAtLeast 33 (length ma)))
        else (take 16 (drop 17 ma), None)
      else (replicate 16 x00, Some (ErrTypeOutOfRange b))
  end.

Lemma copy_prefix (n : nat) (src : bytes) :
  n ≤ length src → copy (replicate n x00) src = take n src.
Proof.
  intros Hn. unfold copy. rewrite length_replicate.
  rewrite drop_ge by (rewrite length_replicate; lia).
  by rewrite app_nil_r.
Qed.

Lemma copy_all (src : bytes) : copy (replicate (length src) x00) src = src.
Proof. rewrite copy_prefix by done. apply firstn_all. Qed.

Lemma NameHash_eq (ma : bytes) :
  MetadataAddress.NameHash ma = Returns (nameHashOf ma).
Proof.
  unfold MetadataAddress.NameHash, nameHashOf.
  destruct ma as [| b rest]; [done |].
  rewrite (proj2 (Nat.ltb_ge (length (b :: rest)) 1)) by (cbn [length]; lia).
  rewrite isNameFamily.
  case_bool_decide as Hb; cbn [negb].
  - destruct (length (b :: rest) <? 33) eqn:Hl; [done |].
    apply Nat.ltb_ge in Hl. unfold slice_from.
    rewrite slice_in_range by lia.
    unfold mbind, outcome_bind, mret, outcome_ret. do 2 f_equal.
    rewrite firstn_all2 by (rewrite length_drop; lia).
    apply copy_prefix. rewrite length_drop. lia.
  - by rewrite index_head.
Qed.

(** What [ScopeUUID] and [ContractSpecUUID] return on an address of a family
    that carries the UUID. *)
Lemma ScopeUUID_family (b : byte) (rest : bytes) :
  b ∈ [ScopeTag; SessionTag; RecordTag] → 16 ≤ length rest →
  MetadataAddress.ScopeUUID (b :: rest)
  = Returns (uuid.FromBytes (take 16 rest)).
Proof.
  intros Hb Hlen. unfold MetadataAddress.ScopeUUID.
  rewrite isScopeFamily, bool_decide_true by done. cbn [negb].
  apply PrimaryUUID_known; [set_solver | done].
Qed.

Lemma ScopeUUID_other (ma : bytes) :
  MetadataAddress.isTypeOneOf ma
    [ScopeKeyPrefix; SessionKeyPrefix; RecordKeyPrefix] = false →
  MetadataAddress.ScopeUUID ma = Returns (uuid.Nil, Some (ErrNoScopeUUID ma)).
Proof. intros Hb. unfold MetadataAddress.ScopeUUID. by rewrite Hb. Qed.

Lemma ContractSpecUUID_family (b : byte) (rest : bytes) :
  b ∈ [ContractSpecificationTag; RecordSpecificationTag] →
  16 ≤ length rest →
  MetadataAddress.ContractSpecUUID (b :: rest)
  = Returns (uuid.FromBytes (take 16 rest)).
Proof.
  intros Hb Hlen. unfold MetadataAddress.ContractSpecUUID.
  rewrite isContractSpecFamily, bool_decide_true by done. cbn [negb].
  apply PrimaryUUID_known; [set_solver | done].
Qed.

Lemma ScopeUUID_returns (ma : bytes) :
  ∃ r, MetadataAddress.ScopeUUID ma = Returns r.
Proof.
  unfold MetadataAddress.ScopeUUID.
  destruct (negb _); [by eexists | apply PrimaryUUID_returns].
Qed.

Lemma ContractSpecUUID_returns (ma : bytes) :
  ∃ r, MetadataAddress.ContractSpecUUID ma = Returns r.
Proof.
  unfold MetadataAddress.ContractSpecUUID.
  destruct (negb _); [by eexists | apply PrimaryUUID_returns].
Qed.

End MethodProperties.

(** ** C5, C6: iterator prefixes *)

Section IteratorPrefixes.
Context `{K : Keys}.

Lemma valid_scope_family (ma : bytes) (hrp : string) :
  formatOf ma = (hrp, None) →
  hrp ∈ [PrefixScope; PrefixSession; PrefixRecord] →
  ∃ b rest, ma = b :: rest ∧ b ∈ [ScopeTag; SessionTag; RecordTag]
            ∧ 16 ≤ length rest.
Proof.
  intros Hf Hh.
  destruct (formatOf_valid_inv _ _ Hf) as (b & rest & n & c & -> & Ht & Hn).
  exists b, rest. split; [done |]. cbn [length] in Hn.
  destruct (typeOfTag_inv _ _ _ _ Ht)
    as [(-> & -> & ->) | [(-> & -> & ->) | [(-> & -> & ->)
       | [(-> & -> & ->) | [(-> & -> & ->) | (-> & -> & ->)]]]]];
    (split; [set_solver | lia]) || (exfalso; set_solver).
Qed.

Lemma valid_other_family (ma : bytes) (hrp : string) :
  formatOf ma = (hrp, None) →
  hrp ∉ [PrefixScope; PrefixSession; PrefixRecord] →
  ∃ b rest, ma = b :: rest ∧ b ∉ [ScopeTag; SessionTag; RecordTag].
Proof.
  intros Hf Hh. pose proof tags_pairwise_distinct as Hd.
  destruct (formatOf_valid_inv _ _ Hf) as (b & rest & n & c & -> & Ht & Hn).
  exists b, rest. split; [done |].
  destruct (typeOfTag_inv _ _ _ _ Ht)
    as [(-> & -> & ->) | [(-> & -> & ->) | [(-> & -> & ->)
       | [(-> & -> & ->) | [(-> & -> & ->) | (-> & -> & ->)]]]]];
    set_solver.
Qed.

(** C5. [ScopeSessionIteratorPrefix] of the empty address is the session tag
    alone; of a valid scope, session or record address it is the session tag
    followed by the 16 bytes of the scope UUID; of a valid address of another
    type it is the error that the address holds no scope UUID. So it is
    whatever the capacity of the address. *)
Theorem ScopeSessionIteratorPrefix_correct :
  (∀ spare,
     MetadataAddress.ScopeSessionIteratorPrefix [] spare
     = Returns ([SessionTag], None))
  ∧ (∀ ma spare hrp,
       VerifyMetadataAddressFormat ma = Returns (hrp, None) →
       hrp ∈ [PrefixScope; PrefixSession; PrefixRecord] →
       ∃ scopeUUID,
         MetadataAddress.ScopeUUID ma = Returns (scopeUUID, None)
         ∧ MetadataAddress.ScopeSessionIteratorPrefix ma spare
           = Returns (SessionTag :: uuid.raw scopeUUID, None)
         ∧ length (SessionTag :: uuid.raw scopeUUID) = 17)
  ∧ (∀ ma spare hrp,
       VerifyMetadataAddressFormat ma = Returns (hrp, None) →
       hrp ∉ [PrefixScope; PrefixSession; PrefixRecord] →
       MetadataAddress.ScopeSessionIteratorPrefix ma spare
       = Returns ([], Some ErrIterNoScopeUUID)).
Proof.
  split_and!.
  - reflexivity.
  - intros ma spare hrp Hv Hh. rewrite VerifyMetadataAddressFormat_eq in Hv.
    injection Hv as Hv.
    destruct (valid_scope_family _ _ Hv Hh) as (b & rest & -> & Hb & Hlen).
    destruct (FromBytes_size16 (take 16 rest)) as [Herr Hraw].
    { rewrite length_take. lia. }
    exists (uuid.FromBytes (take 16 rest)).1. split_and!.
    + rewrite ScopeUUID_family by done.
      destruct (uuid.FromBytes (take 16 rest)) as [u e]. simpl in *.
      by subst.
    + unfold MetadataAddress.ScopeSessionIteratorPrefix.
      rewrite isScopeFamily, bool_decide_true by done.
      cbn [length negb]. rewrite (proj2 (Nat.ltb_ge _ 1)) by lia.
      rewrite slice_cap_within by (cbn [length]; lia).
      by rewrite Hraw.
    + cbn [length]. by rewrite uuid.raw_size.
  - intros ma spare hrp Hv Hh. rewrite VerifyMetadataAddressFormat_eq in Hv.
    injection Hv as Hv.
    destruct (valid_other_family _ _ Hv Hh) as (b & rest & -> & Hb).
    unfold MetadataAddress.ScopeSessionIteratorPrefix.
    rewrite isScopeFamily, bool_decide_false by done.
    cbn [length negb]. by rewrite (proj2 (Nat.ltb_ge _ 1)) by lia.
Qed.

(** C6. The three iterator-prefix methods test the tag and then slice bytes 1
    to 17 without a test of the length, and the slice expression is checked
    against the capacity. On a non-empty address whose tag is accepted they
    panic exactly when the capacity is below 17; with a capacity of at least
    17 they return the tag of the children followed by bytes 1 to 17 of the
    backing array, also when the address is shorter than 17 bytes and some
    of these bytes are behind its end. On the empty address and on every
    address of at least 17 bytes they return, and on a non-empty address
    whose tag is not accepted they return the error. With no spare
    capacity, every accepted address of fewer than 17 bytes panics. *)
Theorem IteratorPrefix_panics_iff_capacity_below_17 :
  (∀ ma spare : bytes,
     0 < length ma →
     MetadataAddress.isTypeOneOf ma
       [ScopeKeyPrefix; SessionKeyPrefix; RecordKeyPrefix] = true →
     (length ma + length spare < 17 →
      MetadataAddress.ScopeSessionIteratorPrefix ma spare
      = Panics (PanicSlice 1 17 (length ma + length spare))
      ∧ MetadataAddress.ScopeRecordIteratorPrefix ma spare
        = Panics (PanicSlice 1 17 (length ma + length spare)))
     ∧ (17 ≤ length ma + length spare →
        MetadataAddress.ScopeSessionIteratorPrefix ma spare
        = Returns (SessionTag :: take 16 (drop 1 (ma ++ spare)), None)
        ∧ MetadataAddress.ScopeRecordIteratorPrefix ma spare
          = Returns (RecordTag :: take 16 (drop 1 (ma ++ spare)), None)
        ∧ length (take 16 (drop 1 (ma ++ spare))) = 16))
  ∧ (∀ ma spare : bytes,
       0 < length ma →
       MetadataAddress.isTypeOneOf ma
         [ContractSpecificationKeyPrefix; RecordSpecificationKeyPrefix] = true →
       (length ma + length spare < 17 →
        MetadataAddress.ContractSpecRecordSpecIteratorPrefix ma spare
        = Panics (PanicSlice 1 17 (length ma + length spare)))
       ∧ (17 ≤ length ma + length spare →
          MetadataAddress.ContractSpecRecordSpecIteratorPrefix ma spare
          = Returns (RecordSpecificationTag
                       :: take 16 (drop 1 (ma ++ spare)), None)))
  ∧ (∀ ma spare : bytes,
       length ma = 0 ∨ 17 ≤ length ma →
       (∃ r, MetadataAddress.ScopeSessionIteratorPrefix ma spare = Returns r)
       ∧ (∃ r, MetadataAddress.ScopeRecordIteratorPrefix ma spare = Returns r)
       ∧ (∃ r, MetadataAddress.ContractSpecRecordSpecIteratorPrefix ma spare
               = Returns r))
  ∧ (∀ ma spare : bytes,
       0 < length ma →
       (MetadataAddress.isTypeOneOf ma
          [ScopeKeyPrefix; SessionKeyPrefix; RecordKeyPrefix] = false →
        MetadataAddress.ScopeSessionIteratorPrefix ma spare
        = Returns ([], Some ErrIterNoScopeUUID)
        ∧ MetadataAddress.ScopeRecordIteratorPrefix ma spare
          = Returns ([], Some ErrIterNoScopeUUID))
       ∧ (MetadataAddress.isTypeOneOf ma
            [ContractSpecificationKeyPrefix; RecordSpecificationKeyPrefix]
          = false →
          MetadataAddress.ContractSpecRecordSpecIteratorPrefix ma spare
          = Returns ([], Some ErrIterNoContractSpecUUID)))
  ∧ (∀ ma : bytes,
       0 < length ma < 17 →
       (MetadataAddress.isTypeOneOf ma
          [ScopeKeyPrefix; SessionKeyPrefix; RecordKeyPrefix] = true →
        MetadataAddress.ScopeSessionIteratorPrefix ma []
        = Panics (PanicSlice 1 17 (length ma))
        ∧ MetadataAddress.ScopeRecordIteratorPrefix ma []
          = Panics (PanicSlice 1 17 (length ma)))
       ∧ (MetadataAddress.isTypeOneOf ma
            [ContractSpecificationKeyPrefix; RecordSpecificationKeyPrefix]
          = true →
          MetadataAddress.ContractSpecRecordSpecIteratorPrefix ma []
          = Panics (PanicSlice 1 17 (length ma))))
  ∧ MetadataAddress.ScopeSessionIteratorPrefix [ScopeTag; x00] []
    = Panics (PanicSlice 1 17 2).
Proof.
  assert (Hpanic : ∀ (ma spare : bytes) (opts : list bytes) (pre : bytes)
                     (e : error),
    0 < length ma → length ma + length spare < 17 →
    MetadataAddress.isTypeOneOf ma opts = true →
    (if length ma <? 1 then mret (pre, None)
     else if negb (MetadataAddress.isTypeOneOf ma opts)
          then mret ([], Some e)
          else p ← slice_cap ma spare 1 17; mret (pre ++ p, None))
    = Panics (PanicSlice 1 17 (length ma + length spare))).
  { intros ma spare opts pre e Hpos Hlt ->.
    rewrite (proj2 (Nat.ltb_ge _ 1)) by lia. cbn [negb].
    by rewrite slice_cap_beyond by lia. }
  assert (Hreach : ∀ (ma spare : bytes) (opts : list bytes) (pre : bytes)
                     (e : error),
    0 < length ma → 17 ≤ length ma + length spare →
    MetadataAddress.isTypeOneOf ma opts = true →
    (if length ma <? 1 then mret (pre, None)
     else if negb (MetadataAddress.isTypeOneOf ma opts)
          then mret ([], Some e)
          else p ← slice_cap ma spare 1 17; mret (pre ++ p, None))
    = Returns (pre ++ take 16 (drop 1 (ma ++ spare)), None)).
  { intros ma spare opts pre e Hpos Hge ->.
    rewrite (proj2 (Nat.ltb_ge _ 1)) by lia. cbn [negb].
    by rewrite slice_cap_reaches by lia. }
  assert (Hret : ∀ (ma spare : bytes) (opts : list bytes) (pre : bytes)
                   (e : error),
    length ma = 0 ∨ 17 ≤ length ma →
    ∃ r, (if length ma <? 1 then mret (pre, None)
          else if negb (MetadataAddress.isTypeOneOf ma opts)
               then mret ([], Some e)
               else p ← slice_cap ma spare 1 17; mret (pre ++ p, None))
         = Returns r).
  { intros ma spare opts pre e [Hz | Hge].
    - rewrite Hz. by eexists.
    - rewrite (proj2 (Nat.ltb_ge _ 1)) by lia.
      destruct (negb _); [by eexists |].
      rewrite slice_cap_within by lia. by eexists. }
  split_and!.
  - intros ma spare Hpos Ht. split.
    + intros Hlt. split; by apply Hpanic.
    + intros Hge. split_and!.
      * by apply (Hreach ma spare _ SessionKeyPrefix).
      * by apply (Hreach ma spare _ RecordKeyPrefix).
      * rewrite length_take, length_drop, length_app. lia.
  - intros ma spare Hpos Ht. split.
    + intros Hlt. by apply Hpanic.
    + intros Hge. by apply (Hreach ma spare _ RecordSpecificationKeyPrefix).
  - intros ma spare Hlen. split_and!; by apply Hret.
  - intros ma spare Hlen.
    unfold MetadataAddress.ScopeSessionIteratorPrefix,
      MetadataAddress.ScopeRecordIteratorPrefix,
      MetadataAddress.ContractSpecRecordSpecIteratorPrefix.
    rewrite (proj2 (Nat.ltb_ge _ 1)) by lia.
    split; intros ->; done.
  - intros ma [Hpos Hlt]. split; intros Ht.
    + pose proof (Hpanic ma [] _ SessionKeyPrefix ErrIterNoScopeUUID
                    Hpos ltac:(cbn [length]; lia) Ht) as H1.
      pose proof (Hpanic ma [] _ RecordKeyPrefix ErrIterNoScopeUUID
                    Hpos ltac:(cbn [length]; lia) Ht) as H2.
      cbn [length] in H1, H2. rewrite Nat.add_0_r in H1, H2. by split.
    + pose proof (Hpanic ma [] _ RecordSpecificationKeyPrefix
                    ErrIterNoContractSpecUUID
                    Hpos ltac:(cbn [length]; lia) Ht) as H1.
      cbn [length] in H1. by rewrite Nat.add_0_r in H1.
  - apply (Hpanic [ScopeTag; x00] []); [cbn [length]; lia.. |].
    rewrite isScopeFamily. apply bool_decide_eq_true. set_solver.
Qed.

End IteratorPrefixes.

(** C6, as it was stated, fails on the address [ScopeTag; 0] seen through a
    slice of capacity 40 (the first two bytes of a buffer of 40): the tag is
    accepted and the length is 2, yet [ScopeSessionIteratorPrefix] does not
    panic; it returns, without error, 17 bytes of which 15 come from behind
    the end of the address. *)
Lemma IteratorPrefix_short_address_returns :
  length [x00; x00] < 17
  ∧ MetadataAddress.isTypeOneOf [x00; x00]
      [ScopeKeyPrefix (K := metadataKeys); SessionKeyPrefix (K := metadataKeys);
       RecordKeyPrefix (K := metadataKeys)] = true
  ∧ MetadataAddress.ScopeSessionIteratorPrefix (K := metadataKeys)
      [x00; x00] (replicate 38 xff)
    = Returns (x01 :: x00 :: replicate 15 xff, None).
Proof.
  split_and!; [cbn [length]; lia | reflexivity | reflexivity].
Qed.

(** ** Derivation on an address of the parent type, and the other iterator
    prefixes *)

Section Derivation.
Context `{K : Keys}.

Lemma valid_with_prefix (ma : bytes) (hrp : string) :
  VerifyMetadataAddressFormat ma = Returns (hrp, None) →
  ∃ b rest n c, ma = b :: rest ∧ typeOfTag b = Some (hrp, n, c)
                ∧ S (length rest) = n.
Proof.
  rewrite VerifyMetadataAddressFormat_eq. intros [= Hf].
  destruct (formatOf_valid_inv _ _ Hf) as (b & rest & n & c & -> & Ht & Hn).
  by exists b, rest, n, c.
Qed.

(** X1. [AsScopeAddress] of a valid scope address is that address, and
    [AsContractSpecAddress] of a valid contract specification address is that
    address. *)
Theorem derivation_on_parent_type :
  (∀ ma : bytes,
     VerifyMetadataAddressFormat ma = Returns (PrefixScope, None) →
     MetadataAddress.AsScopeAddress ma = Returns (ma, None))
  ∧ (∀ ma : bytes,
       VerifyMetadataAddressFormat ma
       = Returns (PrefixContractSpecification, None) →
       MetadataAddress.AsContractSpecAddress ma = Returns (ma, None)).
Proof.
  split; intros ma Hv;
    destruct (valid_with_prefix _ _ Hv) as (b & rest & n & c & -> & Ht & Hn);
    destruct (typeOfTag_inv _ _ _ _ Ht)
      as [(-> & Hp & ->) | [(-> & Hp & ->) | [(-> & Hp & ->)
         | [(-> & Hp & ->) | [(-> & Hp & ->) | (-> & Hp & ->)]]]]];
    try discriminate Hp;
    injection Hn as Hn.
  - unfold MetadataAddress.AsScopeAddress.
    rewrite ScopeUUID_family by (set_solver || lia).
    rewrite firstn_all2 by lia.
    destruct (FromBytes_size16 rest Hn) as [He Hr].
    destruct (uuid.FromBytes rest) as [u e]. simpl in He, Hr. subst e rest.
    reflexivity.
  - unfold MetadataAddress.AsContractSpecAddress.
    rewrite ContractSpecUUID_family by (set_solver || lia).
    rewrite firstn_all2 by lia.
    destruct (FromBytes_size16 rest Hn) as [He Hr].
    destruct (uuid.FromBytes rest) as [u e]. simpl in He, Hr. subst e rest.
    reflexivity.
Qed.

(** X2. [ScopeRecordIteratorPrefix] and
    [ContractSpecRecordSpecIteratorPrefix]: the tag of the children alone on
    the empty address, the tag followed by the 16 bytes of the parent UUID on
    a valid address that carries it, whatever the capacity of the address. *)
Theorem record_iterator_prefixes :
  (∀ spare,
     MetadataAddress.ScopeRecordIteratorPrefix [] spare
     = Returns ([RecordTag], None))
  ∧ (∀ spare,
       MetadataAddress.ContractSpecRecordSpecIteratorPrefix [] spare
       = Returns ([RecordSpecificationTag], None))
  ∧ (∀ ma spare hrp,
       VerifyMetadataAddressFormat ma = Returns (hrp, None) →
       hrp ∈ [PrefixScope; PrefixSession; PrefixRecord] →
       ∃ scopeUUID,
         MetadataAddress.ScopeUUID ma = Returns (scopeUUID, None)
         ∧ MetadataAddress.ScopeRecordIteratorPrefix ma spare
           = Returns (RecordTag :: uuid.raw scopeUUID, None))
  ∧ (∀ ma spare hrp,
       VerifyMetadataAddressFormat ma = Returns (hrp, None) →
       hrp ∈ [PrefixContractSpecification; PrefixRecordSpecification] →
       ∃ contractSpecUUID,
         MetadataAddress.ContractSpecUUID ma
         = Returns (contractSpecUUID, None)
         ∧ MetadataAddress.ContractSpecRecordSpecIteratorPrefix ma spare
           = Returns (RecordSpecificationTag :: uuid.raw contractSpecUUID,
                      None)).
Proof.
  split_and!; [reflexivity | reflexivity | |].
  - intros ma spare hrp Hv Hh. rewrite VerifyMetadataAddressFormat_eq in Hv.
    injection Hv as Hv.
    destruct (valid_scope_family _ _ Hv Hh) as (b & rest & -> & Hb & Hlen).
    destruct (FromBytes_size16 (take 16 rest)) as [Herr Hraw].
    { rewrite length_take. lia. }
    exists (uuid.FromBytes (take 16 rest)).1. split.
    + rewrite ScopeUUID_family by done.
      destruct (uuid.FromBytes (take 16 rest)) as [u e]. simpl in *.
      by subst.
    + unfold MetadataAddress.ScopeRecordIteratorPrefix.
      rewrite isScopeFamily, bool_decide_true by done.
      cbn [length negb]. rewrite (proj2 (Nat.ltb_ge _ 1)) by lia.
      rewrite slice_cap_within by (cbn [length]; lia).
      by rewrite Hraw.
  - intros ma spare hrp Hv Hh. rewrite VerifyMetadataAddressFormat_eq in Hv.
    injection Hv as Hv.
    destruct (formatOf_valid_inv _ _ Hv) as (b & rest & n & c & -> & Ht & Hn).
    assert (Hb : b ∈ [ContractSpecificationTag; RecordSpecificationTag]
                 ∧ 16 ≤ length rest).
    { cbn [length] in Hn.
      destruct (typeOfTag_inv _ _ _ _ Ht)
        as [(-> & -> & ->) | [(-> & -> & ->) | [(-> & -> & ->)
           | [(-> & -> & ->) | [(-> & -> & ->) | (-> & -> & ->)]]]]];
        (split; [set_solver | lia]) || (exfalso; set_solver). }
    destruct Hb as [Hb Hlen].
    destruct (FromBytes_size16 (take 16 rest)) as [Herr Hraw].
    { rewrite length_take. lia. }
    exists (uuid.FromBytes (take 16 rest)).1. split.
    + rewrite ContractSpecUUID_family by done.
      destruct (uuid.FromBytes (take 16 rest)) as [u e]. simpl in *.
      by subst.
    + unfold MetadataAddress.ContractSpecRecordSpecIteratorPrefix.
      rewrite isContractSpecFamily, bool_decide_true by done.
      cbn [length negb]. rewrite (proj2 (Nat.ltb_ge _ 1)) by lia.
      rewrite slice_cap_within by (cbn [length]; lia).
      by rewrite Hraw.
Qed.

End Derivation.

(** ** C4, C7: names *)

Section Names.
Context `{K : Keys} `{U : Unicode} `{H : Sha256}.

Lemma valid_contract_spec_family (ma : bytes) (hrp : string) :
  formatOf ma = (hrp, None) →
  hrp ∈ [PrefixContractSpecification; PrefixRecordSpecification] →
  ∃ b rest, ma = b :: rest
            ∧ b ∈ [ContractSpecificationTag; RecordSpecificationTag]
            ∧ 16 ≤ length rest.
Proof.
  intros Hf Hh.
  destruct (formatOf_valid_inv _ _ Hf) as (b & rest & n & c & -> & Ht & Hn).
  exists b, rest. split; [done |]. cbn [length] in Hn.
  destruct (typeOfTag_inv _ _ _ _ Ht)
    as [(-> & -> & ->) | [(-> & -> & ->) | [(-> & -> & ->)
       | [(-> & -> & ->) | [(-> & -> & ->) | (-> & -> & ->)]]]]];
    (split; [set_solver | lia]) || (exfalso; set_solver).
Qed.

(** C4, as the code has it. On a valid contract specification or record
    specification address, [AsRecordSpecAddress] with the empty name does not
    return an error: it reaches the [panic] of [RecordSpecMetadataAddress].
    [AsRecordAddress] tests the name first and returns the error. *)
Theorem AsRecordSpecAddress_empty_name_panics (ma : bytes) (hrp : string) :
  VerifyMetadataAddressFormat ma = Returns (hrp, None) →
  hrp ∈ [PrefixContractSpecification; PrefixRecordSpecification] →
  MetadataAddress.AsRecordSpecAddress ma ""
  = Panics (PanicString "missing name value for record spec metadata address").
Proof.
  intros Hv Hh. rewrite VerifyMetadataAddressFormat_eq in Hv.
  injection Hv as Hv.
  destruct (valid_contract_spec_family _ _ Hv Hh)
    as (b & rest & -> & Hb & Hlen).
  unfold MetadataAddress.AsRecordSpecAddress.
  rewrite ContractSpecUUID_family by done.
  destruct (FromBytes_size16 (take 16 rest)) as [Herr _].
  { rewrite length_take. lia. }
  destruct (uuid.FromBytes (take 16 rest)) as [u e]. simpl in Herr. subst e.
  reflexivity.
Qed.

(** The sibling method returns the error for the empty name. *)
Lemma AsRecordAddress_empty_name_error (ma : bytes) (hrp : string) :
  VerifyMetadataAddressFormat ma = Returns (hrp, None) →
  hrp ∈ [PrefixScope; PrefixSession; PrefixRecord] →
  MetadataAddress.AsRecordAddress ma "" = Returns ([], Some ErrMissingRecordName).
Proof.
  intros Hv Hh. rewrite VerifyMetadataAddressFormat_eq in Hv.
  injection Hv as Hv.
  destruct (valid_scope_family _ _ Hv Hh) as (b & rest & -> & Hb & Hlen).
  unfold MetadataAddress.AsRecordAddress.
  rewrite ScopeUUID_family by done.
  destruct (FromBytes_size16 (take 16 rest)) as [Herr _].
  { rewrite length_take. lia. }
  destruct (uuid.FromBytes (take 16 rest)) as [u e]. simpl in Herr. subst e.
  reflexivity.
Qed.

(** The name as [RecordMetadataAddress] hashes it. *)
Definition normalizedName (name : string) : string :=
  strings.ToLower (strings.TrimSpace name).

Lemma RecordMetadataAddress_eq (scopeUUID : uuid.UUID) (name : string) :
  normalizedName name ≠ "" →
  RecordMetadataAddress scopeUUID name
  = Returns (RecordTag :: uuid.raw scopeUUID
             ++ take 16 (Sum256 (list_byte_of_string (normalizedName name)))).
Proof.
  intros Hn. unfold RecordMetadataAddress, normalizedName in *.
  cbn [uuid.MarshalBinary].
  destruct (strings.ToLower (strings.TrimSpace name)); [done |].
  reflexivity.
Qed.

Lemma RecordSpecMetadataAddress_eq (contractSpecUUID : uuid.UUID)
  (name : string) :
  normalizedName name ≠ "" →
  RecordSpecMetadataAddress contractSpecUUID name
  = Returns (RecordSpecificationTag :: uuid.raw contractSpecUUID
             ++ take 16 (Sum256 (list_byte_of_string (normalizedName name)))).
Proof.
  intros Hn. unfold RecordSpecMetadataAddress, normalizedName in *.
  cbn [uuid.MarshalBinary].
  destruct (strings.ToLower (strings.TrimSpace name)); [done |].
  reflexivity.
Qed.

(** C7. The name is trimmed and lower-cased before it is hashed, and the
    address holds the first 16 bytes of the SHA-256 of the result: the names
    "Foo", " foo " and "FOO" give the same record address in every scope. *)
Theorem RecordMetadataAddress_name_normalization (scopeUUID : uuid.UUID) :
  (∀ name, normalizedName name ≠ "" →
     RecordMetadataAddress scopeUUID name
     = Returns (RecordTag :: uuid.raw scopeUUID
                ++ take 16 (Sum256 (list_byte_of_string
                                      (normalizedName name)))))
  ∧ normalizedName "Foo" = "foo"
  ∧ normalizedName " foo " = "foo"
  ∧ normalizedName "FOO" = "foo"
  ∧ RecordMetadataAddress scopeUUID "Foo"
    = RecordMetadataAddress scopeUUID " foo "
  ∧ RecordMetadataAddress scopeUUID " foo "
    = RecordMetadataAddress scopeUUID "FOO"
  ∧ ∃ addr, RecordMetadataAddress scopeUUID "Foo" = Returns addr
            ∧ length addr = 33.
Proof.
  assert (H1 : normalizedName "Foo" = "foo") by reflexivity.
  assert (H2 : normalizedName " foo " = "foo") by reflexivity.
  assert (H3 : normalizedName "FOO" = "foo") by reflexivity.
  assert (E1 := RecordMetadataAddress_eq scopeUUID "Foo").
  assert (E2 := RecordMetadataAddress_eq scopeUUID " foo ").
  assert (E3 := RecordMetadataAddress_eq scopeUUID "FOO").
  rewrite H1 in E1. rewrite H2 in E2. rewrite H3 in E3.
  split_and!; [| exact H1 | exact H2 | exact H3 | | |].
  - apply RecordMetadataAddress_eq.
  - by rewrite E1, E2.
  - by rewrite E2, E3.
  - eexists. split; [by apply E1 |].
    cbn [length]. rewrite length_app, uuid.raw_size, length_take, Sum256_size.
    lia.
Qed.

End Names.

(** ** C9, C10: GetDetails *)

Section DetailsProperties.
Context `{K : Keys}.

(** The length [GetDetails] expects: 17, or 33 when the secondary UUID or
    the name hash could be read. *)
Definition expectedLength (ma : bytes) : nat :=
  if bool_decide ((secondaryOf ma).2 = None)
     || bool_decide ((nameHashOf ma).2 = None)
  then 17 + 16 else 17.

(** The prefix string [GetDetails] stores. *)
Definition detailsPrefix (ma : bytes) : string :=
  match ma with
  | [] => ""
  | b :: _ =>
      match typeOfTag b with
      | Some (hrp, _, _) => hrp
      | None => hex.EncodeToString [b]
      end
  end.

Lemma typeOfTag_hrp_nonempty (b : byte) (hrp : string) (n : nat) (c : bool) :
  typeOfTag b = Some (hrp, n, c) → String.length hrp ≠ 0.
Proof.
  intros Ht.
  destruct (typeOfTag_inv _ _ _ _ Ht)
    as [(_ & -> & _) | [(_ & -> & _) | [(_ & -> & _)
       | [(_ & -> & _) | [(_ & -> & _) | (_ & -> & _)]]]]]; done.
Qed.

(** [Prefix] returns the prefix of a known tag without an error, whatever
    the length of the address. *)
Lemma Prefix_eq (b : byte) (rest : bytes) :
  MetadataAddress.Prefix (b :: rest)
  = Returns match typeOfTag b with
            | Some (hrp, _, _) => (hrp, None)
            | None => ("", Some (ErrInvalidAddressType b))
            end.
Proof.
  unfold MetadataAddress.Prefix. rewrite VerifyMetadataAddressFormat_eq.
  unfold formatOf.
  destruct (typeOfTag b) as [[[hrp n] c] |] eqn:Ht; [| done].
  pose proof (typeOfTag_hrp_nonempty _ _ _ _ Ht) as Hne.
  unfold mbind, outcome_bind, mret, outcome_ret.
  case_decide; by case_decide.
Qed.

Lemma IsScopeAddress_returns (ma : bytes) :
  ∃ r, MetadataAddress.IsScopeAddress ma = Returns r.
Proof.
  unfold MetadataAddress.IsScopeAddress.
  rewrite VerifyMetadataAddressFormat_eq.
  destruct (formatOf ma). by eexists.
Qed.

Lemma IsContractSpecificationAddress_returns (ma : bytes) :
  ∃ r, MetadataAddress.IsContractSpecificationAddress ma = Returns r.
Proof.
  unfold MetadataAddress.IsContractSpecificationAddress.
  rewrite VerifyMetadataAddressFormat_eq.
  destruct (formatOf ma). by eexists.
Qed.

Lemma AsScopeAddress_returns (ma : bytes) :
  ∃ r, MetadataAddress.AsScopeAddress ma = Returns r.
Proof.
  unfold MetadataAddress.AsScopeAddress.
  destruct (ScopeUUID_returns ma) as [[u [e |]] ->]; by eexists.
Qed.

Lemma AsContractSpecAddress_returns (ma : bytes) :
  ∃ r, MetadataAddress.AsContractSpecAddress ma = Returns r.
Proof.
  unfold MetadataAddress.AsContractSpecAddress.
  destruct (ContractSpecUUID_returns ma) as [[u [e |]] ->]; by eexists.
Qed.

Lemma hex_EncodeToString_nil : hex.EncodeToString [] = "".
Proof. reflexivity. Qed.

Lemma base64_EncodeToString_nil : base64.EncodeToString [] = "".
Proof. reflexivity. Qed.

(** [GetDetails] returns on every input; the copy of the address, the prefix
    string and the excess fields of what it returns. *)
Lemma GetDetails_fields (ma : bytes) :
  ∃ d, MetadataAddress.GetDetails ma = Returns d
       ∧ Details.Address d = ma
       ∧ Details.Prefix d = detailsPrefix ma
       ∧ Details.AddressExcess d = drop (expectedLength ma) ma
       ∧ Details.ExcessHex d
         = hex.EncodeToString (drop (expectedLength ma) ma)
       ∧ Details.ExcessBase64 d
         = base64.EncodeToString (drop (expectedLength ma) ma).
Proof.
  unfold MetadataAddress.GetDetails. rewrite copy_all.
  (* the prefix *)
  assert (Hp : ∃ ap, (if 1 <=? length ma
                      then addressPrefix ← slice ma 0 1;
                           '(prefix, err) ← MetadataAddress.Prefix ma;
                           mret (addressPrefix,
                                 match err with
                                 | Some _ => hex.EncodeToString addressPrefix
                                 | None => prefix
                                 end)
                      else mret ([], ""))
                     = Returns (ap, detailsPrefix ma)).
  { destruct ma as [| b rest]; [by eexists |].
    cbn [length]. rewrite (proj2 (Nat.leb_le 1 _)) by lia.
    rewrite slice_in_range by (cbn [length]; lia).
    unfold mbind at 1, outcome_bind at 1. rewrite Prefix_eq.
    unfold detailsPrefix.
    destruct (typeOfTag b) as [[[hrp n] c] |]; by eexists. }
  destruct Hp as [ap ->].
  (* the primary UUID *)
  assert (Hu : ∃ r, (if 17 <=? length ma
                     then addressPrimaryUUID ← slice ma 1 17;
                          (let '(uid, _) := uuid.FromBytes addressPrimaryUUID in
                           mret (addressPrimaryUUID, uuid.String uid))
                     else mret ([], "")) = Returns r).
  { destruct (17 <=? length ma) eqn:Hl; [| by eexists].
    apply Nat.leb_le in Hl. rewrite slice_in_range by lia.
    unfold mbind, outcome_bind.
    destruct (uuid.FromBytes _). by eexists. }
  destruct Hu as [[apu pu] ->].
  rewrite SecondaryUUID_eq, NameHash_eq.
  unfold mbind at 1 2 3 4, outcome_bind at 1 2 3 4.
  fold (expectedLength ma).
  destruct (secondaryOf ma) as [su se] eqn:Hs.
  destruct (nameHashOf ma) as [nh ne] eqn:Hn.
  (* the excess *)
  assert (He : (if expectedLength ma <? length ma
                then addressExcess ← slice_from ma (expectedLength ma);
                     mret (addressExcess, hex.EncodeToString addressExcess,
                           base64.EncodeToString addressExcess)
                else mret ([], "", ""))
               = Returns (drop (expectedLength ma) ma,
                          hex.EncodeToString (drop (expectedLength ma) ma),
                          base64.EncodeToString (drop (expectedLength ma) ma))).
  { destruct (expectedLength ma <? length ma) eqn:Hl.
    - apply Nat.ltb_lt in Hl. unfold slice_from.
      rewrite slice_in_range by lia.
      unfold mbind, outcome_bind, mret, outcome_ret.
      by rewrite firstn_all2 by (rewrite length_drop; lia).
    - apply Nat.ltb_ge in Hl. by rewrite drop_ge by lia. }
  unfold expectedLength in *. rewrite Hs, Hn in *. cbn [snd] in *.
  rewrite He.
  destruct (IsScopeAddress_returns ma) as [isScope ->].
  destruct (IsContractSpecificationAddress_returns ma) as [isCS ->].
  destruct (AsScopeAddress_returns ma) as [[pa pe] ->].
  destruct (AsContractSpecAddress_returns ma) as [[ca ce] ->].
  unfold mbind, outcome_bind, mret, outcome_ret.
  destruct se, ne, isScope, isCS, pe, ce; by eexists.
Qed.

Lemma expectedLength_scope (rest : bytes) :
  expectedLength (ScopeTag :: rest) = 17.
Proof.
  pose proof tags_pairwise_distinct as Hd.
  unfold expectedLength, secondaryOf, nameHashOf.
  rewrite decide_False by naive_solver.
  rewrite (bool_decide_false (ScopeTag ∈ _)) by set_solver.
  reflexivity.
Qed.

(** C9. [GetDetails] returns on every byte sequence. On the 18 bytes made of
    the scope tag, a UUID and one more byte, which [Validate] rejects for
    their length, the excess fields hold that one byte: raw, in hex and in
    base64. *)
Theorem GetDetails_total_and_excess :
  (∀ ma : bytes, ∃ d, MetadataAddress.GetDetails ma = Returns d)
  ∧ ∀ (u : uuid.UUID) (stray : byte),
      let ma := ScopeTag :: uuid.raw u ++ [stray] in
      length ma = 18
      ∧ MetadataAddress.Validate ma
        = Returns (Some (ErrIncorrectLength 17 18))
      ∧ ∃ d, MetadataAddress.GetDetails ma = Returns d
             ∧ Details.AddressExcess d = [stray]
             ∧ Details.ExcessHex d = hex.EncodeToString [stray]
             ∧ Details.ExcessBase64 d = base64.EncodeToString [stray].
Proof.
  split.
  - intros ma. destruct (GetDetails_fields ma) as (d & Hd & _). by exists d.
  - intros u stray ma.
    assert (Hlen : length ma = 18).
    { unfold ma. cbn [length]. rewrite length_app, uuid.raw_size. done. }
    assert (Hdrop : drop (expectedLength ma) ma = [stray]).
    { unfold ma. rewrite expectedLength_scope.
      change (drop 17 (ScopeTag :: uuid.raw u ++ [stray]))
        with (drop 16 (uuid.raw u ++ [stray])).
      rewrite <- (uuid.raw_size u). apply drop_app_length. }
    split_and!; [done | |].
    + unfold MetadataAddress.Validate.
      rewrite VerifyMetadataAddressFormat_eq. unfold formatOf, ma at 1.
      unfold typeOfTag. rewrite decide_True by done.
      fold ma. rewrite Hlen. reflexivity.
    + destruct (GetDetails_fields ma) as (d & Hd & _ & _ & He & Hh & Hb).
      exists d. by rewrite He, Hh, Hb, Hdrop.
Qed.

(** C10, as the code has it. [GetDetails] takes the prefix string from
    [Prefix], which returns the prefix of a known tag without an error even
    when the length is wrong: the hex of the tag byte is stored exactly when
    the tag byte is none of the six tags. *)
Theorem GetDetails_prefix_of_tag (b : byte) (rest : bytes) :
  ∃ d, MetadataAddress.GetDetails (b :: rest) = Returns d
       ∧ (b ∉ [ScopeTag; SessionTag; RecordTag; ScopeSpecificationTag;
               ContractSpecificationTag; RecordSpecificationTag] →
          Details.Prefix d = hex.EncodeToString [b])
       ∧ (b = ScopeTag → Details.Prefix d = PrefixScope)
       ∧ (b = SessionTag → Details.Prefix d = PrefixSession)
       ∧ (b = RecordTag → Details.Prefix d = PrefixRecord)
       ∧ (b = ScopeSpecificationTag →
          Details.Prefix d = PrefixScopeSpecification)
       ∧ (b = ContractSpecificationTag →
          Details.Prefix d = PrefixContractSpecification)
       ∧ (b = RecordSpecificationTag →
          Details.Prefix d = PrefixRecordSpecification).
Proof.
  pose proof tags_pairwise_distinct as Hd.
  destruct (GetDetails_fields (b :: rest)) as (d & Hg & _ & Hp & _).
  exists d. split; [done |]. rewrite Hp. unfold detailsPrefix, typeOfTag.
  split_and!; intros Hb; repeat case_decide; subst; try done; set_solver.
Qed.

End DetailsProperties.

(** C10, as it was stated, fails on the two bytes [ScopeTag; 0]: [Validate]
    rejects them, and the prefix [GetDetails] stores is "scope", not the hex
    of the tag byte. *)
Lemma GetDetails_prefix_known_tag_wrong_length :
  MetadataAddress.Validate (K := metadataKeys) [x00; x00]
  = Returns (Some (ErrIncorrectLength 17 2))
  ∧ ∃ d, MetadataAddress.GetDetails (K := metadataKeys) [x00; x00] = Returns d
         ∧ Details.Prefix d = "scope"
         ∧ Details.Prefix d ≠ hex.EncodeToString [x00].
Proof.
  split; [reflexivity |].
  eexists. split; [vm_compute; reflexivity |]. by split.
Qed.

(** ** C8: validation of ownership links *)

Section LinkProperties.
Context `{K : Keys}.

(** The failures of the validation as the specification names them. *)
Inductive LinkFailure : Type :=
| NilEntry
| DuplicateAddress
| NotAScopeAddress
| MissingAccount.

(** The failure an error message reports. *)
Definition failureOf (e : error) : option LinkFailure :=
  match e with
  | ErrNilEntry => Some NilEntry
  | ErrDuplicateMDAddr _ => Some DuplicateAddress
  | ErrInvalidMetadataAddress _ _ _ | ErrWrongTypeID _ _ => Some NotAScopeAddress
  | ErrNoAccAddr _ => Some MissingAccount
  | _ => None
  end.

(** A valid scope address: the format check succeeds with the scope
    prefix. *)
Definition isValidScope (ma : bytes) : bool :=
  bool_decide (VerifyMetadataAddressFormat ma = Returns (PrefixScope, None)).

(** The specification of one entry, given the addresses of the entries
    before it: the first failure that applies, in the order nil entry,
    duplicate address, not a scope address, missing account. *)
Definition entryFailure (seen : list bytes) (entry : option AccMDLink)
  : option LinkFailure :=
  match entry with
  | None => Some NilEntry
  | Some link =>
      if bool_decide (MDAddr link ∈ seen) then Some DuplicateAddress
      else if negb (isValidScope (MDAddr link)) then Some NotAScopeAddress
      else if bool_decide (AccAddr link = []) then Some MissingAccount
      else None
  end.

(** The specification of the list: entries in order, stopping at the first
    failure. *)
Fixpoint linksFailure (seen : list bytes) (links : AccMDLinks)
  : option LinkFailure :=
  match links with
  | [] => None
  | entry :: rest =>
      match entryFailure seen entry with
      | Some f => Some f
      | None =>
          match entry with
          | Some link => linksFailure (MDAddr link :: seen) rest
          | None => None
          end
      end
  end.

(** The map of the loop holds 1 for the addresses seen and nothing else. *)
Definition seenInvariant (m : gmap bytes Z) (seen : list bytes) : Prop :=
  ∀ key, default 0%Z (m !! key) = if bool_decide (key ∈ seen) then 1%Z else 0%Z.

Lemma seenInvariant_empty : seenInvariant ∅ [].
Proof.
  intros key. rewrite lookup_empty.
  by rewrite bool_decide_false by set_solver.
Qed.

Lemma seenInvariant_insert (m : gmap bytes Z) (seen : list bytes)
  (key : bytes) :
  seenInvariant m seen → seenInvariant (<[key := 1%Z]> m) (key :: seen).
Proof.
  intros Hinv k. destruct (decide (key = k)) as [-> | Hne].
  - rewrite lookup_insert_eq. by rewrite bool_decide_true by set_solver.
  - rewrite lookup_insert_ne by done. rewrite Hinv.
    apply (f_equal (λ b : bool, if b then 1%Z else 0%Z)).
    apply bool_decide_ext. set_solver.
Qed.

Lemma ValidateIsScopeAddress_eq (ma : bytes) :
  ∃ r, MetadataAddress.ValidateIsScopeAddress ma = Returns r
       ∧ (r = None ↔ isValidScope ma = true)
       ∧ ∀ e, r = Some e → failureOf e = Some NotAScopeAddress.
Proof.
  unfold MetadataAddress.ValidateIsScopeAddress, VerifyMetadataAddressHasType,
    isValidScope.
  rewrite VerifyMetadataAddressFormat_eq.
  destruct (formatOf ma) as [hrp [err |]];
    unfold mbind, outcome_bind, mret, outcome_ret.
  - eexists. split_and!; [done | | by intros e [= <-]].
    rewrite bool_decide_eq_true. split; [done | by intros [= ]].
  - destruct (decide (hrp ≠ PrefixScope)) as [Hne | Heq].
    + eexists. split_and!; [done | | by intros e [= <-]].
      rewrite bool_decide_eq_true. split; [done | intros [= ]; done].
    + apply dec_stable in Heq. subst hrp.
      eexists. split_and!; [done | | done].
      by rewrite bool_decide_eq_true.
Qed.

Lemma validateLinks_spec (a : AccMDLinks) :
  ∀ (m : gmap bytes Z) (seen : list bytes),
    seenInvariant m seen →
    ∃ r, validateLinks m a = Returns r
         ∧ (r ≫= failureOf) = linksFailure seen a
         ∧ (r = None ↔ linksFailure seen a = None).
Proof.
  induction a as [| entry rest IH]; intros m seen Hinv.
  - exists None. by split_and!.
  - destruct entry as [link |]; cbn [validateLinks linksFailure entryFailure].
    2:{ exists (Some ErrNilEntry). by split_and!. }
    unfold seenSwitch. rewrite (Hinv (MDAddr link)).
    case_bool_decide as Hseen.
    + exists (Some (ErrDuplicateMDAddr (MDAddr link))). by split_and!.
    + destruct (ValidateIsScopeAddress_eq (MDAddr link))
        as (r & -> & Hvalid & Hkind).
      unfold mbind at 1, outcome_bind at 1, mret, outcome_ret.
      destruct r as [e |].
      * exists (Some e).
        assert (isValidScope (MDAddr link) = false) as ->.
        { destruct (isValidScope (MDAddr link)); [| done].
          destruct Hvalid as [_ Hv]. by specialize (Hv eq_refl). }
        cbn [negb mbind option_bind]. rewrite (Hkind e) by done.
        by split_and!.
      * rewrite (proj1 Hvalid) by done. cbn [negb].
        destruct (AccAddr link) as [| acc0 acc].
        -- exists (Some (ErrNoAccAddr (MDAddr link))). by split_and!.
        -- rewrite bool_decide_false by done.
           rewrite decide_False by done.
           apply IH. by apply seenInvariant_insert.
Qed.

(** C8. [ValidateForScopes] returns no error on the empty list; on any list
    it returns (never panics), and the error it returns is the failure of the
    first entry that has one, each entry failing with the first that applies
    of: nil entry, address already seen, address not a valid scope address,
    empty account address. *)
Theorem ValidateForScopes_spec (a : AccMDLinks) :
  ValidateForScopes [] = Returns None
  ∧ ∃ r, ValidateForScopes a = Returns r
         ∧ (r ≫= failureOf) = linksFailure [] a
         ∧ (r = None ↔ linksFailure [] a = None).
Proof.
  split; [reflexivity |].
  unfold ValidateForScopes.
  destruct (decide (length a = 0)) as [Hz | Hnz].
  - apply nil_length_inv in Hz. subst a. exists None. by split_and!.
  - apply validateLinks_spec, seenInvariant_empty.
Qed.

End LinkProperties.

(** ** The bech32 reference algorithm round-trips *)

Module bech32_facts.
Import bech32.
#[local] Open Scope N_scope.

Ltac xor_bits :=
  apply N.bits_inj; intros ?n;
  rewrite ?N.lxor_spec, ?N.bits_0;
  repeat match goal with |- context [N.testbit ?x ?n] =>
    destruct (N.testbit x n) end;
  reflexivity.

(** One generator of the step: xor [g] in when bit [i] of [b] is set. *)
Definition sel (b chk : N) (ig : N * N) : N :=
  if N.land (N.shiftr b ig.1) 1 =? 1 then N.lxor chk ig.2 else chk.

Definition genMask (b : N) : N := fold_left (sel b) (zip [0; 1; 2; 3; 4] gen) 0.

Lemma sel_testbit b chk ig :
  sel b chk ig = if N.testbit b ig.1 then N.lxor chk ig.2 else chk.
Proof.
  unfold sel. replace (N.land (N.shiftr b ig.1) 1 =? 1) with (N.testbit b ig.1); [done |].
  replace (N.testbit b ig.1) with (N.testbit (N.shiftr b ig.1) 0)
    by (rewrite N.shiftr_spec by apply N.le_0_l; f_equal; lia).
  change 1 with (N.ones 1). rewrite N.land_ones. change (2 ^ 1) with 2.
  rewrite <- N.bit0_mod. by destruct (N.testbit (N.shiftr b ig.1) 0).
Qed.

Lemma fold_sel_linear (l : list (N * N)) :
  ∀ b b' acc acc',
    fold_left (sel (N.lxor b b')) l (N.lxor acc acc')
    = N.lxor (fold_left (sel b) l acc) (fold_left (sel b') l acc').
Proof.
  induction l as [| ig l IH]; intros b b' acc acc'; [done |].
  cbn [fold_left]. rewrite <- IH. f_equal.
  rewrite !sel_testbit, N.lxor_spec.
  destruct (N.testbit b ig.1), (N.testbit b' ig.1); cbn [xorb]; xor_bits.
Qed.

Lemma polymodStep_fold chk v :
  polymodStep chk v
  = fold_left (sel (N.shiftr chk 25)) (zip [0; 1; 2; 3; 4] gen)
      (N.lxor (N.shiftl (N.land chk 0x1ffffff) 5) v).
Proof. reflexivity. Qed.

Lemma fold_sel_zero (l : list (N * N)) (acc : N) :
  fold_left (sel 0) l acc = acc.
Proof.
  revert acc. induction l as [| ig l IH]; intros acc; [done |].
  cbn [fold_left]. rewrite IH, sel_testbit. by rewrite N.bits_0.
Qed.

Lemma fold_sel_acc (l : list (N * N)) (b acc : N) :
  fold_left (sel b) l acc = N.lxor (fold_left (sel b) l 0) acc.
Proof.
  rewrite <- (N.lxor_0_r b) at 1. rewrite <- (N.lxor_0_l acc) at 1.
  by rewrite fold_sel_linear, fold_sel_zero.
Qed.

Lemma polymodStep_eq chk v :
  polymodStep chk v
  = N.lxor (N.lxor (N.shiftl (N.land chk 0x1ffffff) 5)
                   (genMask (N.shiftr chk 25))) v.
Proof.
  rewrite polymodStep_fold, fold_sel_acc. unfold genMask. xor_bits.
Qed.

Lemma genMask_linear b b' :
  genMask (N.lxor b b') = N.lxor (genMask b) (genMask b').
Proof.
  unfold genMask. rewrite <- fold_sel_linear. by rewrite N.lxor_0_l.
Qed.

Lemma land_lxor_l (a b m : N) :
  N.land (N.lxor a b) m = N.lxor (N.land a m) (N.land b m).
Proof.
  apply N.bits_inj. intros n.
  rewrite N.lxor_spec, !N.land_spec, N.lxor_spec.
  by destruct (N.testbit a n), (N.testbit b n), (N.testbit m n).
Qed.

(** The step is linear for xor, jointly in the state and the value. *)
Lemma polymodStep_linear c c' v v' :
  polymodStep (N.lxor c c') (N.lxor v v')
  = N.lxor (polymodStep c v) (polymodStep c' v').
Proof.
  rewrite !polymodStep_eq.
  rewrite N.shiftr_lxor, genMask_linear, land_lxor_l, N.shiftl_lxor.
  xor_bits.
Qed.

(** ** Bounds by powers of two *)

Lemma lt_pow2_shiftr (a n : N) : a < 2 ^ n ↔ N.shiftr a n = 0.
Proof.
  rewrite N.shiftr_div_pow2. symmetry.
  apply N.div_small_iff. apply N.pow_nonzero. lia.
Qed.

Lemma lxor_lt_pow2 (a b n : N) : a < 2 ^ n → b < 2 ^ n → N.lxor a b < 2 ^ n.
Proof.
  rewrite !lt_pow2_shiftr, N.shiftr_lxor. by intros -> ->.
Qed.

Lemma land_ones_small (a n : N) : a < 2 ^ n → N.land a (N.ones n) = a.
Proof. intros Ha. rewrite N.land_ones. by apply N.mod_small. Qed.

Lemma lxor_shifted_add (a v k : N) :
  v < 2 ^ k → N.lxor (N.shiftl a k) v = a * 2 ^ k + v.
Proof.
  intros Hv. rewrite <- N.shiftl_mul_pow2. symmetry.
  apply N.add_nocarry_lxor. apply N.bits_inj_0. intros n.
  rewrite N.land_spec. destruct (N.lt_ge_cases n k) as [Hn | Hn].
  - by rewrite N.shiftl_spec_low.
  - apply lt_pow2_shiftr in Hv.
    assert (Hb : N.testbit v n = false).
    { replace n with ((n - k) + k) by lia.
      rewrite <- N.shiftr_spec by apply N.le_0_l.
      rewrite Hv. apply N.bits_0. }
    rewrite Hb. apply andb_false_r.
Qed.

Lemma u8_small (x : N) : x < 256 → u8 x = x.
Proof. intros Hx. unfold u8. by apply (land_ones_small x 8). Qed.

(** ** The checksum *)

Definition polymodFrom (c : N) (values : list N) : N :=
  fold_left polymodStep values c.

Lemma polymodFrom_app (c : N) (vs ws : list N) :
  polymodFrom c (vs ++ ws) = polymodFrom (polymodFrom c vs) ws.
Proof. apply fold_left_app. Qed.

Lemma polymodFrom_linear (vs : list N) :
  ∀ ws c d, length vs = length ws →
    polymodFrom (N.lxor c d) (zip_with N.lxor vs ws)
    = N.lxor (polymodFrom c vs) (polymodFrom d ws).
Proof.
  induction vs as [| v vs IH]; intros [| w ws] c d Hlen;
    try discriminate; [done |].
  cbn [zip_with polymodFrom fold_left].
  rewrite polymodStep_linear. apply IH. by injection Hlen.
Qed.

Lemma genMask_lt (b : N) : genMask b < 2 ^ 30.
Proof.
  unfold genMask.
  assert (Hg : Forall (λ ig : N * N, ig.2 < 2 ^ 30) (zip [0; 1; 2; 3; 4] gen)).
  { repeat constructor. }
  assert (H0 : 0 < 2 ^ 30) by done.
  revert H0. generalize 0 at 1 3 as acc.
  induction Hg as [| ig l Hig Hl IH]; intros acc Hacc; [done |].
  cbn [fold_left]. apply IH. rewrite sel_testbit.
  destruct (N.testbit b ig.1); [by apply lxor_lt_pow2 | done].
Qed.

Lemma polymodStep_lt (c v : N) : v < 2 ^ 30 → polymodStep c v < 2 ^ 30.
Proof.
  intros Hv. rewrite polymodStep_eq.
  repeat apply lxor_lt_pow2; [| apply genMask_lt | done].
  rewrite N.shiftl_mul_pow2.
  assert (N.land c 33554431 < 2 ^ 25).
  { change 33554431 with (N.ones 25). rewrite N.land_ones.
    apply N.mod_lt. done. }
  change (2 ^ 30) with (2 ^ 25 * 2 ^ 5). apply N.mul_lt_mono_pos_r; done.
Qed.

Lemma polymodFrom_lt (vs : list N) (c : N) :
  c < 2 ^ 30 → Forall (λ v, v < 2 ^ 30) vs → polymodFrom c vs < 2 ^ 30.
Proof.
  intros Hc Hvs. revert c Hc.
  induction Hvs as [| v vs Hv Hvs IH]; intros c Hc; [done |].
  cbn [polymodFrom fold_left]. apply IH. by apply polymodStep_lt.
Qed.

Lemma polymodStep_small (c v : N) :
  c < 2 ^ 25 → v < 2 ^ 5 → polymodStep c v = c * 32 + v.
Proof.
  intros Hc Hv. rewrite polymodStep_eq.
  change 33554431 with (N.ones 25). rewrite land_ones_small by done.
  apply lt_pow2_shiftr in Hc. rewrite Hc.
  change (genMask 0) with 0. rewrite N.lxor_0_r.
  by rewrite lxor_shifted_add by done.
Qed.

(** The six 5-bit digits of a 30-bit number, as [bech32Checksum] cuts
    them, fold back to the number. *)
Lemma polymodFrom_digits (x : N) :
  x < 2 ^ 30 →
  polymodFrom 0
    (map (fun i => u8 (N.land (N.shiftr x (5 * (5 - i))) 31)) [0; 1; 2; 3; 4; 5])
  = x.
Proof.
  intros Hx.
  assert (Hd : ∀ s, u8 (N.land (N.shiftr x s) 31) = (x / 2 ^ s) mod 32).
  { intros s. change 31 with (N.ones 5).
    rewrite N.land_ones, N.shiftr_div_pow2. change (2 ^ 5) with 32.
    apply u8_small. apply N.lt_trans with 32; [by apply N.mod_lt | done]. }
  cbn [map]. rewrite !Hd.
  change (5 * (5 - 0)) with 25. change (5 * (5 - 1)) with 20.
  change (5 * (5 - 2)) with 15. change (5 * (5 - 3)) with 10.
  change (5 * (5 - 4)) with 5. change (5 * (5 - 5)) with 0.
  assert (Hstep : ∀ s, s + 5 <= 30 →
            polymodStep (x / 2 ^ (s + 5)) ((x / 2 ^ s) mod 32) = x / 2 ^ s).
  { intros s Hs. rewrite polymodStep_small.
    - rewrite N.pow_add_r, <- N.Div0.div_div.
      change (2 ^ 5) with 32. symmetry. rewrite N.mul_comm.
      apply N.div_mod. lia.
    - apply N.Div0.div_lt_upper_bound.
      rewrite <- N.pow_add_r.
      eapply N.lt_le_trans; [exact Hx |].
      apply N.pow_le_mono_r; lia.
    - apply N.mod_lt. done. }
  cbn [polymodFrom fold_left].
  replace 0 with (x / 2 ^ (25 + 5)) at 1
    by (apply N.div_small; done).
  rewrite (Hstep 25) by lia. change 25 with (20 + 5) at 1.
  rewrite (Hstep 20) by lia. change 20 with (15 + 5) at 1.
  rewrite (Hstep 15) by lia. change 15 with (10 + 5) at 1.
  rewrite (Hstep 10) by lia. change 10 with (5 + 5) at 1.
  rewrite (Hstep 5) by lia. change 5 with (0 + 5) at 1.
  rewrite (Hstep 0) by lia. apply N.div_1_r.
Qed.

Lemma bech32Polymod_eq (values : list N) :
  bech32Polymod values = polymodFrom 1 values.
Proof. reflexivity. Qed.

Lemma bech32Checksum_eq (hrp : string) (data : list N) :
  bech32Checksum hrp data
  = map (fun i =>
           u8 (N.land
                 (N.shiftr
                    (N.lxor (polymodFrom
                               (polymodFrom 1 (bech32HrpExpand hrp ++ data))
                               [0; 0; 0; 0; 0; 0]) 1)
                    (5 * (5 - i))) 31))
        [0; 1; 2; 3; 4; 5].
Proof.
  unfold bech32Checksum. cbv zeta.
  by rewrite bech32Polymod_eq, polymodFrom_app.
Qed.

Lemma bech32HrpExpand_lt (hrp : string) :
  Forall (λ v, v < 2 ^ 30) (bech32HrpExpand hrp).
Proof.
  unfold bech32HrpExpand. rewrite !Forall_app. split_and!.
  - apply Forall_map, Forall_forall. intros ch _. simpl.
    rewrite N.shiftr_div_pow2.
    apply N.Div0.div_lt_upper_bound.
    pose proof (N_ascii_bounded ch). lia.
  - repeat constructor.
  - apply Forall_map, Forall_forall. intros ch _. simpl.
    change 31 with (N.ones 5). rewrite N.land_ones.
    apply N.lt_trans with (2 ^ 5); [by apply N.mod_lt | done].
Qed.

Lemma zip_lxor_zeros (ks : list N) :
  zip_with N.lxor (map (λ _, 0) ks) ks = ks.
Proof.
  induction ks as [| k ks IH]; [done |].
  cbn [map zip_with]. by rewrite IH, N.lxor_0_l.
Qed.

(** The checksum of [bech32Checksum] makes [bech32VerifyChecksum] hold. *)
Lemma bech32VerifyChecksum_checksum (hrp : string) (data : list N) :
  Forall (λ v, v < 2 ^ 30) data →
  bech32VerifyChecksum hrp (data ++ bech32Checksum hrp data) = true.
Proof.
  intros Hdata. unfold bech32VerifyChecksum. apply N.eqb_eq.
  rewrite bech32Checksum_eq, bech32Polymod_eq, app_assoc, polymodFrom_app.
  set (c := polymodFrom 1 (bech32HrpExpand hrp ++ data)).
  set (x := N.lxor (polymodFrom c [0; 0; 0; 0; 0; 0]) 1).
  assert (Hx : x < 2 ^ 30).
  { unfold x. apply lxor_lt_pow2; [| done].
    apply polymodFrom_lt; [| repeat constructor].
    unfold c. apply polymodFrom_lt; [done |].
    apply Forall_app. split; [apply bech32HrpExpand_lt | done]. }
  rewrite <- (zip_lxor_zeros (map _ _)), <- (N.lxor_0_r c).
  rewrite polymodFrom_linear by (by rewrite length_map).
  rewrite (polymodFrom_digits x Hx). cbn [map]. fold x.
  unfold x. xor_bits.
Qed.

(** ** Regrouping bits *)

(** The number a list of [w]-bit groups writes, most significant first. *)
Definition val (w : N) (l : list N) : N :=
  fold_left (fun acc x => acc * 2 ^ w + x) l 0.

Lemma val_snoc (w : N) (l : list N) (x : N) :
  val w (l ++ [x]) = val w l * 2 ^ w + x.
Proof. unfold val. by rewrite fold_left_app. Qed.

Lemma val_app (w : N) (l k : list N) :
  val w (l ++ k) = val w l * 2 ^ (w * N.of_nat (length k)) + val w k.
Proof.
  induction k as [| x k IH] using rev_ind.
  - rewrite app_nil_r. cbn [length]. change (val w []) with 0.
    rewrite N.mul_0_r. change (2 ^ 0) with 1. lia.
  - rewrite app_assoc, !val_snoc, IH, length_app. cbn [length].
    replace (w * N.of_nat (length k + 1)%nat)
      with (w * N.of_nat (length k) + w) by lia.
    rewrite N.pow_add_r. ring.
Qed.

Lemma val_cons (w : N) (x : N) (l : list N) :
  val w (x :: l) = x * 2 ^ (w * N.of_nat (length l)) + val w l.
Proof.
  change (x :: l) with ([x] ++ l). rewrite val_app.
  replace (val w [x]) with x; [done |].
  unfold val. cbn [fold_left]. lia.
Qed.

Lemma lor_shifted_add (a v k : N) :
  v < 2 ^ k → N.lor (N.shiftl a k) v = a * 2 ^ k + v.
Proof.
  intros Hv. rewrite <- lxor_shifted_add by done.
  symmetry. apply N.lxor_lor. apply N.bits_inj_0. intros n.
  rewrite N.land_spec. destruct (N.lt_ge_cases n k) as [Hn | Hn].
  - by rewrite N.shiftl_spec_low.
  - apply lt_pow2_shiftr in Hv.
    assert (Hb : N.testbit v n = false).
    { replace n with ((n - k) + k) by lia.
      rewrite <- N.shiftr_spec by apply N.le_0_l.
      rewrite Hv. apply N.bits_0. }
    rewrite Hb. apply andb_false_r.
Qed.

Lemma pow2_pos (n : N) : 0 < 2 ^ n.
Proof. apply N.neq_0_lt_0, N.pow_nonzero. lia. Qed.

Lemma cat_lt (a b n m : N) : a < 2 ^ n → b < 2 ^ m → a * 2 ^ m + b < 2 ^ (n + m).
Proof.
  intros Ha Hb. rewrite N.pow_add_r.
  pose proof (pow2_pos m). nia.
Qed.

(** The high [e] bits of a chunk of [r] bits held at the top of a byte. *)
Lemma chunk_high (c r e : N) :
  e <= r → r <= 8 → N.shiftr (c * 2 ^ (8 - r)) (8 - e) = c / 2 ^ (r - e).
Proof.
  intros He Hr. rewrite N.shiftr_div_pow2.
  replace (8 - e) with ((r - e) + (8 - r)) by lia.
  rewrite N.pow_add_r.
  apply N.Div0.div_mul_cancel_r. apply N.pow_nonzero. lia.
Qed.

(** The chunk that stays after its high [e] bits are taken. *)
Lemma chunk_low (c r e : N) :
  1 <= e → e <= r → r <= 8 →
  u8 (N.shiftl (c * 2 ^ (8 - r)) e) = (c mod 2 ^ (r - e)) * 2 ^ (8 - (r - e)).
Proof.
  intros H1 He Hr. unfold u8. change 255 with (N.ones 8).
  rewrite N.land_ones, N.shiftl_mul_pow2, <- N.mul_assoc, <- N.pow_add_r.
  replace (8 - r + e) with (8 - (r - e)) by lia.
  replace 8 with ((r - e) + (8 - (r - e))) at 2 by lia.
  rewrite N.pow_add_r. apply N.Div0.mul_mod_distr_r.
Qed.

(** What [extractBits] leaves: the groups it adds and the bits of the
    unfinished group, as one number. *)
Definition extracted (t : N) (st : N * N * list N) (regrouped : list N)
  (bits value : N) : Prop :=
  let '(nextByte, filledBits, regrouped') := st in
  ∃ extra, regrouped' = regrouped ++ extra
           ∧ Forall (λ x, x < 2 ^ t) extra
           ∧ filledBits < t
           ∧ nextByte < 2 ^ filledBits
           ∧ t * N.of_nat (length extra) + filledBits = bits
           ∧ val t extra * 2 ^ filledBits + nextByte = value.

Lemma extractBits_spec (fuel : nat) :
  ∀ t c r nextByte filledBits regrouped,
    1 <= t → t <= 8 → r <= 8 → (N.to_nat r ≤ fuel)%nat →
    c < 2 ^ r → filledBits < t → nextByte < 2 ^ filledBits →
    extracted t
      (extractBits fuel t (c * 2 ^ (8 - r)) r nextByte filledBits regrouped)
      regrouped (filledBits + r) (nextByte * 2 ^ r + c).
Proof.
  induction fuel as [| fuel IH];
    intros t c r nextByte filledBits regrouped Ht1 Ht8 Hr8 Hfuel Hc Hf Hn.
  - assert (r = 0) as -> by lia. change (2 ^ 0) with 1 in *.
    cbn [extractBits]. exists []. rewrite app_nil_r.
    split_and!; try done; [cbn [length]; lia |].
    change (val t []) with 0. lia.
  - cbn [extractBits]. destruct (N.eqb_spec r 0) as [-> | Hr0].
    { change (2 ^ 0) with 1 in *. exists []. rewrite app_nil_r.
      split_and!; try done; [cbn [length]; lia |].
      change (val t []) with 0. lia. }
    set (e := if t - filledBits <? r then t - filledBits else r).
    assert (He : 1 <= e ∧ e <= r ∧ e <= t - filledBits).
    { unfold e. destruct (N.ltb_spec (t - filledBits) r); lia. }
    destruct He as (He1 & Her & Het).
    set (hi := c / 2 ^ (r - e)). set (lo := c mod 2 ^ (r - e)).
    assert (Hc_split : c = hi * 2 ^ (r - e) + lo).
    { unfold hi, lo. rewrite N.mul_comm. apply N.div_mod.
      apply N.pow_nonzero. lia. }
    assert (Hlo : lo < 2 ^ (r - e)).
    { unfold lo. apply N.mod_lt, N.pow_nonzero. lia. }
    assert (Hhi : hi < 2 ^ e).
    { unfold hi. apply N.Div0.div_lt_upper_bound.
      rewrite <- N.pow_add_r. by replace (r - e + e) with r by lia. }
    rewrite chunk_high by lia. fold hi.
    rewrite lor_shifted_add by done.
    assert (Hnext : nextByte * 2 ^ e + hi < 2 ^ (filledBits + e))
      by (by apply cat_lt).
    rewrite (u8_small (nextByte * 2 ^ e + hi)).
    2:{ eapply N.lt_le_trans; [exact Hnext |].
        change 256 with (2 ^ 8). apply N.pow_le_mono_r; lia. }
    rewrite chunk_low by lia. fold lo.
    assert (Hvalue : nextByte * 2 ^ r + c
                     = (nextByte * 2 ^ e + hi) * 2 ^ (r - e) + lo).
    { rewrite Hc_split at 1. replace r with (e + (r - e)) at 1 by lia.
      rewrite N.pow_add_r. ring. }
    destruct (N.eqb_spec (filledBits + e) t) as [Hfull | Hpart].
    + assert (Hx := IH t lo (r - e) 0 0
                        (regrouped ++ [nextByte * 2 ^ e + hi])).
      destruct (extractBits fuel t _ (r - e) 0 0 _) as [[nb fb] rg].
      destruct Hx as (extra & Hre & Hex & Hf' & Hn' & Hbits & Hval);
        try done; try lia.
      exists ((nextByte * 2 ^ e + hi) :: extra).
      split_and!; try done.
      * by rewrite Hre, <- app_assoc.
      * constructor; [by rewrite <- Hfull | done].
      * cbn [length]. lia.
      * rewrite val_cons, Hvalue.
        replace (r - e) with (t * N.of_nat (length extra) + fb) by lia.
        rewrite (N.pow_add_r 2 (t * N.of_nat (length extra)) fb).
        rewrite N.mul_0_l, N.add_0_l in Hval. rewrite <- Hval. ring.
    + assert (Hx := IH t lo (r - e) (nextByte * 2 ^ e + hi) (filledBits + e)
                        regrouped).
      destruct (extractBits fuel t _ (r - e) _ _ _) as [[nb fb] rg].
      destruct Hx as (extra & Hre & Hex & Hf' & Hn' & Hbits & Hval);
        try done; try lia.
      exists extra. split_and!; try done; [lia |].
      by rewrite Hvalue.
Qed.

Lemma regroup_snoc (f t : N) (data : list N) (b : N) :
  regroup f t (data ++ [b])
  = let '(nextByte, filledBits, regrouped) := regroup f t data in
    extractBits 8 t (u8 (N.shiftl b (8 - f))) f nextByte filledBits regrouped.
Proof.
  unfold regroup. rewrite fold_left_app. cbn [fold_left].
  by destruct (fold_left _ data _) as [[nextByte filledBits] regrouped].
Qed.

Lemma regroup_spec (f t : N) (data : list N) :
  1 <= f → f <= 8 → 1 <= t → t <= 8 →
  Forall (λ b, b < 2 ^ f) data →
  extracted t (regroup f t data) []
    (f * N.of_nat (length data)) (val f data).
Proof.
  intros Hf1 Hf8 Ht1 Ht8.
  induction data as [| b data IH] using rev_ind; intros Hdata.
  - exists []. split_and!; try done; simpl; lia.
  - apply Forall_app in Hdata as [Hdata Hb].
    rewrite Forall_singleton in Hb. specialize (IH Hdata).
    rewrite regroup_snoc.
    destruct (regroup f t data) as [[nextByte filledBits] regrouped].
    destruct IH as (extra & Hre & Hex & Hfl & Hn & Hbits & Hval).
    rewrite app_nil_l in Hre. subst extra.
    assert (Hb8 : b * 2 ^ (8 - f) < 256).
    { replace 256 with (2 ^ f * 2 ^ (8 - f))
        by (rewrite <- N.pow_add_r; by replace (f + (8 - f)) with 8 by lia).
      apply N.mul_lt_mono_pos_r; [apply pow2_pos | done]. }
    rewrite N.shiftl_mul_pow2, u8_small by done.
    assert (Hx := extractBits_spec 8 t b f nextByte filledBits regrouped).
    destruct (extractBits 8 t _ f nextByte filledBits regrouped)
      as [[nb fb] rg].
    destruct Hx as (extra & Hre & Hex' & Hfl' & Hn' & Hbits' & Hval');
      try done; try lia.
    exists rg. rewrite Hre. split_and!; try done.
    + by apply Forall_app.
    + rewrite !length_app. cbn [length]. lia.
    + rewrite val_app, val_snoc, <- Hval.
      assert (Hpow : 2 ^ (t * N.of_nat (length extra)) * 2 ^ fb
                     = 2 ^ filledBits * 2 ^ f)
        by (by rewrite <- !N.pow_add_r, Hbits').
      transitivity (val t regrouped
                    * (2 ^ (t * N.of_nat (length extra)) * 2 ^ fb)
                    + (val t extra * 2 ^ fb + nb)); [ring |].
      rewrite Hpow, Hval'. ring.
Qed.

Lemma val_lt (w : N) (l : list N) :
  Forall (λ x, x < 2 ^ w) l → val w l < 2 ^ (w * N.of_nat (length l)).
Proof.
  induction 1 as [| x l Hx Hl IH].
  - change (val w []) with 0. apply pow2_pos.
  - rewrite val_cons. cbn [length].
    replace (w * N.of_nat (S (length l)))
      with (w + w * N.of_nat (length l)) by lia.
    by apply cat_lt.
Qed.

Lemma cat_inj (a b x y p : N) :
  x < p → y < p → a * p + x = b * p + y → a = b ∧ x = y.
Proof.
  intros Hx Hy Heq. apply (N.div_mod_unique p); [done | done |].
  by rewrite !(N.mul_comm p).
Qed.

Lemma val_inj (w : N) (l : list N) :
  ∀ k, length l = length k →
    Forall (λ x, x < 2 ^ w) l → Forall (λ x, x < 2 ^ w) k →
    val w l = val w k → l = k.
Proof.
  induction l as [| x l IH]; intros [| y k] Hlen Hl Hk Hval;
    try discriminate; [done |].
  injection Hlen as Hlen.
  apply Forall_cons in Hl as [Hx Hl]. apply Forall_cons in Hk as [Hy Hk].
  rewrite !val_cons, <- Hlen in Hval.
  apply cat_inj in Hval as [-> Hval].
  - f_equal. by apply IH.
  - by apply val_lt.
  - rewrite Hlen. by apply val_lt.
Qed.

(** [ConvertBits] from bytes to 5-bit groups, padded: the groups write the
    number of the bytes followed by [p] zero bits. *)
Lemma ConvertBits_8_5 (data : list N) :
  Forall (λ b, b < 2 ^ 8) data →
  ∃ out p, ConvertBits data 8 5 true = Some out
           ∧ Forall (λ x, x < 2 ^ 5) out
           ∧ p < 5
           ∧ 5 * N.of_nat (length out) = 8 * N.of_nat (length data) + p
           ∧ val 5 out = val 8 data * 2 ^ p.
Proof.
  intros Hdata. unfold ConvertBits.
  change ((8 <? 1) || (8 <? 8) || (5 <? 1) || (8 <? 5)) with false.
  cbv iota.
  assert (Hx := regroup_spec 8 5 data).
  destruct (regroup 8 5 data) as [[nextByte filledBits] regrouped].
  destruct Hx as (extra & Hre & Hex & Hfl & Hn & Hbits & Hval);
    try done.
  rewrite app_nil_l in Hre. subst extra. cbn [andb].
  destruct (N.ltb_spec 0 filledBits) as [Hpos | Hzero].
  - cbn [N.ltb N.compare andb].
    exists (regrouped ++ [u8 (N.shiftl nextByte (5 - filledBits))]),
           (5 - filledBits).
    assert (Hlast : nextByte * 2 ^ (5 - filledBits) < 2 ^ 5).
    { replace (2 ^ 5) with (2 ^ filledBits * 2 ^ (5 - filledBits))
        by (rewrite <- N.pow_add_r;
            by replace (filledBits + (5 - filledBits)) with 5 by lia).
      apply N.mul_lt_mono_pos_r; [apply pow2_pos | done]. }
    rewrite N.shiftl_mul_pow2, u8_small
      by (eapply N.lt_trans; [exact Hlast | done]).
    split_and!; try done.
    + apply Forall_app. split; [done |]. by rewrite Forall_singleton.
    + lia.
    + rewrite length_app. cbn [length]. lia.
    + rewrite val_snoc, <- Hval.
      replace (2 ^ 5) with (2 ^ filledBits * 2 ^ (5 - filledBits))
        by (rewrite <- N.pow_add_r;
            by replace (filledBits + (5 - filledBits)) with 5 by lia).
      ring.
  - assert (filledBits = 0) as -> by lia.
    assert (nextByte = 0) as -> by (change (2 ^ 0) with 1 in Hn; lia).
    cbn [N.ltb N.compare andb].
    exists regrouped, 0. split_and!; try done; [lia |].
    rewrite <- Hval. change (2 ^ 0) with 1. lia.
Qed.

(** [ConvertBits] back from 5-bit groups to bytes, unpadded. *)
Lemma ConvertBits_5_8 (data out : list N) (p : N) :
  Forall (λ b, b < 2 ^ 8) data →
  Forall (λ x, x < 2 ^ 5) out →
  p < 5 →
  5 * N.of_nat (length out) = 8 * N.of_nat (length data) + p →
  val 5 out = val 8 data * 2 ^ p →
  ConvertBits out 5 8 false = Some data.
Proof.
  intros Hdata Hout Hp Hlen Hvalue. unfold ConvertBits.
  change ((5 <? 1) || (8 <? 5) || (8 <? 1) || (8 <? 8)) with false.
  cbv iota. cbn [andb].
  assert (Hx := regroup_spec 5 8 out).
  destruct (regroup 5 8 out) as [[nextByte filledBits] regrouped].
  destruct Hx as (extra & Hre & Hex & Hfl & Hn & Hbits & Hval);
    try done.
  rewrite app_nil_l in Hre. subst extra.
  assert (filledBits = p) as -> by lia.
  assert (Hl : length regrouped = length data) by lia.
  rewrite Hvalue in Hval.
  assert (Hv := cat_inj (val 8 regrouped) (val 8 data) nextByte 0 (2 ^ p)).
  destruct Hv as [Hv ->]; [done | apply pow2_pos | lia |].
  rewrite (val_inj 8 regrouped data) by done.
  destruct (N.ltb_spec 0 p); [| done].
  destruct (N.ltb_spec 4 p); [lia | done].
Qed.

(** Bits regrouped to 5-bit groups and back are the bytes. *)
Lemma ConvertBits_roundtrip (data : list N) :
  Forall (λ b, b < 2 ^ 8) data →
  ∃ out, ConvertBits data 8 5 true = Some out
         ∧ Forall (λ x, x < 2 ^ 5) out
         ∧ 5 * N.of_nat (length out) < 8 * N.of_nat (length data) + 5
         ∧ ConvertBits out 5 8 false = Some data.
Proof.
  intros Hdata.
  destruct (ConvertBits_8_5 data Hdata)
    as (out & p & Henc & Hout & Hp & Hlen & Hval).
  exists out. split_and!; [done | done | lia |].
  by apply (ConvertBits_5_8 data out p).
Qed.

(** ** The text *)

#[local] Close Scope N_scope.

(** A character of the data part: a character of the charset, which is an
    ASCII character between 33 and 126, not upper case and not the
    separator. *)
Definition textChar (c : ascii) : bool :=
  (nat_of_ascii c <? strings.RuneSelf)
  && negb (strings.asciiSpace c)
  && negb (strings.isUpper c)
  && (33 <=? N_of_ascii c)%N && (N_of_ascii c <=? 126)%N.

Definition dataChar (c : ascii) : bool :=
  textChar c && negb (Ascii.eqb c "1").

Lemma charset_get (b : N) :
  (b < 32)%N →
  ∃ c, String.get (N.to_nat b) charset = Some c
       ∧ strings.IndexByte charset c = Some (N.to_nat b)
       ∧ dataChar c = true.
Proof.
  intros Hb. assert (Hn : N.to_nat b < 32) by lia.
  revert Hn. generalize (N.to_nat b) as n. intros n Hn.
  do 32 (destruct n as [| n];
         [eexists; split_and!; reflexivity |]).
  lia.
Qed.

Lemma toChars_spec (l : list N) :
  Forall (λ x, (x < 2 ^ 5)%N) l →
  ∃ s, toChars l = Some s
       ∧ toBytes s = Some l
       ∧ String.length s = length l
       ∧ forallb dataChar (list_ascii_of_string s) = true.
Proof.
  induction 1 as [| b l Hb Hl IH].
  - by exists "".
  - destruct IH as (s & Hs & Hbytes & Hlen & Hchars).
    destruct (charset_get b Hb) as (c & Hget & Hidx & Hc).
    exists (String c s). cbn [toChars toBytes].
    rewrite (proj2 (N.leb_gt _ _)) by exact Hb.
    rewrite Hget, Hs, Hidx, Hbytes, N2Nat.id.
    split_and!; try done.
    + cbn [String.length]. by rewrite Hlen.
    + cbn [list_ascii_of_string forallb]. by rewrite Hc, Hchars.
Qed.

Lemma append_cons (c : ascii) (a b : string) :
  String c a +:+ b = String c (a +:+ b).
Proof. reflexivity. Qed.

Lemma append_nil (b : string) : "" +:+ b = b.
Proof. reflexivity. Qed.

Lemma length_append (a b : string) :
  String.length (a +:+ b) = String.length a + String.length b.
Proof.
  induction a as [| c a IH]; [done |].
  rewrite append_cons. cbn [String.length]. by rewrite IH.
Qed.

Lemma list_ascii_of_append (a b : string) :
  list_ascii_of_string (a +:+ b)
  = list_ascii_of_string a ++ list_ascii_of_string b.
Proof.
  induction a as [| c a IH]; [done |].
  rewrite append_cons. cbn [list_ascii_of_string app]. by rewrite IH.
Qed.

Lemma substring_prefix (a b : string) :
  substring 0 (String.length a) (a +:+ b) = a.
Proof.
  induction a as [| c a IH]; [by destruct b |].
  rewrite append_cons. cbn [String.length substring]. by rewrite IH.
Qed.

Lemma substring_all (b : string) : substring 0 (String.length b) b = b.
Proof.
  induction b as [| c b IH]; [done |].
  cbn [String.length substring]. by rewrite IH.
Qed.

Lemma substring_suffix (a b : string) :
  substring (String.length a) (String.length b) (a +:+ b) = b.
Proof. induction a as [| c a IH]; [apply substring_all | done]. Qed.

Section WithUnicode.
Context `{U : Unicode}.

(** [ToLower] leaves a text of ASCII characters without upper case as it
    is. *)
Lemma ToLower_text (s : string) :
  forallb textChar (list_ascii_of_string s) = true →
  strings.ToLower s = s.
Proof.
  intros Hs. unfold strings.ToLower.
  assert (Hascii : forallb (λ c, nat_of_ascii c <? strings.RuneSelf)
                           (list_ascii_of_string s) = true).
  { rewrite forallb_forall in *. intros c Hc. specialize (Hs c Hc).
    unfold textChar in Hs. by repeat (apply andb_prop in Hs as [Hs ?]). }
  assert (Hupper : existsb strings.isUpper (list_ascii_of_string s) = false).
  { apply not_true_is_false. intros Hex.
    apply existsb_exists in Hex as (c & Hc & Hup).
    rewrite forallb_forall in Hs. specialize (Hs c Hc).
    unfold textChar in Hs. repeat (apply andb_prop in Hs as [Hs ?]).
    by rewrite Hup in *. }
  by rewrite Hascii, Hupper.
Qed.

Lemma LastIndexByte_absent (s : string) (c : ascii) :
  forallb (λ d, negb (Ascii.eqb d c)) (list_ascii_of_string s) = true →
  strings.LastIndexByte s c = None.
Proof.
  induction s as [| d s IH]; [done |].
  cbn [list_ascii_of_string forallb strings.LastIndexByte].
  intros [Hd Hs]%andb_prop. rewrite (IH Hs).
  by destruct (Ascii.eqb d c).
Qed.

Lemma LastIndexByte_separator (hrp s : string) :
  forallb dataChar (list_ascii_of_string s) = true →
  strings.LastIndexByte (hrp +:+ String "1" s) "1"
  = Some (String.length hrp).
Proof.
  intros Hs. induction hrp as [| c hrp IH].
  - rewrite append_nil. cbn [strings.LastIndexByte].
    rewrite LastIndexByte_absent; [done |].
    rewrite forallb_forall in *. intros d Hd. specialize (Hs d Hd).
    unfold dataChar in Hs. by apply andb_prop in Hs as [_ Hs].
  - rewrite append_cons. cbn [strings.LastIndexByte String.length].
    by rewrite IH.
Qed.

(** [TrimSpace] leaves a text that starts and ends with a character of
    [textChar] as it is. *)
Lemma TrimSpace_text (c last : ascii) (mid : list ascii) :
  textChar c = true → textChar last = true →
  strings.TrimSpace (String c (string_of_list_ascii (mid ++ [last])))
  = String c (string_of_list_ascii (mid ++ [last])).
Proof.
  intros Hc Hlast. unfold textChar in Hc, Hlast.
  repeat (apply andb_prop in Hc as [Hc ?]).
  repeat (apply andb_prop in Hlast as [Hlast ?]).
  cbn [strings.TrimSpace].
  apply Nat.ltb_lt in Hc. rewrite (proj2 (Nat.leb_gt _ _)) by exact Hc.
  destruct (strings.asciiSpace c); [done |].
  cbn [list_ascii_of_string]. rewrite list_ascii_of_string_of_list_ascii.
  change (c :: mid ++ [last]) with ((c :: mid) ++ [last]).
  rewrite rev_app_distr. cbn [rev app strings.trimSpaceStop].
  apply Nat.ltb_lt in Hlast.
  rewrite (proj2 (Nat.leb_gt _ _)) by exact Hlast.
  destruct (strings.asciiSpace last); [done |].
  rewrite rev_app_distr, rev_involutive. reflexivity.
Qed.

Lemma substring_after (a s : string) (c : ascii) (m : nat) :
  substring (String.length a + 1) m (a +:+ String c s) = substring 0 m s.
Proof.
  induction a as [| d a IH]; [done |].
  rewrite append_cons. cbn [String.length Nat.add substring]. exact IH.
Qed.

Lemma dataChar_textChar (l : list ascii) :
  forallb dataChar l = true → forallb textChar l = true.
Proof.
  rewrite !forallb_forall. intros Hl c Hc. specialize (Hl c Hc).
  unfold dataChar in Hl. by apply andb_prop in Hl as [Hl _].
Qed.

Lemma textChar_range (l : list ascii) :
  forallb textChar l = true →
  forallb (λ c, (33 <=? N_of_ascii c)%N && (N_of_ascii c <=? 126)%N) l = true.
Proof.
  rewrite !forallb_forall. intros Hl c Hc. specialize (Hl c Hc).
  unfold textChar in Hl. repeat (apply andb_prop in Hl as [Hl ?]).
  by apply andb_true_intro.
Qed.

Lemma bech32Checksum_spec (hrp : string) (data : list N) :
  length (bech32Checksum hrp data) = 6
  ∧ Forall (λ x, (x < 2 ^ 5)%N) (bech32Checksum hrp data).
Proof.
  rewrite bech32Checksum_eq. split; [done |].
  apply Forall_map, Forall_forall. intros i _. cbn beta.
  change 31%N with (N.ones 5). rewrite N.land_ones.
  rewrite u8_small.
  - by apply N.mod_lt.
  - apply N.lt_trans with (2 ^ 5)%N; [by apply N.mod_lt | done].
Qed.

(** A human readable part the package accepts: not empty, of ASCII
    characters between 33 and 126 that are not upper case. *)
Definition hrpOK (hrp : string) : Prop :=
  hrp ≠ "" ∧ forallb textChar (list_ascii_of_string hrp) = true.

(** [Decode] inverts [Encode], and the text is not changed by
    [TrimSpace]. *)
Lemma Decode_Encode (hrp : string) (data : list N) (limit : nat) :
  hrpOK hrp →
  Forall (λ x, (x < 2 ^ 5)%N) data →
  String.length hrp + length data + 7 ≤ limit →
  ∃ text, Encode hrp data = Some text
          ∧ Decode text limit = Some (hrp, data)
          ∧ strings.TrimSpace text = text
          ∧ text ≠ "".
Proof.
  intros [Hne Hhrp] Hdata Hlimit.
  destruct (bech32Checksum_spec hrp data) as [Hck_len Hck].
  assert (Hcombined : Forall (λ x, (x < 2 ^ 5)%N)
                             (data ++ bech32Checksum hrp data))
    by (by apply Forall_app).
  destruct (toChars_spec _ Hcombined) as (s & Hs & Hbytes & Hlen & Hchars).
  rewrite length_app, Hck_len in Hlen.
  exists (hrp +:+ String "1" s).
  assert (Htext : forallb textChar
                    (list_ascii_of_string (hrp +:+ String "1" s)) = true).
  { rewrite list_ascii_of_append, forallb_app, Hhrp.
    cbn [list_ascii_of_string forallb andb].
    by rewrite (dataChar_textChar _ Hchars). }
  assert (Htotal : String.length (hrp +:+ String "1" s)
                   = String.length hrp + length data + 7).
  { rewrite length_append. cbn [String.length]. lia. }
  split_and!.
  - unfold Encode. rewrite (ToLower_text hrp) by done. by rewrite Hs.
  - unfold Decode. rewrite ToLower_text by done. rewrite Htotal.
    assert (Hpos : 1 ≤ String.length hrp)
      by (destruct hrp; [done | cbn [String.length]; lia]).
    rewrite (proj2 (Nat.ltb_ge _ 8)) by lia.
    rewrite (proj2 (Nat.ltb_ge limit _)) by lia.
    rewrite (textChar_range _ Htext). cbn [orb negb].
    rewrite String.eqb_refl. cbn [negb andb].
    rewrite LastIndexByte_separator by done.
    rewrite (proj2 (Nat.ltb_ge _ 1)) by lia.
    rewrite (proj2 (Nat.ltb_ge _ _)) by lia. cbn [orb].
    rewrite substring_prefix, substring_after.
    replace (String.length hrp + length data + 7 - (String.length hrp + 1))
      with (String.length s) by lia.
    rewrite substring_all, Hbytes.
    rewrite bech32VerifyChecksum_checksum.
    2:{ eapply Forall_impl; [exact Hdata |]. intros x Hx.
        eapply N.lt_trans; [exact Hx | done]. }
    cbn [negb]. rewrite length_app, Hck_len.
    by rewrite Nat.add_sub, take_app_length.
  - destruct hrp as [| c hrp]; [done |]. rewrite append_cons.
    cbn [list_ascii_of_string forallb] in Hhrp.
    apply andb_prop in Hhrp as [Hc Hhrp].
    assert (Hlast : ∃ mid last,
              list_ascii_of_string (hrp +:+ String "1" s) = mid ++ [last]
              ∧ textChar last = true).
    { rewrite append_cons in Htext.
      cbn [list_ascii_of_string forallb] in Htext.
      apply andb_prop in Htext as [_ Htext].
      destruct (list_ascii_of_string (hrp +:+ String "1" s))
        as [| x l] eqn:Hl using rev_ind.
      - apply (f_equal length) in Hl.
        rewrite list_ascii_of_append, length_app in Hl.
        cbn [list_ascii_of_string length] in Hl. lia.
      - exists l, x. split; [done |].
        rewrite forallb_app in Htext.
        apply andb_prop in Htext as [_ Htext].
        cbn [forallb] in Htext. by apply andb_prop in Htext as [Htext _]. }
    destruct Hlast as (mid & last & Hmid & Hlast).
    rewrite <- (string_of_list_ascii_of_string (hrp +:+ String "1" s)), Hmid.
    by apply TrimSpace_text.
  - by destruct hrp.
Qed.

Lemma byte_of_to_N (b : byte) : byte_of (Byte.to_N b) = b.
Proof.
  unfold byte_of. rewrite u8_small.
  - by rewrite Byte.of_to_N.
  - pose proof (Byte.to_N_bounded b). lia.
Qed.

(** The contract of the package, for the reference algorithm: encoding then
    decoding gives back the human readable part and the bytes. *)
Theorem DecodeAndConvert_ConvertAndEncode (hrp : string) (data : bytes) :
  hrpOK hrp →
  String.length hrp + 2 * length data + 8 ≤ 1023 →
  ∃ text, ConvertAndEncode hrp data = (text, None)
          ∧ strings.TrimSpace text = text
          ∧ text ≠ ""
          ∧ DecodeAndConvert text = (hrp, data, None).
Proof.
  intros Hhrp Hlen.
  assert (Hbytes : Forall (λ b, (b < 2 ^ 8)%N) (map Byte.to_N data)).
  { apply Forall_map, Forall_forall. intros b _. cbn beta.
    pose proof (Byte.to_N_bounded b). change (2 ^ 8)%N with 256%N. lia. }
  destruct (ConvertBits_roundtrip _ Hbytes)
    as (converted & Henc & Hconv & Hsize & Hdec).
  rewrite length_map in Hsize.
  destruct (Decode_Encode hrp converted 1023 Hhrp Hconv)
    as (text & Htext & Hdecode & Htrim & Hne); [lia |].
  exists text. unfold ConvertAndEncode, DecodeAndConvert.
  rewrite Henc, Htext, Hdecode, Hdec.
  split_and!; try done.
  do 2 f_equal. rewrite map_map.
  rewrite <- (map_id data) at 2. apply map_ext. intros b.
  apply byte_of_to_N.
Qed.

End WithUnicode.

End bech32_facts.

(** ** C2, C3: the text form *)

Section TextForm.
Context `{K : Keys} `{U : Unicode} `{H : Sha256} `{B : Bech32}.

(** The contract of the bech32 package at one input: encoding [data] under
    [hrp] gives a text that is not blank and that decodes to [hrp] and
    [data]. *)
Definition RoundTripsAt (hrp : string) (data : bytes) : Prop :=
  ∃ text, ConvertAndEncode hrp data = (text, None)
          ∧ String.length (strings.TrimSpace text) ≠ 0
          ∧ DecodeAndConvert text = (hrp, data, None).

(** A type and the identity it is encoded from. *)
Inductive Identity : Type :=
| ScopeID (scopeUUID : uuid.UUID)
| SessionID (scopeUUID sessionUUID : uuid.UUID)
| RecordID (scopeUUID : uuid.UUID) (name : string)
| ScopeSpecID (specUUID : uuid.UUID)
| ContractSpecID (specUUID : uuid.UUID)
| RecordSpecID (contractSpecUUID : uuid.UUID) (name : string).

(** [Encode] of the specification: the constructor function of the type. *)
Definition Encode (i : Identity) : outcome bytes :=
  match i with
  | ScopeID u => ScopeMetadataAddress u
  | SessionID u s => SessionMetadataAddress u s
  | RecordID u name => RecordMetadataAddress u name
  | ScopeSpecID u => ScopeSpecMetadataAddress u
  | ContractSpecID u => ContractSpecMetadataAddress u
  | RecordSpecID u name => RecordSpecMetadataAddress u name
  end.

Definition prefixOf (i : Identity) : string :=
  match i with
  | ScopeID _ => PrefixScope
  | SessionID _ _ => PrefixSession
  | RecordID _ _ => PrefixRecord
  | ScopeSpecID _ => PrefixScopeSpecification
  | ContractSpecID _ => PrefixContractSpecification
  | RecordSpecID _ _ => PrefixRecordSpecification
  end.

(** A valid identity: a name, where the type has one, that is not empty once
    normalized. *)
Definition validIdentity (i : Identity) : Prop :=
  match i with
  | RecordID _ name | RecordSpecID _ name => normalizedName name ≠ ""
  | _ => True
  end.

Lemma typeOfTag_values :
  typeOfTag ScopeTag = Some (PrefixScope, 17, false)
  ∧ typeOfTag SessionTag = Some (PrefixSession, 33, true)
  ∧ typeOfTag RecordTag = Some (PrefixRecord, 33, false)
  ∧ typeOfTag ScopeSpecificationTag = Some (PrefixScopeSpecification, 17, false)
  ∧ typeOfTag ContractSpecificationTag
    = Some (PrefixContractSpecification, 17, false)
  ∧ typeOfTag RecordSpecificationTag
    = Some (PrefixRecordSpecification, 33, false).
Proof.
  pose proof tags_pairwise_distinct as Hd. unfold typeOfTag.
  split_and!; repeat case_decide; done || (exfalso; naive_solver).
Qed.

(** Every constructor returns an address that passes the format check with
    the prefix of its type. *)
Lemma Encode_valid (i : Identity) :
  validIdentity i →
  ∃ addr, Encode i = Returns addr ∧ formatOf addr = (prefixOf i, None).
Proof.
  destruct typeOfTag_values as (Ht1 & Ht2 & Ht3 & Ht4 & Ht5 & Ht6).
  assert (Hhash : ∀ name, length (take 16 (Sum256 (list_byte_of_string name)))
                          = 16).
  { intros name. rewrite length_take, Sum256_size. lia. }
  destruct i as [u | u s | u name | u | u | u name]; intros Hv;
    cbn [validIdentity Encode prefixOf] in *.
  - eexists. split; [reflexivity |]. unfold formatOf, ScopeKeyPrefix.
    cbn [app]. rewrite Ht1. cbn [length]. by rewrite uuid.raw_size.
  - eexists. split; [reflexivity |]. unfold formatOf, SessionKeyPrefix.
    cbn [app]. rewrite Ht2. cbn [length].
    by rewrite length_app, !uuid.raw_size.
  - rewrite RecordMetadataAddress_eq by done.
    eexists. split; [reflexivity |]. unfold formatOf. rewrite Ht3.
    cbn [length]. by rewrite length_app, uuid.raw_size, Hhash.
  - eexists. split; [reflexivity |].
    unfold formatOf, ScopeSpecificationKeyPrefix.
    cbn [app]. rewrite Ht4. cbn [length]. by rewrite uuid.raw_size.
  - eexists. split; [reflexivity |].
    unfold formatOf, ContractSpecificationKeyPrefix.
    cbn [app]. rewrite Ht5. cbn [length]. by rewrite uuid.raw_size.
  - rewrite RecordSpecMetadataAddress_eq by done.
    eexists. split; [reflexivity |]. unfold formatOf. rewrite Ht6.
    cbn [length]. by rewrite length_app, uuid.raw_size, Hhash.
Qed.

(** The text of a valid address parses back to the address and its prefix,
    when the bech32 package round-trips at it. *)
Lemma String_Parse_valid (addr : bytes) (hrp : string) :
  formatOf addr = (hrp, None) →
  RoundTripsAt hrp addr →
  ∃ text, MetadataAddress.String addr = Returns text
          ∧ ParseMetadataAddressFromBech32 text = Returns (addr, hrp, None).
Proof.
  intros Hf (text & Henc & Hblank & Hdec). exists text. split.
  - unfold MetadataAddress.String, MetadataAddress.Empty,
      MetadataAddress.Bytes.
    destruct addr as [| b rest]; [done |].
    rewrite bool_decide_false by done.
    rewrite VerifyMetadataAddressFormat_eq, Hf.
    unfold mbind, outcome_bind. by rewrite Henc.
  - unfold ParseMetadataAddressFromBech32.
    rewrite decide_False by done. rewrite Hdec.
    rewrite VerifyMetadataAddressFormat_eq, Hf.
    unfold mbind, outcome_bind. by rewrite decide_False by (by intros []).
Qed.

(** The text of a valid address parses back for every bech32 package that
    round-trips at the address. *)
Lemma FromText_ToText_roundtrip_for (i : Identity) :
  validIdentity i →
  (∀ addr, Encode i = Returns addr → RoundTripsAt (prefixOf i) addr) →
  ∃ addr text,
    Encode i = Returns addr
    ∧ MetadataAddress.String addr = Returns text
    ∧ ParseMetadataAddressFromBech32 text = Returns (addr, prefixOf i, None).
Proof.
  intros Hv Hrt.
  destruct (Encode_valid i Hv) as (addr & Henc & Hf).
  destruct (String_Parse_valid addr (prefixOf i) Hf (Hrt addr Henc))
    as (text & Hs & Hp).
  by exists addr, text.
Qed.

(** A text that decodes to a valid address under another prefix is refused
    with the invalid-prefix error, for every bech32 package. *)
Lemma FromText_rejects_other_prefix_for (addr : bytes) (hrp other : string) :
  VerifyMetadataAddressFormat addr = Returns (hrp, None) →
  other ≠ hrp →
  RoundTripsAt other addr →
  ∃ text, ConvertAndEncode other addr = (text, None)
          ∧ ParseMetadataAddressFromBech32 text
            = Returns ([], "", Some (ErrInvalidBech32Prefix hrp other)).
Proof.
  intros Hv Hne (text & Henc & Hblank & Hdec). exists text.
  split; [done |].
  unfold ParseMetadataAddressFromBech32.
  rewrite decide_False by done. rewrite Hdec, Hv.
  unfold mbind, outcome_bind. by rewrite decide_True by done.
Qed.

End TextForm.

Section TextFormBech32.
Context `{K : Keys} `{U : Unicode} `{H : Sha256}.

(** The reference algorithm meets the contract [RoundTripsAt] at every
    accepted prefix and every address of at most 33 bytes. *)
Lemma bech32_reference_RoundTripsAt (hrp : string) (data : bytes) :
  bech32_facts.hrpOK hrp →
  String.length hrp ≤ 900 →
  length data ≤ 33 →
  RoundTripsAt (B := bech32_reference) hrp data.
Proof.
  intros Hhrp Hlen Hdata.
  destruct (bech32_facts.DecodeAndConvert_ConvertAndEncode hrp data Hhrp)
    as (text & Henc & Htrim & Hne & Hdec); [lia |].
  exists text. split_and!; [done | | done].
  rewrite Htrim. by destruct text.
Qed.

Lemma prefixOf_hrpOK (i : Identity) :
  bech32_facts.hrpOK (prefixOf i) ∧ String.length (prefixOf i) ≤ 900.
Proof.
  destruct i;
    (split; [split; [discriminate | reflexivity]
            | cbn [prefixOf]; apply Nat.leb_le; reflexivity]).
Qed.

(** C2. For every type and valid identity the constructor returns an
    address, [String] returns its bech32 text, and
    [ParseMetadataAddressFromBech32] of that text returns the address, the
    prefix of the type and no error. *)
Theorem FromText_ToText_roundtrip (i : Identity) :
  validIdentity i →
  ∃ addr text,
    Encode i = Returns addr
    ∧ MetadataAddress.String (B := bech32_reference) addr = Returns text
    ∧ ParseMetadataAddressFromBech32 (B := bech32_reference) text
      = Returns (addr, prefixOf i, None).
Proof.
  intros Hv.
  apply (FromText_ToText_roundtrip_for (B := bech32_reference) i Hv).
  intros addr Henc.
  destruct (Encode_valid i Hv) as (addr' & Henc' & Hf).
  rewrite Henc in Henc'. injection Henc' as <-.
  destruct (formatOf_valid_inv _ _ Hf) as (b & rest & n & c & -> & Ht & Hn).
  destruct (prefixOf_hrpOK i) as [Hok Hlen].
  apply bech32_reference_RoundTripsAt; [done | done |].
  destruct (typeOfTag_cases _ _ _ _ Ht) as [[-> _] | ->]; lia.
Qed.

(** C3. The bytes of a valid address, encoded under a prefix other than the
    one of its type, are refused by [ParseMetadataAddressFromBech32] with the
    invalid-prefix error: the prefix [VerifyMetadataAddressFormat] recovers
    from the bytes is compared with the decoded one. *)
Theorem FromText_rejects_other_prefix (addr : bytes) (hrp other : string) :
  VerifyMetadataAddressFormat addr = Returns (hrp, None) →
  other ≠ hrp →
  bech32_facts.hrpOK other →
  String.length other ≤ 900 →
  ∃ text, ConvertAndEncode (Bech32 := bech32_reference) other addr
          = (text, None)
          ∧ ParseMetadataAddressFromBech32 (B := bech32_reference) text
            = Returns ([], "", Some (ErrInvalidBech32Prefix hrp other)).
Proof.
  intros Hv Hne Hok Hlen.
  apply (FromText_rejects_other_prefix_for (B := bech32_reference));
    [done | done |].
  rewrite VerifyMetadataAddressFormat_eq in Hv. injection Hv as Hf.
  destruct (formatOf_valid_inv _ _ Hf) as (b & rest & n & c & -> & Ht & Hn).
  apply bech32_reference_RoundTripsAt; [done | done |].
  destruct (typeOfTag_cases _ _ _ _ Ht) as [[-> _] | ->]; lia.
Qed.


End TextFormBech32.

(** * Further properties *)

(** ** The type tests *)

Section TypeTests.
Context `{K : Keys}.

(** What a type test returns, without the monad. *)
Lemma type_test_eq (ma : bytes) (p : string) :
  ('(hrp, err) ← VerifyMetadataAddressFormat ma;
   mret (bool_decide (err = None) && bool_decide (hrp = p)))
  = Returns (bool_decide (formatOf ma = (p, None))).
Proof.
  rewrite VerifyMetadataAddressFormat_eq.
  unfold mbind, outcome_bind, mret, outcome_ret.
  destruct (formatOf ma) as [hrp [e |]]; f_equal.
  - rewrite bool_decide_false by done. cbn [andb].
    symmetry. by apply bool_decide_eq_false.
  - rewrite bool_decide_true by done. cbn [andb].
    apply bool_decide_ext. naive_solver.
Qed.

Lemma formatOf_valid_iff (ma : bytes) (hrp : string) :
  formatOf ma = (hrp, None)
  ↔ ∃ b rest n c, ma = b :: rest ∧ typeOfTag b = Some (hrp, n, c)
                  ∧ S (length rest) = n.
Proof.
  split.
  - intros Hf.
    destruct (formatOf_valid_inv _ _ Hf) as (b & rest & n & c & -> & Ht & Hn).
    by exists b, rest, n, c.
  - intros (b & rest & n & c & -> & Ht & Hn). unfold formatOf. rewrite Ht.
    cbn [length]. by rewrite decide_False by (intros ?; lia).
Qed.

(** The layout of a valid address of each type. *)
Definition hasLayout (tag : byte) (size : nat) (ma : bytes) : Prop :=
  ∃ rest, ma = tag :: rest ∧ length rest = size.

Lemma formatOf_layout (ma : bytes) :
  (formatOf ma = (PrefixScope, None) ↔ hasLayout ScopeTag 16 ma)
  ∧ (formatOf ma = (PrefixSession, None) ↔ hasLayout SessionTag 32 ma)
  ∧ (formatOf ma = (PrefixRecord, None) ↔ hasLayout RecordTag 32 ma)
  ∧ (formatOf ma = (PrefixScopeSpecification, None)
     ↔ hasLayout ScopeSpecificationTag 16 ma)
  ∧ (formatOf ma = (PrefixContractSpecification, None)
     ↔ hasLayout ContractSpecificationTag 16 ma)
  ∧ (formatOf ma = (PrefixRecordSpecification, None)
     ↔ hasLayout RecordSpecificationTag 32 ma).
Proof.
  destruct typeOfTag_values as (Ht1 & Ht2 & Ht3 & Ht4 & Ht5 & Ht6).
  unfold hasLayout.
  split_and!; rewrite formatOf_valid_iff; split.
  all: try (intros (b & rest & n & c & -> & Ht & Hn);
            destruct (typeOfTag_inv _ _ _ _ Ht)
              as [(-> & Hp & ->) | [(-> & Hp & ->) | [(-> & Hp & ->)
                 | [(-> & Hp & ->) | [(-> & Hp & ->) | (-> & Hp & ->)]]]]];
            try discriminate Hp; exists rest; split; [done | lia]).
  all: intros (rest & -> & Hn); eexists _, rest, _, _;
       (split; [done |]); (split; [eassumption | lia]).
Qed.

(** X4. The six type tests return on every byte sequence; each holds exactly on
    the byte sequences laid out as an address of its type (the tag, then 16
    or 32 bytes), and the number of tests that hold is 1 when [Validate]
    accepts the bytes and 0 when it does not. *)
Theorem type_tests_exclusive (ma : bytes) :
  ∃ scope session record scopeSpec contractSpec recordSpec : bool,
    MetadataAddress.IsScopeAddress ma = Returns scope
    ∧ MetadataAddress.IsSessionAddress ma = Returns session
    ∧ MetadataAddress.IsRecordAddress ma = Returns record
    ∧ MetadataAddress.IsScopeSpecificationAddress ma = Returns scopeSpec
    ∧ MetadataAddress.IsContractSpecificationAddress ma = Returns contractSpec
    ∧ MetadataAddress.IsRecordSpecificationAddress ma = Returns recordSpec
    ∧ (scope = true ↔ hasLayout ScopeTag 16 ma)
    ∧ (session = true ↔ hasLayout SessionTag 32 ma)
    ∧ (record = true ↔ hasLayout RecordTag 32 ma)
    ∧ (scopeSpec = true ↔ hasLayout ScopeSpecificationTag 16 ma)
    ∧ (contractSpec = true ↔ hasLayout ContractSpecificationTag 16 ma)
    ∧ (recordSpec = true ↔ hasLayout RecordSpecificationTag 32 ma)
    ∧ Nat.b2n scope + Nat.b2n session + Nat.b2n record + Nat.b2n scopeSpec
      + Nat.b2n contractSpec + Nat.b2n recordSpec
      = if bool_decide (MetadataAddress.Validate ma = Returns None)
        then 1 else 0.
Proof.
  destruct (formatOf_layout ma) as (L1 & L2 & L3 & L4 & L5 & L6).
  do 6 eexists.
  unfold MetadataAddress.IsScopeAddress, MetadataAddress.IsSessionAddress,
    MetadataAddress.IsRecordAddress,
    MetadataAddress.IsScopeSpecificationAddress,
    MetadataAddress.IsContractSpecificationAddress,
    MetadataAddress.IsRecordSpecificationAddress.
  rewrite !type_test_eq.
  split_and!; try reflexivity.
  1-6: rewrite bool_decide_eq_true; assumption.
  unfold MetadataAddress.Validate. rewrite VerifyMetadataAddressFormat_eq.
  unfold mbind, outcome_bind, mret, outcome_ret.
  destruct (formatOf ma) as [hrp [e |]] eqn:Hf.
  - rewrite !bool_decide_false by done. reflexivity.
  - rewrite (bool_decide_true (Returns None = Returns None)) by done.
    destruct (formatOf_valid_inv _ _ Hf) as (b & rest & n & c & _ & Ht & _).
    destruct (typeOfTag_inv _ _ _ _ Ht)
      as [(_ & -> & _) | [(_ & -> & _) | [(_ & -> & _)
         | [(_ & -> & _) | [(_ & -> & _) | (_ & -> & _)]]]]];
      reflexivity.
Qed.

End TypeTests.

(** ** Validation of the type *)

Section TypeValidation.
Context `{K : Keys}.

Lemma VerifyMetadataAddressHasType_eq (ma : bytes) (expHRP : string) :
  VerifyMetadataAddressHasType ma expHRP
  = Returns match formatOf ma with
            | (_, Some e) => Some (ErrInvalidMetadataAddress expHRP ma e)
            | (hrp, None) => if decide (hrp = expHRP) then None
                             else Some (ErrWrongTypeID expHRP ma)
            end.
Proof.
  unfold VerifyMetadataAddressHasType. rewrite VerifyMetadataAddressFormat_eq.
  unfold mbind, outcome_bind, mret, outcome_ret.
  destruct (formatOf ma) as [hrp [e |]]; [done |].
  destruct (decide (hrp = expHRP)) as [-> | Hne].
  - by rewrite decide_False by (by intros []).
  - by rewrite decide_True.
Qed.

(** X5. [VerifyMetadataAddressHasType] returns no error exactly when the format
    check succeeds with the expected prefix. When the format check fails its
    error is wrapped; when it succeeds with another prefix the wrong-type
    error is returned. [ValidateIsScopeAddress] and
    [ValidateIsScopeSpecificationAddress] return no error exactly when the
    type test of their type holds. *)
Theorem VerifyMetadataAddressHasType_spec (ma : bytes) (expHRP : string) :
  (VerifyMetadataAddressHasType ma expHRP = Returns None
   ↔ VerifyMetadataAddressFormat ma = Returns (expHRP, None))
  ∧ (∀ e, MetadataAddress.Validate ma = Returns (Some e) →
       VerifyMetadataAddressHasType ma expHRP
       = Returns (Some (ErrInvalidMetadataAddress expHRP ma e)))
  ∧ (∀ hrp, VerifyMetadataAddressFormat ma = Returns (hrp, None) →
       hrp ≠ expHRP →
       VerifyMetadataAddressHasType ma expHRP
       = Returns (Some (ErrWrongTypeID expHRP ma)))
  ∧ (MetadataAddress.ValidateIsScopeAddress ma = Returns None
     ↔ MetadataAddress.IsScopeAddress ma = Returns true)
  ∧ (MetadataAddress.ValidateIsScopeSpecificationAddress ma = Returns None
     ↔ MetadataAddress.IsScopeSpecificationAddress ma = Returns true).
Proof.
  unfold MetadataAddress.ValidateIsScopeAddress,
    MetadataAddress.ValidateIsScopeSpecificationAddress,
    MetadataAddress.IsScopeAddress,
    MetadataAddress.IsScopeSpecificationAddress, MetadataAddress.Validate.
  rewrite !type_test_eq, !VerifyMetadataAddressHasType_eq.
  rewrite VerifyMetadataAddressFormat_eq.
  unfold mbind, outcome_bind, mret, outcome_ret.
  destruct (formatOf ma) as [hrp [e |]].
  - rewrite !bool_decide_false by done.
    split_and!; try (split; intros [= ]; done).
    + by intros e' [= ->].
    + by intros hrp' [= ].
  - split_and!.
    + case_decide; subst; split; intros [= ]; done.
    + by intros e [= ].
    + intros hrp' [= <-] Hne. by rewrite decide_False.
    + case_decide; subst.
      * by rewrite bool_decide_true.
      * rewrite bool_decide_false by (intros [= ]; done).
        split; intros [= ].
    + case_decide; subst.
      * by rewrite bool_decide_true.
      * rewrite bool_decide_false by (intros [= ]; done).
        split; intros [= ].
Qed.

End TypeValidation.

(** ** The accessors of the components *)

Lemma Returns_inj {A : Type} (x y : A) : Returns x = Returns y ↔ x = y.
Proof. split; [by intros [= ] | by intros ->]. Qed.

Section Accessors.
Context `{K : Keys}.

(** What [PrimaryUUID] returns, without slices. *)
Definition primaryOf (ma : bytes) : uuid.UUID * option error :=
  match ma with
  | [] => (uuid.Nil, Some ErrAddressEmpty)
  | b :: rest =>
      if bool_decide (b ∈ [ScopeTag; SessionTag; RecordTag;
                           ScopeSpecificationTag; ContractSpecificationTag;
                           RecordSpecificationTag]) then
        if length ma <? 17
        then (uuid.Nil, Some (ErrLengthAtLeast 17 (length ma)))
        else uuid.FromBytes (take 16 rest)
      else (uuid.Nil, Some (ErrTypeOutOfRange b))
  end.

Lemma PrimaryUUID_eq (ma : bytes) :
  MetadataAddress.PrimaryUUID ma = Returns (primaryOf ma).
Proof.
  unfold MetadataAddress.PrimaryUUID, primaryOf.
  destruct ma as [| b rest]; [done |].
  rewrite (proj2 (Nat.ltb_ge (length (b :: rest)) 1)) by (cbn [length]; lia).
  rewrite isKnownType.
  case_bool_decide as Hb; cbn [negb].
  - destruct (length (b :: rest) <? 17) eqn:Hl; [done |].
    apply Nat.ltb_ge in Hl. cbn [length] in Hl.
    by rewrite slice_in_range by (cbn [length]; lia).
  - by rewrite index_head.
Qed.

Lemma FromBytes_ok_iff (p : bytes) (u : uuid.UUID) :
  uuid.FromBytes p = (u, None) ↔ length p = 16 ∧ uuid.raw u = p.
Proof.
  unfold uuid.FromBytes.
  destruct (decide (length p = 16)) as [Hl | Hl].
  - split.
    + intros [= <-]. done.
    + intros [_ Hr]. f_equal. by apply UUID_eq.
  - split; [done | by intros [? _]].
Qed.

Lemma primaryOf_ok_iff (ma : bytes) (u : uuid.UUID) :
  primaryOf ma = (u, None)
  ↔ ∃ b rest, ma = b :: rest
              ∧ b ∈ [ScopeTag; SessionTag; RecordTag; ScopeSpecificationTag;
                     ContractSpecificationTag; RecordSpecificationTag]
              ∧ 16 ≤ length rest ∧ uuid.raw u = take 16 rest.
Proof.
  unfold primaryOf. destruct ma as [| b rest].
  { split; [done | by intros (? & ? & ? & _)]. }
  case_bool_decide as Hb.
  - cbn [length]. destruct (S (length rest) <? 17) eqn:Hl.
    + apply Nat.ltb_lt in Hl. split; [done |].
      intros (b' & rest' & [= <- <-] & _ & Hlen & _). lia.
    + apply Nat.ltb_ge in Hl. rewrite FromBytes_ok_iff. split.
      * intros [_ Hr]. exists b, rest. split_and!; [done | done | lia | done].
      * intros (b' & rest' & [= <- <-] & _ & Hlen & Hr).
        split; [rewrite length_take; lia | done].
  - split; [done |]. intros (b' & rest' & [= <- <-] & Hb' & _). done.
Qed.

Lemma secondaryOf_ok_iff (ma : bytes) (u : uuid.UUID) :
  secondaryOf ma = (u, None)
  ↔ ∃ rest, ma = SessionTag :: rest ∧ 32 ≤ length rest
            ∧ uuid.raw u = take 16 (drop 16 rest).
Proof.
  unfold secondaryOf. destruct ma as [| b rest].
  { split; [done | by intros (? & ? & _)]. }
  case_decide as Hb.
  - subst b. cbn [length]. destruct (S (length rest) <? 33) eqn:Hl.
    + apply Nat.ltb_lt in Hl. split; [done |].
      intros (rest' & [= <-] & Hlen & _). lia.
    + apply Nat.ltb_ge in Hl. rewrite FromBytes_ok_iff.
      change (drop 17 (SessionTag :: rest)) with (drop 16 rest). split.
      * intros [_ Hr]. exists rest. split_and!; [done | lia | done].
      * intros (rest' & [= <-] & Hlen & Hr).
        split; [rewrite length_take, length_drop; lia | done].
  - split; [done |]. intros (rest' & [= -> _] & _). done.
Qed.

Lemma nameHashOf_ok_iff (ma h : bytes) :
  nameHashOf ma = (h, None)
  ↔ ∃ b rest, ma = b :: rest ∧ b ∈ [RecordTag; RecordSpecificationTag]
              ∧ 32 ≤ length rest ∧ h = take 16 (drop 16 rest).
Proof.
  unfold nameHashOf. destruct ma as [| b rest].
  { split; [done | by intros (? & ? & ? & _)]. }
  case_bool_decide as Hb.
  - cbn [length]. destruct (S (length rest) <? 33) eqn:Hl.
    + apply Nat.ltb_lt in Hl. split; [done |].
      intros (b' & rest' & [= <- <-] & _ & Hlen & _). lia.
    + apply Nat.ltb_ge in Hl.
      change (drop 17 (b :: rest)) with (drop 16 rest). split.
      * intros [= <-]. exists b, rest. split_and!; [done | done | lia | done].
      * intros (b' & rest' & [= <- <-] & _ & _ & ->). done.
  - split; [done |]. intros (b' & rest' & [= <- <-] & Hb' & _). done.
Qed.

Lemma PrimaryUUID_ok_iff (ma : bytes) (u : uuid.UUID) :
  MetadataAddress.PrimaryUUID ma = Returns (u, None)
  ↔ ∃ b rest, ma = b :: rest
              ∧ b ∈ [ScopeTag; SessionTag; RecordTag; ScopeSpecificationTag;
                     ContractSpecificationTag; RecordSpecificationTag]
              ∧ 16 ≤ length rest ∧ uuid.raw u = take 16 rest.
Proof. rewrite PrimaryUUID_eq, Returns_inj. apply primaryOf_ok_iff. Qed.

Lemma SecondaryUUID_ok_iff (ma : bytes) (u : uuid.UUID) :
  MetadataAddress.SecondaryUUID ma = Returns (u, None)
  ↔ ∃ rest, ma = SessionTag :: rest ∧ 32 ≤ length rest
            ∧ uuid.raw u = take 16 (drop 16 rest).
Proof. rewrite SecondaryUUID_eq, Returns_inj. apply secondaryOf_ok_iff. Qed.

Lemma NameHash_ok_iff (ma h : bytes) :
  MetadataAddress.NameHash ma = Returns (h, None)
  ↔ ∃ b rest, ma = b :: rest ∧ b ∈ [RecordTag; RecordSpecificationTag]
              ∧ 32 ≤ length rest ∧ h = take 16 (drop 16 rest).
Proof. rewrite NameHash_eq, Returns_inj. apply nameHashOf_ok_iff. Qed.

Lemma ScopeUUID_ok_iff (ma : bytes) (u : uuid.UUID) :
  MetadataAddress.ScopeUUID ma = Returns (u, None)
  ↔ ∃ b rest, ma = b :: rest ∧ b ∈ [ScopeTag; SessionTag; RecordTag]
              ∧ 16 ≤ length rest ∧ uuid.raw u = take 16 rest.
Proof.
  unfold MetadataAddress.ScopeUUID. destruct ma as [| b rest].
  { split; [done | by intros (? & ? & ? & _)]. }
  rewrite isScopeFamily. case_bool_decide as Hb; cbn [negb].
  - rewrite PrimaryUUID_ok_iff. split.
    + intros (b' & rest' & [= <- <-] & _ & Hlen & Hr). by exists b, rest.
    + intros (b' & rest' & [= <- <-] & _ & Hlen & Hr). exists b, rest.
      split_and!; [done | set_solver | done | done].
  - split; [done |]. intros (b' & rest' & [= <- <-] & Hb' & _). done.
Qed.

Lemma SessionUUID_ok_iff (ma : bytes) (u : uuid.UUID) :
  MetadataAddress.SessionUUID ma = Returns (u, None)
  ↔ ∃ rest, ma = SessionTag :: rest ∧ 32 ≤ length rest
            ∧ uuid.raw u = take 16 (drop 16 rest).
Proof.
  unfold MetadataAddress.SessionUUID. destruct ma as [| b rest].
  { rewrite SecondaryUUID_ok_iff. done. }
  case_decide as Hb.
  - split; [done |]. by intros (rest' & [= -> _] & _).
  - apply SecondaryUUID_ok_iff.
Qed.

Lemma ScopeSpecUUID_ok_iff (ma : bytes) (u : uuid.UUID) :
  MetadataAddress.ScopeSpecUUID ma = Returns (u, None)
  ↔ ∃ rest, ma = ScopeSpecificationTag :: rest ∧ 16 ≤ length rest
            ∧ uuid.raw u = take 16 rest.
Proof.
  unfold MetadataAddress.ScopeSpecUUID. destruct ma as [| b rest].
  { rewrite PrimaryUUID_ok_iff.
    split; [by intros (? & ? & ? & _) | by intros (? & ? & _)]. }
  case_decide as Hb.
  - split; [done |]. by intros (rest' & [= -> _] & _).
  - subst b. rewrite PrimaryUUID_ok_iff. split.
    + intros (b' & rest' & [= <- <-] & _ & Hlen & Hr). by exists rest.
    + intros (rest' & [= <-] & Hlen & Hr). exists ScopeSpecificationTag, rest.
      split_and!; [done | set_solver | done | done].
Qed.

Lemma ContractSpecUUID_ok_iff (ma : bytes) (u : uuid.UUID) :
  MetadataAddress.ContractSpecUUID ma = Returns (u, None)
  ↔ ∃ b rest, ma = b :: rest
              ∧ b ∈ [ContractSpecificationTag; RecordSpecificationTag]
              ∧ 16 ≤ length rest ∧ uuid.raw u = take 16 rest.
Proof.
  unfold MetadataAddress.ContractSpecUUID. destruct ma as [| b rest].
  { split; [done | by intros (? & ? & ? & _)]. }
  rewrite isContractSpecFamily. case_bool_decide as Hb; cbn [negb].
  - rewrite PrimaryUUID_ok_iff. split.
    + intros (b' & rest' & [= <- <-] & _ & Hlen & Hr). by exists b, rest.
    + intros (b' & rest' & [= <- <-] & _ & Hlen & Hr). exists b, rest.
      split_and!; [done | set_solver | done | done].
  - split; [done |]. intros (b' & rest' & [= <- <-] & Hb' & _). done.
Qed.

(** X6. The accessors return on every byte sequence. Each returns a value
    without an error exactly when the first byte is a tag of a type that
    holds the component and the bytes reach the end of the component (17
    bytes for the primary UUID, 33 for the secondary UUID and the name
    hash); the value is then the 16 bytes of the component. The length is
    not compared with the length the type requires. *)
Theorem accessors_succeed_iff (ma : bytes) (u : uuid.UUID) (h : bytes) :
  (MetadataAddress.PrimaryUUID ma = Returns (u, None)
   ↔ ∃ b rest, ma = b :: rest
               ∧ b ∈ [ScopeTag; SessionTag; RecordTag; ScopeSpecificationTag;
                      ContractSpecificationTag; RecordSpecificationTag]
               ∧ 16 ≤ length rest ∧ uuid.raw u = take 16 rest)
  ∧ (MetadataAddress.SecondaryUUID ma = Returns (u, None)
     ↔ ∃ rest, ma = SessionTag :: rest ∧ 32 ≤ length rest
               ∧ uuid.raw u = take 16 (drop 16 rest))
  ∧ (MetadataAddress.NameHash ma = Returns (h, None)
     ↔ ∃ b rest, ma = b :: rest ∧ b ∈ [RecordTag; RecordSpecificationTag]
                 ∧ 32 ≤ length rest ∧ h = take 16 (drop 16 rest))
  ∧ (MetadataAddress.ScopeUUID ma = Returns (u, None)
     ↔ ∃ b rest, ma = b :: rest ∧ b ∈ [ScopeTag; SessionTag; RecordTag]
                 ∧ 16 ≤ length rest ∧ uuid.raw u = take 16 rest)
  ∧ (MetadataAddress.SessionUUID ma = Returns (u, None)
     ↔ ∃ rest, ma = SessionTag :: rest ∧ 32 ≤ length rest
               ∧ uuid.raw u = take 16 (drop 16 rest))
  ∧ (MetadataAddress.ScopeSpecUUID ma = Returns (u, None)
     ↔ ∃ rest, ma = ScopeSpecificationTag :: rest ∧ 16 ≤ length rest
               ∧ uuid.raw u = take 16 rest)
  ∧ (MetadataAddress.ContractSpecUUID ma = Returns (u, None)
     ↔ ∃ b rest, ma = b :: rest
                 ∧ b ∈ [ContractSpecificationTag; RecordSpecificationTag]
                 ∧ 16 ≤ length rest ∧ uuid.raw u = take 16 rest)
  ∧ (∃ r1 r2 r3 r4 r5 r6 r7,
       MetadataAddress.PrimaryUUID ma = Returns r1
       ∧ MetadataAddress.SecondaryUUID ma = Returns r2
       ∧ MetadataAddress.NameHash ma = Returns r3
       ∧ MetadataAddress.ScopeUUID ma = Returns r4
       ∧ MetadataAddress.SessionUUID ma = Returns r5
       ∧ MetadataAddress.ScopeSpecUUID ma = Returns r6
       ∧ MetadataAddress.ContractSpecUUID ma = Returns r7).
Proof.
  split_and!.
  - apply PrimaryUUID_ok_iff.
  - apply SecondaryUUID_ok_iff.
  - apply NameHash_ok_iff.
  - apply ScopeUUID_ok_iff.
  - apply SessionUUID_ok_iff.
  - apply ScopeSpecUUID_ok_iff.
  - apply ContractSpecUUID_ok_iff.
  - unfold MetadataAddress.ScopeUUID, MetadataAddress.SessionUUID,
      MetadataAddress.ScopeSpecUUID, MetadataAddress.ContractSpecUUID.
    rewrite !PrimaryUUID_eq, !SecondaryUUID_eq, !NameHash_eq.
    destruct ma as [| b rest].
    + by do 7 eexists.
    + destruct (negb _), (negb _), (decide _), (decide _); by do 7 eexists.
Qed.

End Accessors.

(** ** Constructors and accessors *)

Section Constructed.
Context `{K : Keys} `{U : Unicode} `{H : Sha256}.

Lemma hash_size (name : string) :
  length (take 16 (Sum256 (list_byte_of_string name))) = 16.
Proof. rewrite length_take, Sum256_size. lia. Qed.

(** X7. The accessors give back what the constructors were given: the scope
    UUID of a scope, session or record address, the session UUID of a
    session address, the specification UUID of a scope specification,
    contract specification or record specification address, and as name
    hash of a record or record specification address the first 16 bytes of
    the SHA-256 of the normalized name. *)
Theorem constructed_components (u s : uuid.UUID) (name : string) :
  (∃ a, ScopeMetadataAddress u = Returns a
        ∧ MetadataAddress.ScopeUUID a = Returns (u, None)
        ∧ MetadataAddress.PrimaryUUID a = Returns (u, None))
  ∧ (∃ a, SessionMetadataAddress u s = Returns a
          ∧ MetadataAddress.ScopeUUID a = Returns (u, None)
          ∧ MetadataAddress.SessionUUID a = Returns (s, None))
  ∧ (∃ a, ScopeSpecMetadataAddress u = Returns a
          ∧ MetadataAddress.ScopeSpecUUID a = Returns (u, None))
  ∧ (∃ a, ContractSpecMetadataAddress u = Returns a
          ∧ MetadataAddress.ContractSpecUUID a = Returns (u, None))
  ∧ (normalizedName name ≠ "" →
     (∃ a, RecordMetadataAddress u name = Returns a
           ∧ MetadataAddress.ScopeUUID a = Returns (u, None)
           ∧ MetadataAddress.NameHash a
             = Returns (take 16 (Sum256 (list_byte_of_string
                                           (normalizedName name))), None))
     ∧ (∃ a, RecordSpecMetadataAddress u name = Returns a
             ∧ MetadataAddress.ContractSpecUUID a = Returns (u, None)
             ∧ MetadataAddress.NameHash a
               = Returns (take 16 (Sum256 (list_byte_of_string
                                             (normalizedName name))), None))).
Proof.
  pose proof (uuid.raw_size u) as Hu. pose proof (uuid.raw_size s) as Hs.
  pose proof (hash_size (normalizedName name)) as Hh.
  assert (Htake : ∀ tl : bytes, take 16 (uuid.raw u ++ tl) = uuid.raw u).
  { intros tl. rewrite <- Hu. apply take_app_length. }
  assert (Hdrop : ∀ tl : bytes, drop 16 (uuid.raw u ++ tl) = tl).
  { intros tl. rewrite <- Hu. apply drop_app_length. }
  assert (Hall : take 16 (uuid.raw u) = uuid.raw u)
    by (rewrite firstn_all2 by lia; done).
  split_and!.
  - eexists. split; [reflexivity |]. unfold ScopeKeyPrefix. cbn [app].
    split.
    + apply ScopeUUID_ok_iff. exists ScopeTag, (uuid.raw u).
      split_and!; [done | set_solver | lia | done].
    + apply PrimaryUUID_ok_iff. exists ScopeTag, (uuid.raw u).
      split_and!; [done | set_solver | lia | done].
  - eexists. split; [reflexivity |]. unfold SessionKeyPrefix. cbn [app].
    split.
    + apply ScopeUUID_ok_iff. exists SessionTag, (uuid.raw u ++ uuid.raw s).
      split_and!; [done | set_solver | rewrite length_app; lia |].
      by rewrite Htake.
    + apply SessionUUID_ok_iff. exists (uuid.raw u ++ uuid.raw s).
      split_and!; [done | rewrite length_app; lia |].
      rewrite Hdrop. by rewrite firstn_all2 by lia.
  - eexists. split; [reflexivity |]. unfold ScopeSpecificationKeyPrefix.
    cbn [app]. apply ScopeSpecUUID_ok_iff. exists (uuid.raw u).
    split_and!; [done | lia | done].
  - eexists. split; [reflexivity |]. unfold ContractSpecificationKeyPrefix.
    cbn [app]. apply ContractSpecUUID_ok_iff.
    exists ContractSpecificationTag, (uuid.raw u).
    split_and!; [done | set_solver | lia | done].
  - intros Hn. split.
    + rewrite RecordMetadataAddress_eq by done.
      eexists. split; [reflexivity |]. split.
      * apply ScopeUUID_ok_iff. eexists RecordTag, _.
        split_and!; [done | set_solver | rewrite length_app, Hu, Hh; lia |].
        by rewrite Htake.
      * apply NameHash_ok_iff. eexists RecordTag, _.
        split_and!; [done | set_solver | rewrite length_app, Hu, Hh; lia |].
        rewrite Hdrop. by rewrite take_take.
    + rewrite RecordSpecMetadataAddress_eq by done.
      eexists. split; [reflexivity |]. split.
      * apply ContractSpecUUID_ok_iff. eexists RecordSpecificationTag, _.
        split_and!; [done | set_solver | rewrite length_app, Hu, Hh; lia |].
        by rewrite Htake.
      * apply NameHash_ok_iff. eexists RecordSpecificationTag, _.
        split_and!; [done | set_solver | rewrite length_app, Hu, Hh; lia |].
        rewrite Hdrop. by rewrite take_take.
Qed.

End Constructed.

(** ** Derived addresses *)

Section Derived.
Context `{K : Keys} `{U : Unicode} `{H : Sha256}.

(** The UUID made of 16 bytes. *)
Lemma UUID_of_bytes (p : bytes) :
  length p = 16 → ∃ u, uuid.raw u = p.
Proof. intros Hp. by exists (uuid.MkUUID p Hp). Qed.

Lemma family_UUID (ma : bytes) (fam : list byte)
  (get : bytes → outcome (uuid.UUID * option error)) :
  (∀ u, get ma = Returns (u, None)
        ↔ ∃ b rest, ma = b :: rest ∧ b ∈ fam ∧ 16 ≤ length rest
                    ∧ uuid.raw u = take 16 rest) →
  (∃ r, get ma = Returns r) →
  (∃ u b rest, get ma = Returns (u, None) ∧ ma = b :: rest ∧ b ∈ fam
               ∧ 16 ≤ length rest ∧ uuid.raw u = take 16 rest)
  ∨ ((∃ u e, get ma = Returns (u, Some e))
     ∧ ¬ ∃ b rest, ma = b :: rest ∧ b ∈ fam ∧ 16 ≤ length rest).
Proof.
  intros Hiff [[u [e |]] Hr].
  - right. split; [by eauto |].
    intros (b & rest & Hma & Hb & Hlen).
    destruct (UUID_of_bytes (take 16 rest)) as [u' Hu'].
    { rewrite length_take. lia. }
    assert (Hg : get ma = Returns (u', None)) by (apply Hiff; eauto 10).
    congruence.
  - left. apply Hiff in Hr as Hr'.
    destruct Hr' as (b & rest & Hma & Hb & Hlen & Hu). eauto 10.
Qed.

Lemma ScopeUUID_cases (ma : bytes) :
  (∃ u b rest, MetadataAddress.ScopeUUID ma = Returns (u, None)
               ∧ ma = b :: rest ∧ b ∈ [ScopeTag; SessionTag; RecordTag]
               ∧ 16 ≤ length rest ∧ uuid.raw u = take 16 rest)
  ∨ ((∃ u e, MetadataAddress.ScopeUUID ma = Returns (u, Some e))
     ∧ ¬ ∃ b rest, ma = b :: rest ∧ b ∈ [ScopeTag; SessionTag; RecordTag]
                   ∧ 16 ≤ length rest).
Proof.
  apply family_UUID; [apply ScopeUUID_ok_iff | apply ScopeUUID_returns].
Qed.

Lemma ContractSpecUUID_cases (ma : bytes) :
  (∃ u b rest, MetadataAddress.ContractSpecUUID ma = Returns (u, None)
               ∧ ma = b :: rest
               ∧ b ∈ [ContractSpecificationTag; RecordSpecificationTag]
               ∧ 16 ≤ length rest ∧ uuid.raw u = take 16 rest)
  ∨ ((∃ u e, MetadataAddress.ContractSpecUUID ma = Returns (u, Some e))
     ∧ ¬ ∃ b rest, ma = b :: rest
                   ∧ b ∈ [ContractSpecificationTag; RecordSpecificationTag]
                   ∧ 16 ≤ length rest).
Proof.
  apply family_UUID;
    [apply ContractSpecUUID_ok_iff | apply ContractSpecUUID_returns].
Qed.

Lemma AsScopeAddress_ok_iff (ma a : bytes) :
  MetadataAddress.AsScopeAddress ma = Returns (a, None)
  ↔ ∃ b rest, ma = b :: rest ∧ b ∈ [ScopeTag; SessionTag; RecordTag]
              ∧ 16 ≤ length rest ∧ a = ScopeTag :: take 16 rest.
Proof.
  unfold MetadataAddress.AsScopeAddress.
  destruct (ScopeUUID_cases ma)
    as [(u & b & rest & -> & -> & Hb & Hlen & Hu) | [(u & e & ->) Hno]];
    unfold mbind, outcome_bind, mret, outcome_ret, ScopeMetadataAddress,
      ScopeKeyPrefix; cbn [uuid.MarshalBinary app].
  - rewrite Hu. split.
    + intros [= <-]. by exists b, rest.
    + by intros (b' & rest' & [= <- <-] & _ & _ & ->).
  - split; [done |]. intros (b & rest & ? & ? & ? & _). destruct Hno. eauto.
Qed.

Lemma AsContractSpecAddress_ok_iff (ma a : bytes) :
  MetadataAddress.AsContractSpecAddress ma = Returns (a, None)
  ↔ ∃ b rest, ma = b :: rest
              ∧ b ∈ [ContractSpecificationTag; RecordSpecificationTag]
              ∧ 16 ≤ length rest
              ∧ a = ContractSpecificationTag :: take 16 rest.
Proof.
  unfold MetadataAddress.AsContractSpecAddress.
  destruct (ContractSpecUUID_cases ma)
    as [(u & b & rest & -> & -> & Hb & Hlen & Hu) | [(u & e & ->) Hno]];
    unfold mbind, outcome_bind, mret, outcome_ret,
      ContractSpecMetadataAddress, ContractSpecificationKeyPrefix;
    cbn [uuid.MarshalBinary app].
  - rewrite Hu. split.
    + intros [= <-]. by exists b, rest.
    + by intros (b' & rest' & [= <- <-] & _ & _ & ->).
  - split; [done |]. intros (b & rest & ? & ? & ? & _). destruct Hno. eauto.
Qed.

Lemma AsSessionAddress_ok_iff (ma a : bytes) (s : uuid.UUID) :
  MetadataAddress.AsSessionAddress ma s = Returns (a, None)
  ↔ ∃ b rest, ma = b :: rest ∧ b ∈ [ScopeTag; SessionTag; RecordTag]
              ∧ 16 ≤ length rest
              ∧ a = SessionTag :: take 16 rest ++ uuid.raw s.
Proof.
  unfold MetadataAddress.AsSessionAddress.
  destruct (ScopeUUID_cases ma)
    as [(u & b & rest & -> & -> & Hb & Hlen & Hu) | [(u & e & ->) Hno]];
    unfold mbind, outcome_bind, mret, outcome_ret, SessionMetadataAddress,
      SessionKeyPrefix; cbn [uuid.MarshalBinary app].
  - rewrite Hu. split.
    + intros [= <-]. by exists b, rest.
    + by intros (b' & rest' & [= <- <-] & _ & _ & ->).
  - split; [done |]. intros (b & rest & ? & ? & ? & _). destruct Hno. eauto.
Qed.

Lemma normalizedName_empty : normalizedName "" = "".
Proof. reflexivity. Qed.

Lemma RecordMetadataAddress_blank (u : uuid.UUID) (name : string) :
  normalizedName name = "" →
  RecordMetadataAddress u name
  = Panics (PanicString "missing name value for record metadata address").
Proof.
  unfold normalizedName, RecordMetadataAddress. intros ->. reflexivity.
Qed.

Lemma RecordSpecMetadataAddress_blank (u : uuid.UUID) (name : string) :
  normalizedName name = "" →
  RecordSpecMetadataAddress u name
  = Panics (PanicString
              "missing name value for record spec metadata address").
Proof.
  unfold normalizedName, RecordSpecMetadataAddress. intros ->. reflexivity.
Qed.

Lemma AsRecordAddress_ok_iff (ma a : bytes) (name : string) :
  MetadataAddress.AsRecordAddress ma name = Returns (a, None)
  ↔ ∃ b rest, ma = b :: rest ∧ b ∈ [ScopeTag; SessionTag; RecordTag]
              ∧ 16 ≤ length rest ∧ normalizedName name ≠ ""
              ∧ a = RecordTag :: take 16 rest
                    ++ take 16 (Sum256 (list_byte_of_string
                                          (normalizedName name))).
Proof.
  unfold MetadataAddress.AsRecordAddress.
  destruct (ScopeUUID_cases ma)
    as [(u & b & rest & -> & -> & Hb & Hlen & Hu) | [(u & e & ->) Hno]];
    unfold mbind at 1, outcome_bind at 1.
  - destruct (decide (String.length name = 0)) as [Hz | Hnz].
    { split; [done |]. intros (_ & _ & _ & _ & _ & Hn & _).
      destruct name; [| done]. by destruct Hn. }
    destruct (decide (normalizedName name = "")) as [Hblank | Hn].
    + rewrite RecordMetadataAddress_blank by done. split; [done |].
      by intros (_ & _ & _ & _ & _ & Hn & _).
    + rewrite RecordMetadataAddress_eq by done.
      unfold mbind, outcome_bind, mret, outcome_ret. rewrite Hu. split.
      * intros [= <-]. by exists b, rest.
      * by intros (b' & rest' & [= <- <-] & _ & _ & _ & ->).
  - split; [done |]. intros (b & rest & ? & ? & ? & _). destruct Hno. eauto.
Qed.

Lemma AsRecordSpecAddress_ok_iff (ma a : bytes) (name : string) :
  MetadataAddress.AsRecordSpecAddress ma name = Returns (a, None)
  ↔ ∃ b rest, ma = b :: rest
              ∧ b ∈ [ContractSpecificationTag; RecordSpecificationTag]
              ∧ 16 ≤ length rest ∧ normalizedName name ≠ ""
              ∧ a = RecordSpecificationTag :: take 16 rest
                    ++ take 16 (Sum256 (list_byte_of_string
                                          (normalizedName name))).
Proof.
  unfold MetadataAddress.AsRecordSpecAddress.
  destruct (ContractSpecUUID_cases ma)
    as [(u & b & rest & -> & -> & Hb & Hlen & Hu) | [(u & e & ->) Hno]];
    unfold mbind at 1, outcome_bind at 1.
  - destruct (decide (normalizedName name = "")) as [Hblank | Hn].
    + rewrite RecordSpecMetadataAddress_blank by done. split; [done |].
      by intros (_ & _ & _ & _ & _ & Hn & _).
    + rewrite RecordSpecMetadataAddress_eq by done.
      unfold mbind, outcome_bind, mret, outcome_ret. rewrite Hu. split.
      * intros [= <-]. by exists b, rest.
      * by intros (b' & rest' & [= <- <-] & _ & _ & _ & ->).
  - split; [done |]. intros (b & rest & ? & ? & ? & _). destruct Hno. eauto.
Qed.

Lemma take16_app (rest tl : bytes) :
  16 ≤ length rest → take 16 (take 16 rest ++ tl) = take 16 rest.
Proof.
  intros Hlen. rewrite take_app_le by (rewrite length_take; lia).
  rewrite take_take. done.
Qed.

Lemma scope_family_ScopeTag : ScopeTag ∈ [ScopeTag; SessionTag; RecordTag].
Proof. set_solver. Qed.

Lemma is_type (ma : bytes) (p : string) (tag : byte) (n : nat) :
  (formatOf ma = (p, None) ↔ hasLayout tag n ma) →
  hasLayout tag n ma →
  ('(hrp, err) ← VerifyMetadataAddressFormat ma;
   mret (bool_decide (err = None) && bool_decide (hrp = p)))
  = Returns true.
Proof.
  intros Hiff Hl. rewrite type_test_eq. f_equal.
  apply bool_decide_eq_true. by apply Hiff.
Qed.

(** X8. [AsScopeAddress] and [AsContractSpecAddress] return on every byte
    sequence. They return an address exactly when the first byte is a tag of
    the family (scope, session, record; contract specification, record
    specification) and at least 16 bytes follow it, whatever the total
    length: the address is the parent tag followed by those 16 bytes. It is
    a valid address of the parent type, and the method maps it to itself. *)
Theorem parent_address_exact (ma a : bytes) :
  (MetadataAddress.AsScopeAddress ma = Returns (a, None)
   ↔ ∃ b rest, ma = b :: rest ∧ b ∈ [ScopeTag; SessionTag; RecordTag]
               ∧ 16 ≤ length rest ∧ a = ScopeTag :: take 16 rest)
  ∧ (MetadataAddress.AsContractSpecAddress ma = Returns (a, None)
     ↔ ∃ b rest, ma = b :: rest
                 ∧ b ∈ [ContractSpecificationTag; RecordSpecificationTag]
                 ∧ 16 ≤ length rest
                 ∧ a = ContractSpecificationTag :: take 16 rest)
  ∧ (MetadataAddress.AsScopeAddress ma = Returns (a, None) →
     MetadataAddress.IsScopeAddress a = Returns true
     ∧ MetadataAddress.AsScopeAddress a = Returns (a, None))
  ∧ (MetadataAddress.AsContractSpecAddress ma = Returns (a, None) →
     MetadataAddress.IsContractSpecificationAddress a = Returns true
     ∧ MetadataAddress.AsContractSpecAddress a = Returns (a, None))
  ∧ (∃ r, MetadataAddress.AsScopeAddress ma = Returns r)
  ∧ (∃ r, MetadataAddress.AsContractSpecAddress ma = Returns r).
Proof.
  destruct (formatOf_layout a) as (L1 & _ & _ & _ & L5 & _).
  split_and!.
  - apply AsScopeAddress_ok_iff.
  - apply AsContractSpecAddress_ok_iff.
  - intros (b & rest & -> & Hb & Hlen & ->)%AsScopeAddress_ok_iff.
    assert (Hl : length (take 16 rest) = 16) by (rewrite length_take; lia).
    split.
    + apply (is_type _ _ _ _ L1). by eexists.
    + apply AsScopeAddress_ok_iff. eexists _, _.
      split_and!; [done | set_solver | lia |]. by rewrite take_take.
  - intros (b & rest & -> & Hb & Hlen & ->)%AsContractSpecAddress_ok_iff.
    assert (Hl : length (take 16 rest) = 16) by (rewrite length_take; lia).
    split.
    + apply (is_type _ _ _ _ L5). by eexists.
    + apply AsContractSpecAddress_ok_iff. eexists _, _.
      split_and!; [done | set_solver | lia |]. by rewrite take_take.
  - apply AsScopeAddress_returns.
  - apply AsContractSpecAddress_returns.
Qed.

(** X9. [AsSessionAddress], [AsRecordAddress] and [AsRecordSpecAddress] return
    an address exactly when the first byte is a tag of the family and at
    least 16 bytes follow it (and, for the two with a name, the normalized
    name is not empty): the address is the tag of the child type, those 16
    bytes, and the session UUID or the first 16 bytes of the SHA-256 of the
    normalized name. It is a valid address of the child type, and it has
    the same parent address as the address it was derived from. *)
Theorem child_address_exact (ma a : bytes) (s : uuid.UUID) (name : string) :
  (MetadataAddress.AsSessionAddress ma s = Returns (a, None)
   ↔ ∃ b rest, ma = b :: rest ∧ b ∈ [ScopeTag; SessionTag; RecordTag]
               ∧ 16 ≤ length rest
               ∧ a = SessionTag :: take 16 rest ++ uuid.raw s)
  ∧ (MetadataAddress.AsRecordAddress ma name = Returns (a, None)
     ↔ ∃ b rest, ma = b :: rest ∧ b ∈ [ScopeTag; SessionTag; RecordTag]
                 ∧ 16 ≤ length rest ∧ normalizedName name ≠ ""
                 ∧ a = RecordTag :: take 16 rest
                       ++ take 16 (Sum256 (list_byte_of_string
                                             (normalizedName name))))
  ∧ (MetadataAddress.AsRecordSpecAddress ma name = Returns (a, None)
     ↔ ∃ b rest, ma = b :: rest
                 ∧ b ∈ [ContractSpecificationTag; RecordSpecificationTag]
                 ∧ 16 ≤ length rest ∧ normalizedName name ≠ ""
                 ∧ a = RecordSpecificationTag :: take 16 rest
                       ++ take 16 (Sum256 (list_byte_of_string
                                             (normalizedName name))))
  ∧ (MetadataAddress.AsSessionAddress ma s = Returns (a, None) →
     MetadataAddress.IsSessionAddress a = Returns true
     ∧ MetadataAddress.SessionUUID a = Returns (s, None)
     ∧ MetadataAddress.AsScopeAddress a = MetadataAddress.AsScopeAddress ma)
  ∧ (MetadataAddress.AsRecordAddress ma name = Returns (a, None) →
     MetadataAddress.IsRecordAddress a = Returns true
     ∧ MetadataAddress.AsScopeAddress a = MetadataAddress.AsScopeAddress ma)
  ∧ (MetadataAddress.AsRecordSpecAddress ma name = Returns (a, None) →
     MetadataAddress.IsRecordSpecificationAddress a = Returns true
     ∧ MetadataAddress.AsContractSpecAddress a
       = MetadataAddress.AsContractSpecAddress ma).
Proof.
  destruct (formatOf_layout a) as (_ & L2 & L3 & _ & _ & L6).
  pose proof (hash_size (normalizedName name)) as Hh.
  pose proof (uuid.raw_size s) as Hs.
  split_and!.
  - apply AsSessionAddress_ok_iff.
  - apply AsRecordAddress_ok_iff.
  - apply AsRecordSpecAddress_ok_iff.
  - intros (b & rest & -> & Hb & Hlen & ->)%AsSessionAddress_ok_iff.
    assert (Hl : length (take 16 rest) = 16) by (rewrite length_take; lia).
    split_and!.
    + apply (is_type _ _ _ _ L2). eexists. split; [done |].
      rewrite length_app. lia.
    + apply SessionUUID_ok_iff. eexists. split_and!; [done | |].
      * rewrite length_app. lia.
      * rewrite drop_app_length' by done.
        by rewrite firstn_all2 by lia.
    + transitivity (Returns (A := bytes * option error)
                      (ScopeTag :: take 16 rest, None)).
      * apply AsScopeAddress_ok_iff. eexists _, _.
        split_and!; [done | set_solver | rewrite length_app; lia |].
        by rewrite take16_app.
      * symmetry. apply AsScopeAddress_ok_iff. by eexists _, _.
  - intros (b & rest & -> & Hb & Hlen & Hn & ->)%AsRecordAddress_ok_iff.
    assert (Hl : length (take 16 rest) = 16) by (rewrite length_take; lia).
    split.
    + apply (is_type _ _ _ _ L3). eexists. split; [done |].
      rewrite length_app, Hl, Hh. done.
    + transitivity (Returns (A := bytes * option error)
                      (ScopeTag :: take 16 rest, None)).
      * apply AsScopeAddress_ok_iff. eexists _, _.
        split_and!; [done | set_solver | rewrite length_app, Hl, Hh; lia |].
        by rewrite take16_app.
      * symmetry. apply AsScopeAddress_ok_iff. by eexists _, _.
  - intros (b & rest & -> & Hb & Hlen & Hn & ->)%AsRecordSpecAddress_ok_iff.
    assert (Hl : length (take 16 rest) = 16) by (rewrite length_take; lia).
    split.
    + apply (is_type _ _ _ _ L6). eexists. split; [done |].
      rewrite length_app, Hl, Hh. done.
    + transitivity (Returns (A := bytes * option error)
                      (ContractSpecificationTag :: take 16 rest, None)).
      * apply AsContractSpecAddress_ok_iff. eexists _, _.
        split_and!; [done | set_solver | rewrite length_app, Hl, Hh; lia |].
        by rewrite take16_app.
      * symmetry. apply AsContractSpecAddress_ok_iff. by eexists _, _.
Qed.

(** X10. [AsRecordAddress] tests the name before it is normalized: with a name
    that is not empty but is empty once trimmed (such as one space), on an
    address it accepts, it reaches the [panic] of [RecordMetadataAddress];
    so does [MustGetAsRecordAddress]. *)
Theorem AsRecordAddress_blank_name_panics (b : byte) (rest : bytes)
  (name : string) :
  b ∈ [ScopeTag; SessionTag; RecordTag] →
  16 ≤ length rest →
  name ≠ "" →
  normalizedName name = "" →
  MetadataAddress.AsRecordAddress (b :: rest) name
  = Panics (PanicString "missing name value for record metadata address")
  ∧ MetadataAddress.MustGetAsRecordAddress (b :: rest) name
    = Panics (PanicString "missing name value for record metadata address").
Proof.
  intros Hb Hlen Hne Hblank.
  assert (Has : MetadataAddress.AsRecordAddress (b :: rest) name
                = Panics (PanicString
                            "missing name value for record metadata address")).
  { unfold MetadataAddress.AsRecordAddress.
    rewrite ScopeUUID_family by done.
    destruct (FromBytes_size16 (take 16 rest)) as [Herr _].
    { rewrite length_take. lia. }
    destruct (uuid.FromBytes (take 16 rest)) as [u e]. simpl in Herr. subst e.
    unfold mbind at 1, outcome_bind at 1.
    rewrite decide_False by (by destruct name).
    by rewrite RecordMetadataAddress_blank. }
  split; [done |]. unfold MetadataAddress.MustGetAsRecordAddress.
  by rewrite Has.
Qed.

Lemma must_iff (m : outcome (bytes * option error)) (a : bytes) :
  ('(retval, err) ← m;
   match err with
   | Some err => Panics (PanicError err)
   | None => mret retval
   end) = Returns a
  ↔ m = Returns (a, None).
Proof.
  destruct m as [[r [e |]] | p];
    unfold mbind, outcome_bind, mret, outcome_ret; split; intros [= ];
    by subst.
Qed.

(** X11. The [MustGetAs...] methods return an address exactly when the method
    they wrap returns it without an error. On an address outside the family
    (empty, another tag, or fewer than 17 bytes) they panic with the error
    of the UUID accessor, and [MustGetAsRecordAddress] with the empty name
    panics with the missing-name error. *)
Theorem must_variants_return_iff (ma a : bytes) (s : uuid.UUID)
  (name : string) :
  (MetadataAddress.MustGetAsScopeAddress ma = Returns a
   ↔ MetadataAddress.AsScopeAddress ma = Returns (a, None))
  ∧ (MetadataAddress.MustGetAsSessionAddress ma s = Returns a
     ↔ MetadataAddress.AsSessionAddress ma s = Returns (a, None))
  ∧ (MetadataAddress.MustGetAsRecordAddress ma name = Returns a
     ↔ MetadataAddress.AsRecordAddress ma name = Returns (a, None))
  ∧ (MetadataAddress.MustGetAsRecordSpecAddress ma name = Returns a
     ↔ MetadataAddress.AsRecordSpecAddress ma name = Returns (a, None))
  ∧ (MetadataAddress.MustGetAsContractSpecAddress ma = Returns a
     ↔ MetadataAddress.AsContractSpecAddress ma = Returns (a, None))
  ∧ ((¬ ∃ b rest, ma = b :: rest ∧ b ∈ [ScopeTag; SessionTag; RecordTag]
                  ∧ 16 ≤ length rest) →
     ∃ u e, MetadataAddress.ScopeUUID ma = Returns (u, Some e)
            ∧ MetadataAddress.MustGetAsScopeAddress ma
              = Panics (PanicError e)
            ∧ MetadataAddress.MustGetAsSessionAddress ma s
              = Panics (PanicError e)
            ∧ MetadataAddress.MustGetAsRecordAddress ma name
              = Panics (PanicError e))
  ∧ ((¬ ∃ b rest, ma = b :: rest
                  ∧ b ∈ [ContractSpecificationTag; RecordSpecificationTag]
                  ∧ 16 ≤ length rest) →
     ∃ u e, MetadataAddress.ContractSpecUUID ma = Returns (u, Some e)
            ∧ MetadataAddress.MustGetAsContractSpecAddress ma
              = Panics (PanicError e)
            ∧ MetadataAddress.MustGetAsRecordSpecAddress ma name
              = Panics (PanicError e))
  ∧ MetadataAddress.MustGetAsScopeAddress []
    = Panics (PanicError (ErrNoScopeUUID []))
  ∧ MetadataAddress.MustGetAsContractSpecAddress []
    = Panics (PanicError (ErrNoContractSpecUUID []))
  ∧ ((∃ b rest, ma = b :: rest ∧ b ∈ [ScopeTag; SessionTag; RecordTag]
                ∧ 16 ≤ length rest) →
     MetadataAddress.MustGetAsRecordAddress ma ""
     = Panics (PanicError ErrMissingRecordName)).
Proof.
  split_and!; try apply must_iff; try reflexivity.
  - intros Hno.
    destruct (ScopeUUID_cases ma)
      as [(u & b & rest & _ & -> & Hb & Hlen & _) | [(u & e & Hu) _]].
    { destruct Hno. eauto. }
    exists u, e. split; [done |].
    unfold MetadataAddress.MustGetAsScopeAddress,
      MetadataAddress.MustGetAsSessionAddress,
      MetadataAddress.MustGetAsRecordAddress,
      MetadataAddress.AsScopeAddress, MetadataAddress.AsSessionAddress,
      MetadataAddress.AsRecordAddress.
    rewrite Hu. done.
  - intros Hno.
    destruct (ContractSpecUUID_cases ma)
      as [(u & b & rest & _ & -> & Hb & Hlen & _) | [(u & e & Hu) _]].
    { destruct Hno. eauto. }
    exists u, e. split; [done |].
    unfold MetadataAddress.MustGetAsContractSpecAddress,
      MetadataAddress.MustGetAsRecordSpecAddress,
      MetadataAddress.AsContractSpecAddress,
      MetadataAddress.AsRecordSpecAddress.
    rewrite Hu. done.
  - intros (b & rest & -> & Hb & Hlen).
    unfold MetadataAddress.MustGetAsRecordAddress,
      MetadataAddress.AsRecordAddress.
    rewrite ScopeUUID_family by done.
    destruct (FromBytes_size16 (take 16 rest)) as [Herr _].
    { rewrite length_take. lia. }
    destruct (uuid.FromBytes (take 16 rest)) as [u e]. simpl in Herr. subst e.
    reflexivity.
Qed.

End Derived.

(** ** Iterator prefixes and the derived addresses *)

Section IteratorCoverage.
Context `{K : Keys} `{U : Unicode} `{H : Sha256}.

Lemma iterator_prefix_ok_iff (ma spare p : bytes) (fam : list byte)
  (tag : byte) (e : error) :
  (if length ma <? 1 then mret ([tag], None)
   else if negb (MetadataAddress.isTypeOneOf ma ((λ t, [t]) <$> fam))
        then mret ([], Some e)
        else q ← slice_cap ma spare 1 17; mret ([tag] ++ q, None))
  = Returns (p, None)
  ↔ (ma = [] ∧ p = [tag])
    ∨ ∃ b rest, ma = b :: rest ∧ b ∈ fam
                ∧ 16 ≤ length rest + length spare
                ∧ p = tag :: take 16 (rest ++ spare).
Proof.
  destruct ma as [| b rest].
  { cbn. split.
    - intros [= <-]. by left.
    - intros [[_ ->] | (? & ? & ? & _)]; done. }
  cbn [length]. rewrite (proj2 (Nat.ltb_ge _ 1)) by lia.
  rewrite isTypeOneOf_cons. case_bool_decide as Hb; cbn [negb].
  - destruct (decide (16 ≤ length rest + length spare)) as [Hlen | Hlen].
    + rewrite slice_cap_reaches by (cbn [length]; lia).
      unfold mbind, outcome_bind, mret, outcome_ret. cbn [Nat.sub drop app].
      split.
      * intros [= <-]. right. by exists b, rest.
      * intros [[? _] | (b' & rest' & [= <- <-] & _ & _ & ->)]; done.
    + rewrite slice_cap_beyond by (cbn [length]; lia).
      split; [done |].
      intros [[? _] | (b' & rest' & [= <- <-] & _ & ? & _)]; [done | lia].
  - split; [done |].
    intros [[? _] | (b' & rest' & [= <- <-] & ? & _)]; done.
Qed.

Lemma prefix_selects (ma spare p a : bytes) (fam : list byte)
  (ctag ptag : byte) (parent : bytes → outcome (bytes * option error)) :
  (∀ x y, parent x = Returns (y, None)
          ↔ ∃ b rest, x = b :: rest ∧ b ∈ fam ∧ 16 ≤ length rest
                      ∧ y = ptag :: take 16 rest) →
  ctag ∈ fam →
  (ma = [] ∧ p = [ctag])
  ∨ (∃ b rest, ma = b :: rest ∧ b ∈ fam ∧ 16 ≤ length rest + length spare
               ∧ p = ctag :: take 16 (rest ++ spare)) →
  hasLayout ctag 32 a →
  (p `prefix_of` a
   ↔ ma = [] ∨ take 16 (drop 1 a) = take 16 (drop 1 (ma ++ spare)))
  ∧ (length ma = 0 ∨ 17 ≤ length ma →
     p `prefix_of` a ↔ ma = [] ∨ parent a = parent ma)
  ∧ (0 < length ma < 17 → ∀ x, parent ma ≠ Returns (x, None)).
Proof.
  intros Hok Hc Hp (r & -> & Hr).
  destruct Hp as [[-> ->] | (b & rest & -> & Hb & Hlen & ->)].
  { split_and!.
    - split; [by left |]. intros _. by exists r.
    - intros _. split; [by left |]. intros _. by exists r.
    - cbn [length]. lia. }
  cbn [app drop length].
  assert (Hcore : (ctag :: take 16 (rest ++ spare)) `prefix_of` (ctag :: r)
                  ↔ take 16 r = take 16 (rest ++ spare)).
  { split.
    - intros [k Hk]. injection Hk as ->.
      by rewrite take_app_length'
        by (rewrite length_take, length_app; lia).
    - intros Heq. exists (drop 16 r). rewrite <- Heq.
      cbn [app]. by rewrite take_drop. }
  split_and!.
  - rewrite Hcore. split; [by right | by intros [? | ?]].
  - intros [Hz | Hge]; [lia |].
    assert (Ha : parent (ctag :: r) = Returns (ptag :: take 16 r, None)).
    { apply Hok. eexists _, _. split_and!; [done | done | lia | done]. }
    assert (Hm : parent (b :: rest) = Returns (ptag :: take 16 rest, None)).
    { apply Hok. eexists _, _. split_and!; [done | done | lia | done]. }
    rewrite Ha, Hm, Hcore. rewrite (take_app_le rest) by lia. split.
    + intros Heq. right. by rewrite Heq.
    + by intros [? | [= Heq]].
  - intros [_ Hlt] x (b' & rest' & [= <- <-] & _ & Hl & _)%Hok. lia.
Qed.

(** X29. When an iterator-prefix method returns a prefix for an address, a
    store iteration with it selects, among the valid addresses of the child
    type, exactly those whose bytes 1 to 17 are bytes 1 to 17 of the
    backing array of the address (all of them for the empty address). For
    an address that is empty or has at least 17 bytes these are the
    children with the same parent address as the address: sessions and
    records by [AsScopeAddress], record specifications by
    [AsContractSpecAddress]. A shorter address for which a prefix is
    returned (its capacity reaches 17) has no parent address. The addresses
    that [AsSessionAddress], [AsRecordAddress] and [AsRecordSpecAddress]
    derive from the address start with the prefix. *)
Theorem iterator_prefix_selects_children (ma spare p a : bytes)
  (s : uuid.UUID) (name : string) :
  (MetadataAddress.ScopeSessionIteratorPrefix ma spare = Returns (p, None) →
   MetadataAddress.IsSessionAddress a = Returns true →
   (p `prefix_of` a
    ↔ ma = [] ∨ take 16 (drop 1 a) = take 16 (drop 1 (ma ++ spare)))
   ∧ (length ma = 0 ∨ 17 ≤ length ma →
      p `prefix_of` a
      ↔ ma = [] ∨ MetadataAddress.AsScopeAddress a
                  = MetadataAddress.AsScopeAddress ma)
   ∧ (0 < length ma < 17 →
      ∀ x, MetadataAddress.AsScopeAddress ma ≠ Returns (x, None)))
  ∧ (MetadataAddress.ScopeRecordIteratorPrefix ma spare = Returns (p, None) →
     MetadataAddress.IsRecordAddress a = Returns true →
     (p `prefix_of` a
      ↔ ma = [] ∨ take 16 (drop 1 a) = take 16 (drop 1 (ma ++ spare)))
     ∧ (length ma = 0 ∨ 17 ≤ length ma →
        p `prefix_of` a
        ↔ ma = [] ∨ MetadataAddress.AsScopeAddress a
                    = MetadataAddress.AsScopeAddress ma)
     ∧ (0 < length ma < 17 →
        ∀ x, MetadataAddress.AsScopeAddress ma ≠ Returns (x, None)))
  ∧ (MetadataAddress.ContractSpecRecordSpecIteratorPrefix ma spare
     = Returns (p, None) →
     MetadataAddress.IsRecordSpecificationAddress a = Returns true →
     (p `prefix_of` a
      ↔ ma = [] ∨ take 16 (drop 1 a) = take 16 (drop 1 (ma ++ spare)))
     ∧ (length ma = 0 ∨ 17 ≤ length ma →
        p `prefix_of` a
        ↔ ma = [] ∨ MetadataAddress.AsContractSpecAddress a
                    = MetadataAddress.AsContractSpecAddress ma)
     ∧ (0 < length ma < 17 →
        ∀ x, MetadataAddress.AsContractSpecAddress ma ≠ Returns (x, None)))
  ∧ (MetadataAddress.ScopeSessionIteratorPrefix ma spare = Returns (p, None) →
     MetadataAddress.AsSessionAddress ma s = Returns (a, None) →
     p `prefix_of` a)
  ∧ (MetadataAddress.ScopeRecordIteratorPrefix ma spare = Returns (p, None) →
     MetadataAddress.AsRecordAddress ma name = Returns (a, None) →
     p `prefix_of` a)
  ∧ (MetadataAddress.ContractSpecRecordSpecIteratorPrefix ma spare
     = Returns (p, None) →
     MetadataAddress.AsRecordSpecAddress ma name = Returns (a, None) →
     p `prefix_of` a).
Proof.
  destruct (formatOf_layout a) as (_ & L2 & L3 & _ & _ & L6).
  assert (Hderived : ∀ (fam : list byte) (tag b : byte) (rest tl : bytes),
    16 ≤ length rest →
    (b :: rest = [] ∧ p = [tag])
    ∨ (∃ b' rest', b :: rest = b' :: rest' ∧ b' ∈ fam
                   ∧ 16 ≤ length rest' + length spare
                   ∧ p = tag :: take 16 (rest' ++ spare)) →
    p `prefix_of` (tag :: take 16 rest ++ tl)).
  { intros fam tag b rest tl Hlen
      [[? _] | (? & ? & [= <- <-] & _ & _ & ->)]; [done |].
    rewrite take_app_le by lia. by eexists. }
  split_and!; intros Hp Ht.
  - apply (prefix_selects _ _ _ _ [ScopeTag; SessionTag; RecordTag]
             SessionTag ScopeTag).
    + apply AsScopeAddress_ok_iff.
    + set_solver.
    + by apply (iterator_prefix_ok_iff _ _ _
                  [ScopeTag; SessionTag; RecordTag] SessionTag) in Hp.
    + apply L2. unfold MetadataAddress.IsSessionAddress in Ht.
      rewrite type_test_eq in Ht. injection Ht as Ht.
      by apply bool_decide_eq_true in Ht.
  - apply (prefix_selects _ _ _ _ [ScopeTag; SessionTag; RecordTag]
             RecordTag ScopeTag).
    + apply AsScopeAddress_ok_iff.
    + set_solver.
    + by apply (iterator_prefix_ok_iff _ _ _
                  [ScopeTag; SessionTag; RecordTag] RecordTag) in Hp.
    + apply L3. unfold MetadataAddress.IsRecordAddress in Ht.
      rewrite type_test_eq in Ht. injection Ht as Ht.
      by apply bool_decide_eq_true in Ht.
  - apply (prefix_selects _ _ _ _
             [ContractSpecificationTag; RecordSpecificationTag]
             RecordSpecificationTag ContractSpecificationTag).
    + apply AsContractSpecAddress_ok_iff.
    + set_solver.
    + by apply (iterator_prefix_ok_iff _ _ _
                  [ContractSpecificationTag; RecordSpecificationTag]
                  RecordSpecificationTag) in Hp.
    + apply L6. unfold MetadataAddress.IsRecordSpecificationAddress in Ht.
      rewrite type_test_eq in Ht. injection Ht as Ht.
      by apply bool_decide_eq_true in Ht.
  - apply (iterator_prefix_ok_iff _ _ _ [ScopeTag; SessionTag; RecordTag]
             SessionTag) in Hp.
    apply AsSessionAddress_ok_iff in Ht as (b & rest & -> & _ & Hlen & ->).
    by eapply Hderived.
  - apply (iterator_prefix_ok_iff _ _ _ [ScopeTag; SessionTag; RecordTag]
             RecordTag) in Hp.
    apply AsRecordAddress_ok_iff
      in Ht as (b & rest & -> & _ & Hlen & _ & ->).
    by eapply Hderived.
  - apply (iterator_prefix_ok_iff _ _ _
             [ContractSpecificationTag; RecordSpecificationTag]
             RecordSpecificationTag) in Hp.
    apply AsRecordSpecAddress_ok_iff
      in Ht as (b & rest & -> & _ & Hlen & _ & ->).
    by eapply Hderived.
Qed.

End IteratorCoverage.

(** ** GetDetails, field by field *)

Section DetailsExact.
Context `{K : Keys}.

(** The address [AsScopeAddress] returns, if it returns one. *)
Definition asScopeOf (ma : bytes) : option bytes :=
  match ma with
  | [] => None
  | b :: rest =>
      if bool_decide (b ∈ [ScopeTag; SessionTag; RecordTag])
         && (16 <=? length rest)
      then Some (ScopeTag :: take 16 rest) else None
  end.

(** The address [AsContractSpecAddress] returns, if it returns one. *)
Definition asContractSpecOf (ma : bytes) : option bytes :=
  match ma with
  | [] => None
  | b :: rest =>
      if bool_decide (b ∈ [ContractSpecificationTag; RecordSpecificationTag])
         && (16 <=? length rest)
      then Some (ContractSpecificationTag :: take 16 rest) else None
  end.

Lemma AsScopeAddress_asScopeOf (ma : bytes) :
  ∃ r, MetadataAddress.AsScopeAddress ma = Returns r
       ∧ match r.2 with
         | None => asScopeOf ma = Some r.1
         | Some _ => asScopeOf ma = None
         end.
Proof.
  destruct (AsScopeAddress_returns ma) as [[a e] Hr]. exists (a, e).
  split; [done |]. cbn [fst snd]. destruct e as [e |].
  - destruct (asScopeOf ma) as [a' |] eqn:Ha; [| done].
    assert (Hok : MetadataAddress.AsScopeAddress ma = Returns (a', None)).
    { apply AsScopeAddress_ok_iff. unfold asScopeOf in Ha.
      destruct ma as [| b rest]; [done |]. revert Ha.
      destruct (bool_decide _ && _) eqn:Hc; [| done]. intros [= <-].
      apply andb_prop in Hc as [Hb%bool_decide_eq_true Hl%Nat.leb_le].
      by exists b, rest. }
    congruence.
  - apply AsScopeAddress_ok_iff in Hr
      as (b & rest & -> & Hb & Hlen & ->).
    unfold asScopeOf. rewrite bool_decide_true by done.
    by rewrite (proj2 (Nat.leb_le _ _)) by done.
Qed.

Lemma AsContractSpecAddress_asContractSpecOf (ma : bytes) :
  ∃ r, MetadataAddress.AsContractSpecAddress ma = Returns r
       ∧ match r.2 with
         | None => asContractSpecOf ma = Some r.1
         | Some _ => asContractSpecOf ma = None
         end.
Proof.
  destruct (AsContractSpecAddress_returns ma) as [[a e] Hr]. exists (a, e).
  split; [done |]. cbn [fst snd]. destruct e as [e |].
  - destruct (asContractSpecOf ma) as [a' |] eqn:Ha; [| done].
    assert (Hok : MetadataAddress.AsContractSpecAddress ma
                  = Returns (a', None)).
    { apply AsContractSpecAddress_ok_iff. unfold asContractSpecOf in Ha.
      destruct ma as [| b rest]; [done |]. revert Ha.
      destruct (bool_decide _ && _) eqn:Hc; [| done]. intros [= <-].
      apply andb_prop in Hc as [Hb%bool_decide_eq_true Hl%Nat.leb_le].
      by exists b, rest. }
    congruence.
  - apply AsContractSpecAddress_ok_iff in Hr
      as (b & rest & -> & Hb & Hlen & ->).
    unfold asContractSpecOf. rewrite bool_decide_true by done.
    by rewrite (proj2 (Nat.leb_le _ _)) by done.
Qed.

(** The parent address [GetDetails] stores: the two assignments in their
    order. *)
Definition parentOf (ma : bytes) : bytes :=
  let parent :=
    if bool_decide (formatOf ma = (PrefixScope, None)) then []
    else default [] (asScopeOf ma) in
  if bool_decide (formatOf ma = (PrefixContractSpecification, None))
  then parent
  else default parent (asContractSpecOf ma).

(** What [GetDetails] returns, field by field. *)
Definition detailsOf (ma : bytes) : Details.MetadataAddressDetails :=
  let sec := secondaryOf ma in
  let nh := nameHashOf ma in
  let excess := drop (expectedLength ma) ma in
  {| Details.Address := ma;
     Details.AddressPrefix := take 1 ma;
     Details.AddressPrimaryUUID :=
       if 17 <=? length ma then take 16 (drop 1 ma) else [];
     Details.AddressSecondaryUUID :=
       match sec.2 with None => uuid.raw sec.1 | Some _ => [] end;
     Details.AddressNameHash :=
       match nh.2 with None => nh.1 | Some _ => [] end;
     Details.AddressExcess := excess;
     Details.Prefix := detailsPrefix ma;
     Details.PrimaryUUID :=
       if 17 <=? length ma
       then uuid.String (uuid.FromBytes (take 16 (drop 1 ma))).1 else "";
     Details.SecondaryUUID :=
       match sec.2 with None => uuid.String sec.1 | Some _ => "" end;
     Details.NameHashHex :=
       match nh.2 with None => hex.EncodeToString nh.1 | Some _ => "" end;
     Details.NameHashBase64 :=
       match nh.2 with None => base64.EncodeToString nh.1 | Some _ => "" end;
     Details.ExcessHex := hex.EncodeToString excess;
     Details.ExcessBase64 := base64.EncodeToString excess;
     Details.ParentAddress := parentOf ma |}.

Lemma GetDetails_eq (ma : bytes) :
  MetadataAddress.GetDetails ma = Returns (detailsOf ma).
Proof.
  unfold MetadataAddress.GetDetails. rewrite copy_all.
  assert (Hp : (if 1 <=? length ma
                then addressPrefix ← slice ma 0 1;
                     '(prefix, err) ← MetadataAddress.Prefix ma;
                     mret (addressPrefix,
                           match err with
                           | Some _ => hex.EncodeToString addressPrefix
                           | None => prefix
                           end)
                else mret ([], ""))
               = Returns (take 1 ma, detailsPrefix ma)).
  { destruct ma as [| b rest]; [done |].
    cbn [length]. rewrite (proj2 (Nat.leb_le 1 _)) by lia.
    rewrite slice_in_range by (cbn [length]; lia).
    unfold mbind at 1, outcome_bind at 1. rewrite Prefix_eq.
    unfold detailsPrefix.
    destruct (typeOfTag b) as [[[hrp n] c] |]; done. }
  rewrite Hp. clear Hp.
  assert (Hu : (if 17 <=? length ma
                then addressPrimaryUUID ← slice ma 1 17;
                     (let '(uid, _) := uuid.FromBytes addressPrimaryUUID in
                      mret (addressPrimaryUUID, uuid.String uid))
                else mret ([], ""))
               = Returns (if 17 <=? length ma
                          then (take 16 (drop 1 ma),
                                uuid.String
                                  (uuid.FromBytes (take 16 (drop 1 ma))).1)
                          else ([], ""))).
  { destruct (17 <=? length ma) eqn:Hl; [| done].
    apply Nat.leb_le in Hl. rewrite slice_in_range by lia.
    unfold mbind, outcome_bind. cbn [Nat.sub].
    by destruct (uuid.FromBytes _). }
  rewrite Hu. clear Hu.
  rewrite SecondaryUUID_eq, NameHash_eq.
  unfold mbind at 1 2 3 4, outcome_bind at 1 2 3 4.
  assert (He : ∀ n, (if n <? length ma
                     then addressExcess ← slice_from ma n;
                          mret (addressExcess,
                                hex.EncodeToString addressExcess,
                                base64.EncodeToString addressExcess)
                     else mret ([], "", ""))
                    = Returns (drop n ma, hex.EncodeToString (drop n ma),
                               base64.EncodeToString (drop n ma))).
  { intros n. destruct (n <? length ma) eqn:Hl.
    - apply Nat.ltb_lt in Hl. unfold slice_from.
      rewrite slice_in_range by lia.
      unfold mbind, outcome_bind, mret, outcome_ret.
      by rewrite firstn_all2 by (rewrite length_drop; lia).
    - apply Nat.ltb_ge in Hl. by rewrite drop_ge by lia. }
  unfold MetadataAddress.IsScopeAddress,
    MetadataAddress.IsContractSpecificationAddress.
  rewrite !type_test_eq.
  destruct (AsScopeAddress_asScopeOf ma) as ([pa pe] & -> & Hpa).
  destruct (AsContractSpecAddress_asContractSpecOf ma) as ([ca ce] & -> & Hca).
  cbn [fst snd] in Hpa, Hca.
  unfold detailsOf, parentOf, expectedLength.
  destruct (secondaryOf ma) as [su se].
  destruct (nameHashOf ma) as [nh ne]. cbn [fst snd].
  destruct (17 <=? length ma).
  all: destruct se, ne; cbn [orb bool_decide decide_rel];
    rewrite ?bool_decide_true by done; rewrite ?bool_decide_false by done;
    cbn [orb]; rewrite He;
    unfold mbind, outcome_bind, mret, outcome_ret;
    destruct (bool_decide (formatOf ma = (PrefixScope, None))),
      (bool_decide (formatOf ma = (PrefixContractSpecification, None)));
    cbn [negb]; destruct pe, ce; rewrite ?Hpa, ?Hca; reflexivity.
Qed.

Lemma parts_17 (ma : bytes) :
  17 ≤ length ma → take 1 ma ++ take 16 (drop 1 ma) ++ drop 17 ma = ma.
Proof.
  intros Hlen. rewrite <- (take_drop 1 ma) at 4. f_equal.
  rewrite <- (take_drop 16 (drop 1 ma)) at 2. f_equal.
  by rewrite drop_drop.
Qed.

Lemma parts_33 (ma : bytes) :
  33 ≤ length ma →
  take 1 ma ++ take 16 (drop 1 ma) ++ take 16 (drop 17 ma) ++ drop 33 ma = ma.
Proof.
  intros Hlen. rewrite <- (parts_17 ma) at 5 by lia. do 2 f_equal.
  rewrite <- (take_drop 16 (drop 17 ma)) at 2. f_equal.
  by rewrite drop_drop.
Qed.

Lemma secondaryOf_ok (ma : bytes) (u : uuid.UUID) :
  secondaryOf ma = (u, None) →
  33 ≤ length ma ∧ uuid.raw u = take 16 (drop 17 ma)
  ∧ (nameHashOf ma).2 ≠ None.
Proof.
  pose proof tags_pairwise_distinct as Hd.
  intros (rest & -> & Hlen & Hr)%secondaryOf_ok_iff.
  split_and!; [cbn [length]; lia | done |].
  unfold nameHashOf. by rewrite bool_decide_false by set_solver.
Qed.

Lemma nameHashOf_ok (ma h : bytes) :
  nameHashOf ma = (h, None) →
  33 ≤ length ma ∧ h = take 16 (drop 17 ma) ∧ (secondaryOf ma).2 ≠ None.
Proof.
  pose proof tags_pairwise_distinct as Hd.
  intros (b & rest & -> & Hb & Hlen & Hr)%nameHashOf_ok_iff.
  split_and!; [cbn [length]; lia | done |].
  unfold secondaryOf. by rewrite decide_False by set_solver.
Qed.

(** X12. The byte fields of the details, one after the other, are the address
    again when it has at most one byte or at least 17; on an address of 2 to
    16 bytes only the first byte is in a field (the prefix), the bytes after
    it are in none. The secondary UUID and the name hash are never both
    set. *)
Theorem GetDetails_partition (ma : bytes) :
  ∃ d, MetadataAddress.GetDetails ma = Returns d
       ∧ Details.Address d = ma
       ∧ (length ma ≤ 1 ∨ 17 ≤ length ma →
          Details.AddressPrefix d ++ Details.AddressPrimaryUUID d
          ++ Details.AddressSecondaryUUID d ++ Details.AddressNameHash d
          ++ Details.AddressExcess d = ma)
       ∧ (1 < length ma < 17 →
          Details.AddressPrefix d ++ Details.AddressPrimaryUUID d
          ++ Details.AddressSecondaryUUID d ++ Details.AddressNameHash d
          ++ Details.AddressExcess d = take 1 ma)
       ∧ (Details.AddressSecondaryUUID d = []
          ∨ Details.AddressNameHash d = []).
Proof.
  rewrite GetDetails_eq. eexists. split; [reflexivity |].
  split; [reflexivity |].
  cbn [detailsOf Details.AddressPrefix Details.AddressPrimaryUUID
         Details.AddressSecondaryUUID Details.AddressNameHash
         Details.AddressExcess].
  unfold expectedLength.
  destruct (secondaryOf ma) as [su [se |]] eqn:Hs;
    destruct (nameHashOf ma) as [nh [ne |]] eqn:Hn; cbn [fst snd].
  - rewrite !bool_decide_false by done. cbn [orb app].
    split_and!; [| | by left].
    + intros [Hle | Hge].
      * rewrite (proj2 (Nat.leb_gt _ _)) by lia.
        rewrite drop_ge by lia. rewrite firstn_all2 by lia.
        by rewrite app_nil_r.
      * rewrite (proj2 (Nat.leb_le _ _)) by lia. by apply parts_17.
    + intros [Hgt Hlt]. rewrite (proj2 (Nat.leb_gt _ _)) by lia.
      rewrite drop_ge by lia. by rewrite app_nil_r.
  - destruct (nameHashOf_ok _ _ Hn) as (Hlen & -> & _).
    rewrite bool_decide_false by done. rewrite bool_decide_true by done.
    cbn [orb app]. rewrite (proj2 (Nat.leb_le _ _)) by lia.
    split_and!; [| lia | by left].
    intros _. by apply parts_33.
  - destruct (secondaryOf_ok _ _ Hs) as (Hlen & -> & _).
    rewrite bool_decide_true by done. cbn [orb app].
    rewrite (proj2 (Nat.leb_le _ _)) by lia.
    split_and!; [| lia | by right].
    intros _. by apply parts_33.
  - destruct (secondaryOf_ok _ _ Hs) as (_ & _ & Hne). rewrite Hn in Hne.
    by destruct Hne.
Qed.

Lemma formatOf_not (ma : bytes) (p q : string) :
  formatOf ma = (p, None) → p ≠ q →
  bool_decide (formatOf ma = (q, None)) = false.
Proof. intros -> Hne. apply bool_decide_eq_false. by intros [= ]. Qed.

Lemma parentOf_cases (ma : bytes) :
  (hasLayout SessionTag 32 ma ∨ hasLayout RecordTag 32 ma →
          parentOf ma = ScopeTag :: take 16 (drop 1 ma)
          ∧ MetadataAddress.IsScopeAddress (parentOf ma)
            = Returns true)
       ∧ (hasLayout RecordSpecificationTag 32 ma →
          parentOf ma
          = ContractSpecificationTag :: take 16 (drop 1 ma)
          ∧ MetadataAddress.IsContractSpecificationAddress
              (parentOf ma) = Returns true)
       ∧ (ma = [] ∨ hasLayout ScopeTag 16 ma
          ∨ hasLayout ScopeSpecificationTag 16 ma
          ∨ hasLayout ContractSpecificationTag 16 ma →
          parentOf ma = [])
       ∧ (∀ rest, ma = ScopeTag :: rest → 16 < length rest →
          MetadataAddress.Validate ma ≠ Returns None
          ∧ parentOf ma = ScopeTag :: take 16 rest).
Proof.
  pose proof tags_pairwise_distinct as Hd.
  destruct (formatOf_layout ma) as (L1 & L2 & L3 & L4 & L5 & L6).
  unfold parentOf.
  assert (Hscope : ∀ rest, 16 ≤ length rest →
            MetadataAddress.IsScopeAddress (ScopeTag :: take 16 rest)
            = Returns true).
  { intros rest Hl. unfold MetadataAddress.IsScopeAddress.
    destruct (formatOf_layout (ScopeTag :: take 16 rest)) as (L & _).
    apply (is_type _ _ _ _ L). eexists. split; [done |].
    rewrite length_take. lia. }
  assert (Hcs : ∀ rest, 16 ≤ length rest →
            MetadataAddress.IsContractSpecificationAddress
              (ContractSpecificationTag :: take 16 rest) = Returns true).
  { intros rest Hl. unfold MetadataAddress.IsContractSpecificationAddress.
    destruct (formatOf_layout (ContractSpecificationTag :: take 16 rest))
      as (_ & _ & _ & _ & L & _).
    apply (is_type _ _ _ _ L). eexists. split; [done |].
    rewrite length_take. lia. }
  split_and!.
  - intros [Hl | Hl].
    + pose proof (proj2 L2 Hl) as Hf. destruct Hl as (rest & -> & Hlen).
      rewrite !(formatOf_not _ _ _ Hf) by done.
      unfold asScopeOf, asContractSpecOf.
      rewrite bool_decide_true by set_solver.
      rewrite (bool_decide_false (SessionTag ∈ _)) by set_solver.
      rewrite (proj2 (Nat.leb_le _ _)) by lia. cbn [andb default drop].
      split; [done |]. apply Hscope. lia.
    + pose proof (proj2 L3 Hl) as Hf. destruct Hl as (rest & -> & Hlen).
      rewrite !(formatOf_not _ _ _ Hf) by done.
      unfold asScopeOf, asContractSpecOf.
      rewrite bool_decide_true by set_solver.
      rewrite (bool_decide_false (RecordTag ∈ _)) by set_solver.
      rewrite (proj2 (Nat.leb_le _ _)) by lia. cbn [andb default drop].
      split; [done |]. apply Hscope. lia.
  - intros Hl. pose proof (proj2 L6 Hl) as Hf.
    destruct Hl as (rest & -> & Hlen).
    rewrite !(formatOf_not _ _ _ Hf) by done.
    unfold asScopeOf, asContractSpecOf.
    rewrite bool_decide_false by set_solver.
    rewrite bool_decide_true by set_solver.
    rewrite (proj2 (Nat.leb_le _ _)) by lia. cbn [andb default drop].
    split; [done |]. apply Hcs. lia.
  - intros [-> | [Hl | [Hl | Hl]]].
    + reflexivity.
    + pose proof (proj2 L1 Hl) as Hf. destruct Hl as (rest & -> & Hlen).
      rewrite (formatOf_not _ _ PrefixContractSpecification Hf) by done.
      rewrite bool_decide_true by done.
      unfold asContractSpecOf.
      by rewrite bool_decide_false by set_solver.
    + pose proof (proj2 L4 Hl) as Hf. destruct Hl as (rest & -> & Hlen).
      rewrite !(formatOf_not _ _ _ Hf) by done.
      unfold asScopeOf, asContractSpecOf.
      by rewrite !bool_decide_false by set_solver.
    + pose proof (proj2 L5 Hl) as Hf. destruct Hl as (rest & -> & Hlen).
      rewrite (formatOf_not _ _ PrefixScope Hf) by done.
      rewrite bool_decide_true by done.
      unfold asScopeOf.
      by rewrite !bool_decide_false by set_solver.
  - intros rest -> Hlen.
    assert (Hf : formatOf (ScopeTag :: rest)
                 = (PrefixScope, Some (ErrIncorrectLength 17
                                         (length (ScopeTag :: rest))))).
    { unfold formatOf. destruct typeOfTag_values as (-> & _).
      rewrite decide_True by (cbn [length]; lia). done. }
    split.
    + unfold MetadataAddress.Validate.
      rewrite VerifyMetadataAddressFormat_eq, Hf. by intros [= ].
    + rewrite Hf. rewrite !bool_decide_false by done.
      unfold asScopeOf, asContractSpecOf.
      rewrite bool_decide_true by set_solver.
      rewrite (bool_decide_false (ScopeTag ∈ _)) by set_solver.
      by rewrite (proj2 (Nat.leb_le _ _)) by lia.
Qed.

(** X13. The parent address of the details. For a valid session or record
    address it is the scope address made of the scope tag and the 16 bytes
    after the tag; for a valid record specification address it is the
    contract specification address made the same way; both are valid. For
    the empty address and for a valid scope, scope specification or contract
    specification address it is empty. An address that [Validate] rejects
    can have one: a scope tag followed by more than 16 bytes has as parent
    the scope address made of its first 17 bytes. *)
Theorem GetDetails_parent (ma : bytes) :
  ∃ d, MetadataAddress.GetDetails ma = Returns d
       ∧ (hasLayout SessionTag 32 ma ∨ hasLayout RecordTag 32 ma →
          Details.ParentAddress d = ScopeTag :: take 16 (drop 1 ma)
          ∧ MetadataAddress.IsScopeAddress (Details.ParentAddress d)
            = Returns true)
       ∧ (hasLayout RecordSpecificationTag 32 ma →
          Details.ParentAddress d
          = ContractSpecificationTag :: take 16 (drop 1 ma)
          ∧ MetadataAddress.IsContractSpecificationAddress
              (Details.ParentAddress d) = Returns true)
       ∧ (ma = [] ∨ hasLayout ScopeTag 16 ma
          ∨ hasLayout ScopeSpecificationTag 16 ma
          ∨ hasLayout ContractSpecificationTag 16 ma →
          Details.ParentAddress d = [])
       ∧ (∀ rest, ma = ScopeTag :: rest → 16 < length rest →
          MetadataAddress.Validate ma ≠ Returns None
          ∧ Details.ParentAddress d = ScopeTag :: take 16 rest).
Proof.
  rewrite GetDetails_eq. eexists. split; [reflexivity |].
  cbn [detailsOf Details.ParentAddress]. apply parentOf_cases.
Qed.

End DetailsExact.

(** ** GetDetails of constructed addresses *)

Section DetailsConstructed.
Context `{K : Keys} `{U : Unicode} `{H : Sha256}.

Lemma secondaryOf_session (p q : bytes) :
  length p = 16 → length q = 16 →
  secondaryOf (SessionTag :: p ++ q) = uuid.FromBytes q.
Proof.
  intros Hp Hq. unfold secondaryOf. rewrite decide_True by done.
  cbn [length]. rewrite length_app, Hp, Hq. cbn [Nat.ltb Nat.leb Nat.add].
  change (drop 17 (SessionTag :: p ++ q)) with (drop 16 (p ++ q)).
  rewrite drop_app_length' by done. by rewrite firstn_all2 by lia.
Qed.

Lemma secondaryOf_other (b : byte) (rest : bytes) :
  b ≠ SessionTag →
  secondaryOf (b :: rest) = (uuid.Nil, Some (ErrTypeOutOfRange b)).
Proof. intros Hb. unfold secondaryOf. by rewrite decide_False. Qed.

Lemma nameHashOf_named (b : byte) (p q : bytes) :
  b ∈ [RecordTag; RecordSpecificationTag] →
  length p = 16 → length q = 16 →
  nameHashOf (b :: p ++ q) = (q, None).
Proof.
  intros Hb Hp Hq. unfold nameHashOf. rewrite bool_decide_true by done.
  cbn [length]. rewrite length_app, Hp, Hq. cbn [Nat.ltb Nat.leb Nat.add].
  change (drop 17 (b :: p ++ q)) with (drop 16 (p ++ q)).
  rewrite drop_app_length' by done. by rewrite firstn_all2 by lia.
Qed.

Lemma nameHashOf_other (b : byte) (rest : bytes) :
  b ∉ [RecordTag; RecordSpecificationTag] →
  nameHashOf (b :: rest) = (replicate 16 x00, Some (ErrTypeOutOfRange b)).
Proof. intros Hb. unfold nameHashOf. by rewrite bool_decide_false. Qed.

Lemma detailsPrefix_tag (b : byte) (rest : bytes) (hrp : string) (n : nat)
  (c : bool) :
  typeOfTag b = Some (hrp, n, c) → detailsPrefix (b :: rest) = hrp.
Proof. intros Ht. unfold detailsPrefix. by rewrite Ht. Qed.

(** The details of an address of 17 bytes: a tag of a type without a second
    part, and a UUID. *)
Lemma detailsOf_17 (b : byte) (u : uuid.UUID) :
  b ∈ [ScopeTag; ScopeSpecificationTag; ContractSpecificationTag] →
  let d := detailsOf (b :: uuid.raw u) in
  Details.AddressPrefix d = [b]
  ∧ Details.AddressPrimaryUUID d = uuid.raw u
  ∧ Details.PrimaryUUID d = uuid.String u
  ∧ Details.AddressSecondaryUUID d = [] ∧ Details.SecondaryUUID d = ""
  ∧ Details.AddressNameHash d = [] ∧ Details.NameHashHex d = ""
  ∧ Details.NameHashBase64 d = ""
  ∧ Details.AddressExcess d = [] ∧ Details.ExcessHex d = ""
  ∧ Details.ExcessBase64 d = "".
Proof.
  pose proof tags_pairwise_distinct as Hd.
  pose proof (uuid.raw_size u) as Hu.
  intros Hb d. subst d.
  cbn [detailsOf Details.AddressPrefix Details.AddressPrimaryUUID
         Details.PrimaryUUID Details.AddressSecondaryUUID
         Details.SecondaryUUID Details.AddressNameHash Details.NameHashHex
         Details.NameHashBase64 Details.AddressExcess Details.ExcessHex
         Details.ExcessBase64].
  unfold expectedLength.
  rewrite secondaryOf_other by set_solver.
  rewrite nameHashOf_other by set_solver. cbn [fst snd].
  rewrite !bool_decide_false by done. cbn [orb length drop take].
  rewrite take_0, !drop_0, Hu. cbn [Nat.leb]. rewrite firstn_all2 by lia.
  rewrite FromBytes_raw. rewrite drop_ge by lia. done.
Qed.

(** The details of an address of 33 bytes. *)
Lemma detailsOf_session (u s : uuid.UUID) :
  let d := detailsOf (SessionTag :: uuid.raw u ++ uuid.raw s) in
  Details.AddressPrefix d = [SessionTag]
  ∧ Details.AddressPrimaryUUID d = uuid.raw u
  ∧ Details.PrimaryUUID d = uuid.String u
  ∧ Details.AddressSecondaryUUID d = uuid.raw s
  ∧ Details.SecondaryUUID d = uuid.String s
  ∧ Details.AddressNameHash d = [] ∧ Details.NameHashHex d = ""
  ∧ Details.NameHashBase64 d = ""
  ∧ Details.AddressExcess d = [] ∧ Details.ExcessHex d = ""
  ∧ Details.ExcessBase64 d = "".
Proof.
  pose proof tags_pairwise_distinct as Hd.
  pose proof (uuid.raw_size u) as Hu. pose proof (uuid.raw_size s) as Hs.
  intros d. subst d.
  cbn [detailsOf Details.AddressPrefix Details.AddressPrimaryUUID
         Details.PrimaryUUID Details.AddressSecondaryUUID
         Details.SecondaryUUID Details.AddressNameHash Details.NameHashHex
         Details.NameHashBase64 Details.AddressExcess Details.ExcessHex
         Details.ExcessBase64].
  unfold expectedLength.
  rewrite secondaryOf_session by done.
  rewrite nameHashOf_other by set_solver. rewrite FromBytes_raw.
  cbn [fst snd]. rewrite bool_decide_true by done.
  cbn [orb length drop take]. rewrite take_0, !drop_0, length_app, Hu, Hs.
  cbn [Nat.leb Nat.add]. rewrite take_app_length' by done.
  rewrite FromBytes_raw.
  change (drop 33 (SessionTag :: uuid.raw u ++ uuid.raw s))
    with (drop 32 (uuid.raw u ++ uuid.raw s)).
  rewrite drop_ge by (rewrite length_app; lia). done.
Qed.

Lemma detailsOf_named (b : byte) (u : uuid.UUID) (h : bytes) :
  b ∈ [RecordTag; RecordSpecificationTag] →
  length h = 16 →
  let d := detailsOf (b :: uuid.raw u ++ h) in
  Details.AddressPrefix d = [b]
  ∧ Details.AddressPrimaryUUID d = uuid.raw u
  ∧ Details.PrimaryUUID d = uuid.String u
  ∧ Details.AddressSecondaryUUID d = [] ∧ Details.SecondaryUUID d = ""
  ∧ Details.AddressNameHash d = h
  ∧ Details.NameHashHex d = hex.EncodeToString h
  ∧ Details.NameHashBase64 d = base64.EncodeToString h
  ∧ Details.AddressExcess d = [] ∧ Details.ExcessHex d = ""
  ∧ Details.ExcessBase64 d = "".
Proof.
  pose proof tags_pairwise_distinct as Hd.
  pose proof (uuid.raw_size u) as Hu.
  intros Hb Hh d. subst d.
  cbn [detailsOf Details.AddressPrefix Details.AddressPrimaryUUID
         Details.PrimaryUUID Details.AddressSecondaryUUID
         Details.SecondaryUUID Details.AddressNameHash Details.NameHashHex
         Details.NameHashBase64 Details.AddressExcess Details.ExcessHex
         Details.ExcessBase64].
  unfold expectedLength.
  rewrite secondaryOf_other by set_solver.
  rewrite nameHashOf_named by done.
  cbn [fst snd]. rewrite bool_decide_false by done.
  rewrite bool_decide_true by done.
  cbn [orb length drop take]. rewrite take_0, !drop_0, length_app, Hu, Hh.
  cbn [Nat.leb Nat.add]. rewrite take_app_length' by done.
  rewrite FromBytes_raw.
  change (drop 33 (b :: uuid.raw u ++ h)) with (drop 32 (uuid.raw u ++ h)).
  rewrite drop_ge by (rewrite length_app; lia). done.
Qed.

(** X14. [GetDetails] gives back what the constructors were given. The details
    of a constructed address hold the prefix of its type, the text of the
    UUID it was made from as primary UUID, for a session address the text of
    the session UUID as secondary UUID, for a record or record specification
    address the 16 hash bytes of the normalized name with their hex and
    base64 text, no excess bytes, and as parent address the scope address
    (session, record) or contract specification address (record
    specification) of the same UUID; the other fields are empty. *)
Theorem GetDetails_of_constructed (u s : uuid.UUID) (name : string) :
  let hash := take 16 (Sum256 (list_byte_of_string (normalizedName name))) in
  (∃ a d, ScopeMetadataAddress u = Returns a
          ∧ MetadataAddress.GetDetails a = Returns d
          ∧ Details.Prefix d = PrefixScope
          ∧ Details.PrimaryUUID d = uuid.String u
          ∧ Details.SecondaryUUID d = "" ∧ Details.NameHashHex d = ""
          ∧ Details.AddressExcess d = [] ∧ Details.ParentAddress d = [])
  ∧ (∃ a d, SessionMetadataAddress u s = Returns a
            ∧ MetadataAddress.GetDetails a = Returns d
            ∧ Details.Prefix d = PrefixSession
            ∧ Details.PrimaryUUID d = uuid.String u
            ∧ Details.SecondaryUUID d = uuid.String s
            ∧ Details.NameHashHex d = ""
            ∧ Details.AddressExcess d = []
            ∧ ScopeMetadataAddress u = Returns (Details.ParentAddress d))
  ∧ (∃ a d, ScopeSpecMetadataAddress u = Returns a
            ∧ MetadataAddress.GetDetails a = Returns d
            ∧ Details.Prefix d = PrefixScopeSpecification
            ∧ Details.PrimaryUUID d = uuid.String u
            ∧ Details.SecondaryUUID d = "" ∧ Details.NameHashHex d = ""
            ∧ Details.AddressExcess d = [] ∧ Details.ParentAddress d = [])
  ∧ (∃ a d, ContractSpecMetadataAddress u = Returns a
            ∧ MetadataAddress.GetDetails a = Returns d
            ∧ Details.Prefix d = PrefixContractSpecification
            ∧ Details.PrimaryUUID d = uuid.String u
            ∧ Details.SecondaryUUID d = "" ∧ Details.NameHashHex d = ""
            ∧ Details.AddressExcess d = [] ∧ Details.ParentAddress d = [])
  ∧ (normalizedName name ≠ "" →
     (∃ a d, RecordMetadataAddress u name = Returns a
             ∧ MetadataAddress.GetDetails a = Returns d
             ∧ Details.Prefix d = PrefixRecord
             ∧ Details.PrimaryUUID d = uuid.String u
             ∧ Details.SecondaryUUID d = ""
             ∧ Details.AddressNameHash d = hash
             ∧ Details.NameHashHex d = hex.EncodeToString hash
             ∧ Details.NameHashBase64 d = base64.EncodeToString hash
             ∧ Details.AddressExcess d = []
             ∧ ScopeMetadataAddress u = Returns (Details.ParentAddress d))
     ∧ (∃ a d, RecordSpecMetadataAddress u name = Returns a
               ∧ MetadataAddress.GetDetails a = Returns d
               ∧ Details.Prefix d = PrefixRecordSpecification
               ∧ Details.PrimaryUUID d = uuid.String u
               ∧ Details.SecondaryUUID d = ""
               ∧ Details.AddressNameHash d = hash
               ∧ Details.NameHashHex d = hex.EncodeToString hash
               ∧ Details.NameHashBase64 d = base64.EncodeToString hash
               ∧ Details.AddressExcess d = []
               ∧ ContractSpecMetadataAddress u
                 = Returns (Details.ParentAddress d))).
Proof.
  intros hash.
  assert (Hprefix : ∀ b rest hrp n c, typeOfTag b = Some (hrp, n, c) →
            Details.Prefix (detailsOf (b :: rest)) = hrp).
  { intros b rest hrp n c Ht. cbn [detailsOf Details.Prefix].
    by apply (detailsPrefix_tag _ _ _ _ _ Ht). }
  destruct typeOfTag_values as (Ht1 & Ht2 & Ht3 & Ht4 & Ht5 & Ht6).
  pose proof (uuid.raw_size u) as Hu. pose proof (uuid.raw_size s) as Hs.
  pose proof (hash_size (normalizedName name)) as Hh. fold hash in Hh.
  assert (Htake : ∀ tl : bytes, take 16 (uuid.raw u ++ tl) = uuid.raw u).
  { intros tl. by rewrite take_app_length'. }
  split_and!.
  - eexists _, _. split; [reflexivity |]. rewrite GetDetails_eq.
    split; [reflexivity |]. unfold ScopeKeyPrefix. cbn [app].
    destruct (detailsOf_17 ScopeTag u)
      as (_ & _ & -> & _ & -> & _ & -> & _ & -> & _); [set_solver |].
    split_and!; try done; try (by eapply Hprefix).
    apply parentOf_cases. right. left. by eexists.
  - eexists _, _. split; [reflexivity |]. rewrite GetDetails_eq.
    split; [reflexivity |]. unfold SessionKeyPrefix, ScopeKeyPrefix.
    cbn [app].
    destruct (detailsOf_session u s)
      as (_ & _ & -> & _ & -> & _ & -> & _ & -> & _).
    split_and!; try done; try (by eapply Hprefix).
    cbn [detailsOf Details.ParentAddress ScopeMetadataAddress
           uuid.MarshalBinary]. f_equal.
    destruct (parentOf_cases (SessionTag :: uuid.raw u ++ uuid.raw s))
      as ([-> _] & _).
    { left. eexists. split; [done |]. rewrite length_app. lia. }
    cbn [drop]. by rewrite drop_0, Htake.
  - eexists _, _. split; [reflexivity |]. rewrite GetDetails_eq.
    split; [reflexivity |]. unfold ScopeSpecificationKeyPrefix. cbn [app].
    destruct (detailsOf_17 ScopeSpecificationTag u)
      as (_ & _ & -> & _ & -> & _ & -> & _ & -> & _); [set_solver |].
    split_and!; try done; try (by eapply Hprefix).
    apply parentOf_cases. right. right. left. by eexists.
  - eexists _, _. split; [reflexivity |]. rewrite GetDetails_eq.
    split; [reflexivity |]. unfold ContractSpecificationKeyPrefix.
    cbn [app].
    destruct (detailsOf_17 ContractSpecificationTag u)
      as (_ & _ & -> & _ & -> & _ & -> & _ & -> & _); [set_solver |].
    split_and!; try done; try (by eapply Hprefix).
    apply parentOf_cases. right. right. right. by eexists.
  - intros Hn. split.
    + rewrite RecordMetadataAddress_eq by done. fold hash.
      eexists _, _. split; [reflexivity |]. rewrite GetDetails_eq.
      split; [reflexivity |].
      destruct (detailsOf_named RecordTag u hash)
        as (_ & _ & -> & _ & -> & -> & -> & -> & -> & _);
        [set_solver | done |].
      split_and!; try done; try (by eapply Hprefix).
      cbn [detailsOf Details.ParentAddress ScopeMetadataAddress
             uuid.MarshalBinary]. unfold ScopeKeyPrefix. cbn [app]. f_equal.
      destruct (parentOf_cases (RecordTag :: uuid.raw u ++ hash))
        as ([-> _] & _).
      { right. eexists. split; [done |]. rewrite length_app, Hu, Hh. done. }
      cbn [drop]. by rewrite drop_0, Htake.
    + rewrite RecordSpecMetadataAddress_eq by done. fold hash.
      eexists _, _. split; [reflexivity |]. rewrite GetDetails_eq.
      split; [reflexivity |].
      destruct (detailsOf_named RecordSpecificationTag u hash)
        as (_ & _ & -> & _ & -> & -> & -> & -> & -> & _);
        [set_solver | done |].
      split_and!; try done; try (by eapply Hprefix).
      cbn [detailsOf Details.ParentAddress ContractSpecMetadataAddress
             uuid.MarshalBinary]. unfold ContractSpecificationKeyPrefix.
      cbn [app]. f_equal.
      destruct (parentOf_cases
                  (RecordSpecificationTag :: uuid.raw u ++ hash))
        as (_ & [-> _] & _).
      { eexists. split; [done |]. rewrite length_app, Hu, Hh. done. }
      cbn [drop]. by rewrite drop_0, Htake.
Qed.

End DetailsConstructed.

(** ** Marshalling, comparison *)

Section Marshalling.
Context `{K : Keys}.

(** X15. [Unmarshal] stores the bytes it is given, whatever it returns. It
    returns no error on the empty sequence, which [Validate] rejects, and on
    every other sequence the result of [Validate]; so [Unmarshal] of
    [Marshal] gives back the address, without an error exactly when the
    address is empty or valid. *)
Theorem Unmarshal_Marshal (old ma : bytes) :
  (MetadataAddress.Marshal ma).2 = None
  ∧ ∃ err,
      MetadataAddress.Unmarshal old (MetadataAddress.Marshal ma).1
      = Returns (ma, err)
      ∧ (err = None ↔ ma = [] ∨ MetadataAddress.Validate ma = Returns None)
      ∧ (ma ≠ [] → MetadataAddress.Validate ma = Returns err)
      ∧ MetadataAddress.Validate [] = Returns (Some ErrAddressIsEmpty).
Proof.
  split; [reflexivity |].
  unfold MetadataAddress.Unmarshal, MetadataAddress.Marshal,
    MetadataAddress.Validate. cbn [fst].
  rewrite !VerifyMetadataAddressFormat_eq.
  destruct ma as [| b rest].
  - exists None. split_and!; [done | | done | done].
    split; [by left | done].
  - rewrite decide_False by done.
    unfold mbind, outcome_bind, mret, outcome_ret.
    destruct (formatOf (b :: rest)) as [hrp err]. exists err.
    split_and!; [done | | done | done].
    split.
    + intros ->. by right.
    + intros [[= ] | [= ->]]. done.
Qed.

(** X16. [MarshalTo] reports no error and the length of the address, and leaves
    the length of the buffer as it was. When the buffer is at least as long
    as the address, the address is at its start and the rest is unchanged;
    when it is shorter, it holds the first bytes of the address only, and
    the count returned is still the length of the whole address. *)
Theorem MarshalTo_copies (ma data : bytes) :
  ∃ data', MetadataAddress.MarshalTo ma data
           = (data', MetadataAddress.Size ma, None)
           ∧ length data' = length data
           ∧ (length ma ≤ length data → data' = ma ++ drop (length ma) data)
           ∧ (length data < length ma → data' = take (length data) ma).
Proof.
  unfold MetadataAddress.MarshalTo, MetadataAddress.Size.
  destruct (decide (length ma = 0)) as [Hz | Hnz].
  - apply nil_length_inv in Hz. subst ma. exists data.
    split_and!; [done | done | done |]. cbn [length]. lia.
  - exists (copy data ma). unfold copy. split_and!; [done | | |].
    + rewrite length_app, length_take, length_drop. lia.
    + intros Hle. by rewrite firstn_all2 by lia.
    + intros Hlt. rewrite drop_ge by lia. by rewrite app_nil_r.
Qed.







End Marshalling.

(** ** Hex text *)

Section Hex.

Lemma hex_byte_roundtrip (b : byte) :
  let hi := N.shiftr (Byte.to_N b) 4 in
  let lo := N.land (Byte.to_N b) 15 in
  hex.fromHexChar (hex.digit hi) = Some hi
  ∧ hex.fromHexChar (hex.digit lo) = Some lo
  ∧ hex.byteOf (N.lor (N.shiftl hi 4) lo) = b.
Proof. destruct b; vm_compute; done. Qed.

Lemma hex_Decode_EncodeToString (src : bytes) (tl : list ascii) :
  hex.Decode (list_ascii_of_string (hex.EncodeToString src) ++ tl)
  = (src ++ (hex.Decode tl).1, (hex.Decode tl).2).
Proof.
  induction src as [| b src IH].
  - cbn [hex.EncodeToString list_ascii_of_string app].
    by destruct (hex.Decode tl).
  - cbn [hex.EncodeToString list_ascii_of_string app hex.Decode].
    destruct (hex_byte_roundtrip b) as (-> & -> & ->).
    rewrite IH. reflexivity.
Qed.

Lemma hex_EncodeToString_empty (src : bytes) :
  String.length (hex.EncodeToString src) = 0 ↔ src = [].
Proof. by destruct src. Qed.

(** X18. [MetadataAddressFromHex] inverts [hex.EncodeToString] on every byte
    sequence that is not empty, valid as an address or not: it checks the
    hex digits only. The hex text of the empty address is the empty string,
    which it refuses. With one more character after the hex text (an odd
    length) it returns the bytes decoded so far together with the error. *)
Theorem MetadataAddressFromHex_roundtrip (ma : bytes) :
  (ma ≠ [] → MetadataAddressFromHex (hex.EncodeToString ma) = (ma, None))
  ∧ MetadataAddressFromHex (hex.EncodeToString [])
    = ([], Some ErrMustProvideAddress)
  ∧ (∀ c : ascii,
       MetadataAddressFromHex (hex.EncodeToString ma +:+ String c "")
       = (ma, Some (ErrHex match hex.fromHexChar c with
                           | Some _ => hex.ErrLength
                           | None => hex.InvalidByteError c
                           end))).
Proof.
  unfold MetadataAddressFromHex, hex.DecodeString. split_and!.
  - intros Hne. rewrite decide_False by (by rewrite hex_EncodeToString_empty).
    rewrite <- (app_nil_r (list_ascii_of_string _)).
    rewrite hex_Decode_EncodeToString. cbn [hex.Decode fst snd fmap option_fmap option_map].
    by rewrite app_nil_r.
  - reflexivity.
  - intros c.
    rewrite decide_False.
    2:{ rewrite bech32_facts.length_append. cbn [String.length]. lia. }
    rewrite bech32_facts.list_ascii_of_append, hex_Decode_EncodeToString.
    cbn [list_ascii_of_string hex.Decode].
    destruct (hex.fromHexChar c); cbn [fst snd]; by rewrite app_nil_r.
Qed.

End Hex.

(** ** Parsing, denoms *)

Section Text.
Context `{K : Keys} `{U : Unicode} `{B : Bech32}.

Lemma Parse_ok_iff (text : string) (addr : bytes) (hrp : string) :
  ParseMetadataAddressFromBech32 text = Returns (addr, hrp, None)
  ↔ String.length (strings.TrimSpace text) ≠ 0
    ∧ DecodeAndConvert text = (hrp, addr, None)
    ∧ VerifyMetadataAddressFormat addr = Returns (hrp, None).
Proof.
  unfold ParseMetadataAddressFromBech32.
  destruct (decide (String.length (strings.TrimSpace text) = 0)) as [Hz | Hnz].
  { split; [done | by intros (? & _)]. }
  destruct (DecodeAndConvert text) as [[h bz] [e |]].
  { split; [done | by intros (_ & ? & _)]. }
  rewrite !VerifyMetadataAddressFormat_eq.
  unfold mbind, outcome_bind, mret, outcome_ret.
  destruct (formatOf bz) as [expected [e |]] eqn:Hf.
  { split; [done |]. intros (_ & [= <- <-] & [= Hf']). congruence. }
  destruct (decide (expected ≠ h)) as [Hne | Heq].
  - split; [done |]. intros (_ & [= <- <-] & [= Hf']). congruence.
  - apply dec_stable in Heq. subst expected. split.
    + intros [= <- <-]. by rewrite Hf.
    + intros (_ & [= <- <-] & _). done.
Qed.

Lemma Parse_returns (text : string) :
  ∃ r, ParseMetadataAddressFromBech32 text = Returns r
       ∧ (r.2 ≠ None → r.1 = ([], "")).
Proof.
  unfold ParseMetadataAddressFromBech32.
  destruct (decide _); [by eexists |].
  destruct (DecodeAndConvert text) as [[h bz] [e |]]; [by eexists |].
  rewrite VerifyMetadataAddressFormat_eq.
  unfold mbind, outcome_bind, mret, outcome_ret.
  destruct (formatOf bz) as [expected [e |]]; [by eexists |].
  destruct (decide _); by eexists.
Qed.

(** X19. [ParseMetadataAddressFromBech32] returns on every text, whatever the
    bech32 package does. It returns an address without an error exactly
    when the text is not blank, the package decodes it to a prefix and
    bytes, and the bytes pass the format check with that prefix: a parsed
    address is always valid, of the type the prefix names. With an error it
    returns the empty address and the empty prefix; a blank text gives the
    empty-address-string error. [MetadataAddressFromBech32] returns the same
    address and error. *)
Theorem ParseMetadataAddressFromBech32_sound (text : string) :
  (∀ addr hrp,
     ParseMetadataAddressFromBech32 text = Returns (addr, hrp, None)
     ↔ String.length (strings.TrimSpace text) ≠ 0
       ∧ DecodeAndConvert text = (hrp, addr, None)
       ∧ VerifyMetadataAddressFormat addr = Returns (hrp, None))
  ∧ (∃ addr hrp err,
       ParseMetadataAddressFromBech32 text = Returns (addr, hrp, err)
       ∧ MetadataAddressFromBech32 text = Returns (addr, err)
       ∧ (err ≠ None → addr = [] ∧ hrp = "")
       ∧ (err = None → MetadataAddress.Validate addr = Returns None))
  ∧ (String.length (strings.TrimSpace text) = 0 →
     ParseMetadataAddressFromBech32 text
     = Returns ([], "", Some ErrEmptyAddressString)).
Proof.
  split_and!.
  - intros addr hrp. apply Parse_ok_iff.
  - destruct (Parse_returns text) as ([[addr hrp] err] & Hp & Herr).
    exists addr, hrp, err. cbn [fst snd] in Herr.
    split_and!; [done | | |].
    + unfold MetadataAddressFromBech32. by rewrite Hp.
    + intros Hne. specialize (Herr Hne). by simplify_eq.
    + intros ->. apply Parse_ok_iff in Hp as (_ & _ & Hv).
      unfold MetadataAddress.Validate. by rewrite Hv.
  - intros Hz. unfold ParseMetadataAddressFromBech32.
    by rewrite decide_True.
Qed.

Lemma HasPrefix_append (p s : string) : strings.HasPrefix (p +:+ s) p = true.
Proof.
  unfold strings.HasPrefix. rewrite bech32_facts.length_append.
  rewrite (proj2 (Nat.leb_le _ _)) by lia.
  rewrite bech32_facts.substring_prefix. by rewrite String.eqb_refl.
Qed.

Lemma TrimPrefix_append (p s : string) : strings.TrimPrefix (p +:+ s) p = s.
Proof.
  unfold strings.TrimPrefix. rewrite HasPrefix_append.
  rewrite bech32_facts.length_append.
  replace (String.length p + String.length s - String.length p)
    with (String.length s) by lia.
  apply bech32_facts.substring_suffix.
Qed.

Lemma substring_take_drop (s : string) (n : nat) :
  n ≤ String.length s →
  substring 0 n s +:+ substring n (String.length s - n) s = s.
Proof.
  revert n. induction s as [| c s IH]; intros [| n] Hn;
    cbn [String.length] in *; try lia.
  - done.
  - cbn [substring]. rewrite bech32_facts.append_nil.
    f_equal. apply bech32_facts.substring_all.
  - cbn [Nat.sub substring]. rewrite bech32_facts.append_cons.
    f_equal. apply IH. lia.
Qed.

Lemma HasPrefix_inv (s p : string) :
  strings.HasPrefix s p = true → ∃ t, s = p +:+ t.
Proof.
  unfold strings.HasPrefix. intros [Hlen Heq]%andb_prop.
  apply Nat.leb_le in Hlen. apply String.eqb_eq in Heq.
  exists (substring (String.length p) (String.length s - String.length p) s).
  rewrite <- Heq at 1. symmetry. by apply substring_take_drop.
Qed.

Lemma TrimPrefix_same_iff (s p : string) :
  p ≠ "" → (strings.TrimPrefix s p = s ↔ strings.HasPrefix s p = false).
Proof.
  intros Hp. unfold strings.TrimPrefix.
  destruct (strings.HasPrefix s p) eqn:Hh; [| done].
  split; [| done]. intros Heq. apply (f_equal String.length) in Heq.
  destruct (HasPrefix_inv _ _ Hh) as [t ->].
  rewrite bech32_facts.length_append in Heq.
  replace (String.length p + String.length t - String.length p)
    with (String.length t) in Heq by lia.
  rewrite bech32_facts.substring_suffix in Heq.
  destruct p; [done |]. cbn [String.length] in Heq. lia.
Qed.

Lemma FromDenom_prefixed (id : string) :
  MetadataAddressFromDenom (DenomPrefix +:+ id)
  = ('(rv, err) ← MetadataAddressFromBech32 id;
     match err with
     | Some err => mret ([], Some (ErrInvalidDenom (DenomPrefix +:+ id) err))
     | None => mret (rv, None)
     end).
Proof.
  unfold MetadataAddressFromDenom. rewrite TrimPrefix_append.
  rewrite decide_False; [done |].
  intros Heq. apply (f_equal String.length) in Heq.
  rewrite bech32_facts.length_append in Heq. cbn [DenomPrefix String.length] in Heq.
  lia.
Qed.

(** X20. [MetadataAddressFromDenom] returns on every denom. It refuses with the
    not-a-denom error exactly the denoms that do not start with "nft/"; on
    "nft/" followed by a text it returns what [MetadataAddressFromBech32]
    returns for the text, its error wrapped. An address it returns without
    an error is valid. The denom "nft/", which is the denom of the empty
    address, is refused. *)
Theorem MetadataAddressFromDenom_cases (denom : string) :
  (strings.HasPrefix denom DenomPrefix = false ↔
   MetadataAddressFromDenom denom = Returns ([], Some (ErrNotDenom denom)))
  ∧ (∀ id, denom = DenomPrefix +:+ id →
       ∃ rv err,
         MetadataAddressFromBech32 id = Returns (rv, err)
         ∧ MetadataAddressFromDenom denom
           = Returns match err with
                     | Some e => ([], Some (ErrInvalidDenom denom e))
                     | None => (rv, None)
                     end)
  ∧ (∀ addr, MetadataAddressFromDenom denom = Returns (addr, None) →
       MetadataAddress.Validate addr = Returns None
       ∧ strings.HasPrefix denom DenomPrefix = true)
  ∧ (∃ r, MetadataAddressFromDenom denom = Returns r)
  ∧ MetadataAddress.Denom [] = Returns DenomPrefix
  ∧ MetadataAddressFromDenom DenomPrefix
    = Returns ([], Some (ErrInvalidDenom DenomPrefix ErrEmptyAddressString)).
Proof.
  assert (Hcase : ∀ id, ∃ rv err,
            MetadataAddressFromBech32 id = Returns (rv, err)
            ∧ (err = None → MetadataAddress.Validate rv = Returns None)
            ∧ MetadataAddressFromDenom (DenomPrefix +:+ id)
              = Returns match err with
                        | Some e =>
                            ([], Some (ErrInvalidDenom (DenomPrefix +:+ id) e))
                        | None => (rv, None)
                        end).
  { intros id. rewrite FromDenom_prefixed.
    destruct (Parse_returns id) as ([[addr hrp] err] & Hp & _).
    exists addr, err. unfold MetadataAddressFromBech32. rewrite Hp.
    unfold mbind, outcome_bind, mret, outcome_ret.
    split_and!; [done | | by destruct err].
    intros ->. apply Parse_ok_iff in Hp as (_ & _ & Hv).
    unfold MetadataAddress.Validate. by rewrite Hv. }
  assert (Hnot : strings.HasPrefix denom DenomPrefix = false →
            MetadataAddressFromDenom denom
            = Returns ([], Some (ErrNotDenom denom))).
  { intros Hh. unfold MetadataAddressFromDenom.
    rewrite decide_True; [done |]. by apply TrimPrefix_same_iff. }
  split_and!.
  - split; [exact Hnot |]. intros Hd.
    destruct (strings.HasPrefix denom DenomPrefix) eqn:Hh; [| done].
    destruct (HasPrefix_inv _ _ Hh) as [id ->].
    destruct (Hcase id) as (rv & err & _ & _ & Hr). rewrite Hr in Hd.
    by destruct err.
  - intros id ->. destruct (Hcase id) as (rv & err & Hb & _ & Hr).
    by exists rv, err.
  - intros addr Hd.
    destruct (strings.HasPrefix denom DenomPrefix) eqn:Hh.
    + destruct (HasPrefix_inv _ _ Hh) as [id ->].
      destruct (Hcase id) as (rv & err & _ & Hv & Hr). rewrite Hr in Hd.
      destruct err; [done |]. injection Hd as <-. by split; [apply Hv |].
    + rewrite (Hnot eq_refl) in Hd. done.
  - destruct (strings.HasPrefix denom DenomPrefix) eqn:Hh.
    + destruct (HasPrefix_inv _ _ Hh) as [id ->].
      destruct (Hcase id) as (rv & err & _ & _ & ->). by eexists.
    + rewrite (Hnot eq_refl). by eexists.
  - reflexivity.
  - reflexivity.
Qed.

End Text.

Section DenomText.
Context `{K : Keys} `{U : Unicode}.

(** The text of a valid address, for the reference algorithm. *)
Lemma valid_String_Parse (addr : bytes) (hrp : string) :
  formatOf addr = (hrp, None) →
  ∃ text, MetadataAddress.String (B := bech32_reference) addr = Returns text
          ∧ ParseMetadataAddressFromBech32 (B := bech32_reference) text
            = Returns (addr, hrp, None).
Proof.
  intros Hf.
  apply (String_Parse_valid (B := bech32_reference) addr hrp Hf).
  destruct (formatOf_valid_inv _ _ Hf) as (b & rest & n & c & -> & Ht & Hn).
  assert (Hok : bech32_facts.hrpOK hrp ∧ String.length hrp ≤ 900).
  { destruct (typeOfTag_inv _ _ _ _ Ht)
      as [(_ & -> & _) | [(_ & -> & _) | [(_ & -> & _)
         | [(_ & -> & _) | [(_ & -> & _) | (_ & -> & _)]]]]];
      (split; [split; [discriminate | reflexivity]
              | apply Nat.leb_le; reflexivity]). }
  destruct Hok as [Hok Hlen].
  apply bech32_reference_RoundTripsAt; [done | done |].
  rewrite Hn. destruct (typeOfTag_cases _ _ _ _ Ht) as [[-> _] | ->]; lia.
Qed.

(** X21. The denom of a valid address is "nft/" followed by its bech32 text, and
    [MetadataAddressFromDenom] of that denom is the address again, without
    an error (with the bech32 package as the reference algorithm). *)
Theorem Denom_roundtrip (addr : bytes) :
  MetadataAddress.Validate addr = Returns None →
  ∃ text,
    MetadataAddress.String (B := bech32_reference) addr = Returns text
    ∧ MetadataAddress.Denom (B := bech32_reference) addr
      = Returns (DenomPrefix +:+ text)
    ∧ MetadataAddressFromDenom (B := bech32_reference) (DenomPrefix +:+ text)
      = Returns (addr, None).
Proof.
  unfold MetadataAddress.Validate. rewrite VerifyMetadataAddressFormat_eq.
  unfold mbind, outcome_bind, mret, outcome_ret.
  destruct (formatOf addr) as [hrp err] eqn:Hf. intros [= ->].
  destruct (valid_String_Parse addr hrp Hf) as (text & Hs & Hp).
  exists text. split_and!; [done | |].
  - unfold MetadataAddress.Denom. by rewrite Hs.
  - rewrite FromDenom_prefixed. unfold MetadataAddressFromBech32.
    by rewrite Hp.
Qed.

End DenomText.

(** ** Conversion of a hash *)

Section FromHash.
Context `{K : Keys}.

Lemma reqLenOfTag_typeOfTag (b : byte) :
  reqLenOfTag b = (λ t, t.1.2 - 1) <$> typeOfTag b.
Proof.
  pose proof tags_pairwise_distinct as Hd.
  unfold reqLenOfTag, typeOfTag.
  repeat case_decide; subst; simpl;
    repeat case_bool_decide; try done; set_solver.
Qed.

Lemma reqLenOfTag_valid (b : byte) (n : nat) (raw : bytes) :
  reqLenOfTag b = Some n → n ≤ length raw →
  ∃ hrp, formatOf (b :: take n raw) = (hrp, None).
Proof.
  rewrite reqLenOfTag_typeOfTag. intros Hn Hlen.
  destruct (typeOfTag b) as [[[hrp m] c] |] eqn:Ht; [| done].
  cbn in Hn. injection Hn as <-. exists hrp. apply formatOf_valid_iff.
  exists b, (take (m - 1) raw), m, c. split_and!; [done | done |].
  rewrite length_take.
  destruct (typeOfTag_cases _ _ _ _ Ht) as [[-> _] | ->]; lia.
Qed.

Lemma Unmarshal_valid (old data : bytes) (hrp : string) :
  formatOf data = (hrp, None) →
  MetadataAddress.Unmarshal old data = Returns (data, None).
Proof.
  intros Hf. unfold MetadataAddress.Unmarshal.
  rewrite VerifyMetadataAddressFormat_eq, Hf.
  destruct data; [done |]. by rewrite decide_False.
Qed.

Lemma ConvertHashToAddress_ok_iff (typeCode : bytes) (hash : string)
  (addr : bytes) :
  ConvertHashToAddress typeCode hash = Returns (addr, None)
  ↔ ∃ t rest raw n,
      typeCode = t :: rest ∧ hash ≠ "" ∧ reqLenOfTag t = Some n
      ∧ base64.DecodeString hash = (raw, None) ∧ n ≤ length raw
      ∧ addr = t :: take n raw.
Proof.
  unfold ConvertHashToAddress.
  destruct typeCode as [| t rest].
  { split; [done | by intros (? & ? & ? & ? & ? & _)]. }
  rewrite decide_False by done.
  destruct (decide (String.length hash = 0)) as [Hz | Hnz].
  { split; [done |]. intros (_ & _ & _ & _ & _ & Hne & _).
    destruct hash; done. }
  rewrite index_head. unfold mbind at 1, outcome_bind at 1.
  destruct (reqLenOfTag t) as [n |] eqn:Hreq.
  2:{ split; [done |].
      intros (? & ? & ? & ? & [= <- <-] & _ & ? & _). congruence. }
  destruct (base64.DecodeString hash) as [raw [off |]] eqn:Hdec.
  { split; [done |].
    intros (? & ? & ? & ? & _ & _ & _ & ? & _). congruence. }
  destruct (length raw <? n) eqn:Hlen.
  { apply Nat.ltb_lt in Hlen. split; [done |].
    intros (t' & rest' & raw' & n' & [= <- <-] & _ & Hr' & Hd' & Hle & _).
    rewrite Hr' in Hreq. rewrite Hd' in Hdec. simplify_eq. lia. }
  apply Nat.ltb_ge in Hlen.
  unfold mbind at 1, outcome_bind at 1.
  rewrite slice_in_range by lia. unfold mbind at 1, outcome_bind at 1.
  rewrite Nat.sub_0_r, drop_0. cbn [app].
  destruct (reqLenOfTag_valid _ _ _ Hreq Hlen) as [hrp Hf].
  rewrite (Unmarshal_valid _ _ _ Hf).
  unfold mbind, outcome_bind, mret, outcome_ret. cbn [fmap option_fmap option_map].
  split.
  - intros [= <-]. exists t, rest, raw, n.
    split_and!; try done. by destruct hash.
  - intros (t' & rest' & raw' & n' & [= <- <-] & _ & Hr' & Hd' & _ & ->).
    rewrite Hr' in Hreq. rewrite Hd' in Hdec. by simplify_eq.
Qed.

Lemma ConvertHashToAddress_returns (typeCode : bytes) (hash : string) :
  ∃ addr err, ConvertHashToAddress typeCode hash = Returns (addr, err)
              ∧ (err ≠ None → addr = [])
              ∧ ∀ fe, err ≠ Some (ErrFormat fe).
Proof.
  unfold ConvertHashToAddress.
  destruct typeCode as [| t rest].
  { eexists _, _. by split_and!. }
  rewrite decide_False by done.
  destruct (decide (String.length hash = 0)) as [Hz | Hnz].
  { eexists _, _. by split_and!. }
  rewrite index_head. unfold mbind at 1, outcome_bind at 1.
  destruct (reqLenOfTag t) as [n |] eqn:Hreq.
  2:{ eexists _, _. by split_and!. }
  destruct (base64.DecodeString hash) as [raw [off |]] eqn:Hdec.
  { eexists _, _. by split_and!. }
  destruct (length raw <? n) eqn:Hlen.
  { eexists _, _. by split_and!. }
  apply Nat.ltb_ge in Hlen.
  unfold mbind at 1, outcome_bind at 1.
  rewrite slice_in_range by lia. unfold mbind at 1, outcome_bind at 1.
  rewrite Nat.sub_0_r, drop_0. cbn [app].
  destruct (reqLenOfTag_valid _ _ _ Hreq Hlen) as [hrp Hf].
  rewrite (Unmarshal_valid _ _ _ Hf).
  eexists _, _. by split_and!.
Qed.

(** X22. [ConvertHashToAddress] returns on every type code and hash. It returns
    an address without an error exactly when the type code starts with one
    of the six tags, the hash is not empty and decodes as base64 to at least
    the 16 (scope, scope specification, contract specification) or 32
    (session, record, record specification) bytes the type takes; the
    address is the tag followed by that many of the decoded bytes, and it is
    always valid: the format check at the end never fails. With an error
    the address returned is empty. Bytes of the type code after the first
    and decoded bytes after the ones taken are ignored. *)
Theorem ConvertHashToAddress_cases (typeCode : bytes) (hash : string) :
  (∀ addr,
     ConvertHashToAddress typeCode hash = Returns (addr, None)
     ↔ ∃ t rest raw n,
         typeCode = t :: rest ∧ hash ≠ "" ∧ reqLenOfTag t = Some n
         ∧ base64.DecodeString hash = (raw, None) ∧ n ≤ length raw
         ∧ addr = t :: take n raw)
  ∧ (∀ addr,
       ConvertHashToAddress typeCode hash = Returns (addr, None) →
       MetadataAddress.Validate addr = Returns None)
  ∧ (∃ addr err,
       ConvertHashToAddress typeCode hash = Returns (addr, err)
       ∧ (err ≠ None → addr = [])
       ∧ ∀ fe, err ≠ Some (ErrFormat fe))
  ∧ (∀ t, reqLenOfTag t
          = if bool_decide (t ∈ [ScopeTag; ScopeSpecificationTag;
                                 ContractSpecificationTag]) then Some 16
            else if bool_decide (t ∈ [SessionTag; RecordTag;
                                      RecordSpecificationTag]) then Some 32
            else None).
Proof.
  split_and!.
  - intros addr. apply ConvertHashToAddress_ok_iff.
  - intros addr (t & rest & raw & n & -> & _ & Hreq & _ & Hlen & ->)
      %ConvertHashToAddress_ok_iff.
    destruct (reqLenOfTag_valid _ _ _ Hreq Hlen) as [hrp Hf].
    unfold MetadataAddress.Validate.
    by rewrite VerifyMetadataAddressFormat_eq, Hf.
  - apply ConvertHashToAddress_returns.
  - intros t. unfold reqLenOfTag.
    repeat case_bool_decide; try done; set_solver.
Qed.

End FromHash.

(** ** The base64 decoder inverts the encoder *)

Section Base64.
#[local] Open Scope N_scope.

Ltac divlia := zify; Z.to_euclidean_division_equations; lia.

Lemma decodeMap_char (k : N) :
  k < 64 → base64.decodeMap (base64.char k) = Some k.
Proof.
  intros Hk. rewrite <- (N2Nat.id k).
  assert (Hm : (N.to_nat k < 64)%nat) by lia.
  revert Hm. generalize (N.to_nat k). clear k Hk. intros m Hm.
  do 64 (destruct m as [| m]; [vm_compute; reflexivity |]). lia.
Qed.

Lemma decodeMap_pad : base64.decodeMap "=" = None.
Proof. vm_compute. reflexivity. Qed.

Lemma lor_shiftl_add (a b n : N) :
  b < 2 ^ n → N.lor (N.shiftl a n) b = a * 2 ^ n + b.
Proof.
  intros Hb.
  assert (Hland : N.land (N.shiftl a n) b = 0).
  { apply N.bits_inj_0. intros m. rewrite N.land_spec.
    destruct (N.lt_ge_cases m n) as [Hlt | Hge].
    - by rewrite N.shiftl_spec_low.
    - rewrite <- (N.mod_small b (2 ^ n)) by done.
      rewrite N.mod_pow2_bits_high by done. apply andb_false_r. }
  rewrite <- N.lxor_lor by done. rewrite <- N.add_nocarry_lxor by done.
  by rewrite N.shiftl_mul_pow2.
Qed.

Lemma sextet (x k : N) : N.land (N.shiftr x k) 63 = (x / 2 ^ k) mod 64.
Proof.
  rewrite N.shiftr_div_pow2. change 63 with (N.ones 6).
  by rewrite N.land_ones.
Qed.

Lemma sextet0 (x : N) : N.land x 63 = x mod 64.
Proof. change 63 with (N.ones 6). by rewrite N.land_ones. Qed.

Lemma byteOf_mod (x : N) (b : byte) :
  x mod 256 = Byte.to_N b → base64.byteOf x = b.
Proof.
  intros Hx. unfold base64.byteOf. change 255 with (N.ones 8).
  rewrite N.land_ones. change (2 ^ 8) with 256. rewrite Hx.
  by rewrite Byte.of_to_N.
Qed.

(** The value the decoder assembles from four 6-bit values. *)
Lemma quantum_val (s0 s1 s2 s3 : N) :
  s1 < 64 → s2 < 64 → s3 < 64 →
  N.lor (N.lor (N.lor (N.shiftl s0 18) (N.shiftl s1 12)) (N.shiftl s2 6)) s3
  = s0 * 262144 + s1 * 4096 + s2 * 64 + s3.
Proof.
  intros H1 H2 H3.
  rewrite (lor_shiftl_add s0 (N.shiftl s1 12) 18).
  2:{ rewrite N.shiftl_mul_pow2. change (2 ^ 12) with 4096.
      change (2 ^ 18) with 262144. lia. }
  replace (s0 * 2 ^ 18 + N.shiftl s1 12) with (N.shiftl (s0 * 64 + s1) 12).
  2:{ rewrite !N.shiftl_mul_pow2. change (2 ^ 12) with 4096.
      change (2 ^ 18) with 262144. lia. }
  rewrite (lor_shiftl_add (s0 * 64 + s1) (N.shiftl s2 6) 12).
  2:{ rewrite N.shiftl_mul_pow2. change (2 ^ 6) with 64.
      change (2 ^ 12) with 4096. lia. }
  replace ((s0 * 64 + s1) * 2 ^ 12 + N.shiftl s2 6)
    with (N.shiftl (s0 * 4096 + s1 * 64 + s2) 6).
  2:{ rewrite !N.shiftl_mul_pow2. change (2 ^ 6) with 64.
      change (2 ^ 12) with 4096. lia. }
  rewrite lor_shiftl_add by done. change (2 ^ 6) with 64. lia.
Qed.

Lemma byte_lt (b : byte) : Byte.to_N b < 256.
Proof. pose proof (Byte.to_N_bounded b). lia. Qed.

(** The 24 bits of three bytes, as the encoder joins them. *)
Lemma group_val (a b c : N) :
  b < 256 → c < 256 →
  N.lor (N.lor (N.shiftl a 16) (N.shiftl b 8)) c = a * 65536 + b * 256 + c.
Proof.
  intros Hb Hc.
  rewrite (lor_shiftl_add a (N.shiftl b 8) 16).
  2:{ rewrite N.shiftl_mul_pow2. change (2 ^ 8) with 256.
      change (2 ^ 16) with 65536. lia. }
  replace (a * 2 ^ 16 + N.shiftl b 8) with (N.shiftl (a * 256 + b) 8).
  2:{ rewrite !N.shiftl_mul_pow2. change (2 ^ 8) with 256.
      change (2 ^ 16) with 65536. lia. }
  rewrite lor_shiftl_add by done. change (2 ^ 8) with 256. lia.
Qed.

Lemma sextets_val (v : N) :
  v < 16777216 →
  (v / 262144) mod 64 * 262144 + (v / 4096) mod 64 * 4096
  + (v / 64) mod 64 * 64 + v mod 64 = v.
Proof. intros Hv. divlia. Qed.

Lemma bytes_of_val (a b c : N) :
  a < 256 → b < 256 → c < 256 →
  let v := a * 65536 + b * 256 + c in
  (v / 65536) mod 256 = a ∧ (v / 256) mod 256 = b ∧ v mod 256 = c.
Proof. intros Ha Hb Hc v. subst v. split_and!; divlia. Qed.

(** The bytes of a quantum are the three bytes it was encoded from. *)
Lemma quantumBytes_group (a b c : byte) :
  let v := N.lor (N.lor (N.shiftl (Byte.to_N a) 16)
                        (N.shiftl (Byte.to_N b) 8)) (Byte.to_N c) in
  base64.quantumBytes
    [N.land (N.shiftr v 18) 63; N.land (N.shiftr v 12) 63;
     N.land (N.shiftr v 6) 63; N.land v 63]
  = [a; b; c].
Proof.
  pose proof (byte_lt a) as Ha. pose proof (byte_lt b) as Hb.
  pose proof (byte_lt c) as Hc. intros v.
  assert (Hv : v = Byte.to_N a * 65536 + Byte.to_N b * 256 + Byte.to_N c)
    by (by apply group_val).
  unfold base64.quantumBytes. cbn [nth].
  rewrite !sextet, sextet0.
  change (2 ^ 18) with 262144. change (2 ^ 12) with 4096.
  change (2 ^ 6) with 64.
  rewrite quantum_val by (by apply N.mod_lt).
  rewrite sextets_val by lia.
  rewrite !N.shiftr_div_pow2.
  change (2 ^ 16) with 65536. change (2 ^ 8) with 256.
  destruct (bytes_of_val _ _ _ Ha Hb Hc) as (H1 & H2 & H3).
  rewrite <- Hv in H1, H2, H3.
  by rewrite (byteOf_mod _ _ H1), (byteOf_mod _ _ H2), (byteOf_mod _ _ H3).
Qed.

Lemma land63_lt (x : N) : N.land x 63 < 64.
Proof. rewrite sextet0. by apply N.mod_lt. Qed.

Lemma decode_char (k : N) (rest : list ascii) (si : nat) (dbuf : list N)
  (dst : bytes) :
  k < 64 →
  base64.decode (base64.char k :: rest) si dbuf dst
  = if (length (dbuf ++ [k]) =? 4)%nat
    then base64.decode rest (S si) [] (dst ++ base64.quantumBytes (dbuf ++ [k]))
    else base64.decode rest (S si) (dbuf ++ [k]) dst.
Proof. intros Hk. cbn [base64.decode]. by rewrite decodeMap_char. Qed.

Lemma quantumBytes_pair (a b : byte) :
  let v := N.lor (N.shiftl (Byte.to_N a) 16) (N.shiftl (Byte.to_N b) 8) in
  take 2 (base64.quantumBytes
            [N.land (N.shiftr v 18) 63; N.land (N.shiftr v 12) 63;
             N.land (N.shiftr v 6) 63])
  = [a; b].
Proof.
  intros v. pose proof (quantumBytes_group a b x00) as Hg.
  cbn zeta in Hg. change (Byte.to_N x00) with 0 in Hg.
  rewrite N.lor_0_r in Hg. fold v in Hg.
  assert (Hz : N.land v 63 = 0).
  { pose proof (byte_lt a) as Ha. pose proof (byte_lt b) as Hb.
    assert (Hv : v = Byte.to_N a * 65536 + Byte.to_N b * 256 + 0)
      by (rewrite <- (N.lor_0_r v); by apply group_val).
    rewrite sextet0, Hv. divlia. }
  rewrite Hz in Hg.
  change (base64.quantumBytes
            [N.land (N.shiftr v 18) 63; N.land (N.shiftr v 12) 63;
             N.land (N.shiftr v 6) 63])
    with (base64.quantumBytes
            [N.land (N.shiftr v 18) 63; N.land (N.shiftr v 12) 63;
             N.land (N.shiftr v 6) 63; 0]).
  by rewrite Hg.
Qed.

Lemma quantumBytes_single (a : byte) :
  let v := N.shiftl (Byte.to_N a) 16 in
  take 1 (base64.quantumBytes
            [N.land (N.shiftr v 18) 63; N.land (N.shiftr v 12) 63])
  = [a].
Proof.
  intros v. pose proof (quantumBytes_group a x00 x00) as Hg.
  cbn zeta in Hg. change (Byte.to_N x00) with 0 in Hg.
  rewrite N.shiftl_0_l, !N.lor_0_r in Hg. fold v in Hg.
  assert (Hv : v = Byte.to_N a * 65536)
    by (unfold v; by rewrite N.shiftl_mul_pow2).
  assert (Hz : N.land v 63 = 0 ∧ N.land (N.shiftr v 6) 63 = 0).
  { pose proof (byte_lt a) as Ha.
    rewrite sextet0, sextet, Hv. change (2 ^ 6) with 64. split; divlia. }
  destruct Hz as [Hz0 Hz6]. rewrite Hz0, Hz6 in Hg.
  change (base64.quantumBytes
            [N.land (N.shiftr v 18) 63; N.land (N.shiftr v 12) 63])
    with (base64.quantumBytes
            [N.land (N.shiftr v 18) 63; N.land (N.shiftr v 12) 63; 0; 0]).
  by rewrite Hg.
Qed.

(** The decoder inverts the encoder. *)
Lemma decode_EncodeToString (n : nat) :
  ∀ (src : bytes) (si : nat) (dst : bytes),
    (length src ≤ n)%nat →
    base64.decode (list_ascii_of_string (base64.EncodeToString src)) si [] dst
    = (dst ++ src, None).
Proof.
  induction n as [| n IH]; intros src si dst Hlen.
  { destruct src; [| cbn [length] in Hlen; lia].
    cbn. by rewrite app_nil_r. }
  destruct src as [| a [| b [| c rest]]].
  - cbn. by rewrite app_nil_r.
  - cbn [base64.EncodeToString list_ascii_of_string].
    rewrite !decode_char by apply land63_lt. cbn [app length Nat.eqb].
    cbn [base64.decode]. rewrite decodeMap_pad.
    cbn [base64.isNewline Ascii.eqb Bool.eqb orb negb length
           base64.skipNewlines base64.padded Nat.sub].
    by rewrite quantumBytes_single.
  - cbn [base64.EncodeToString list_ascii_of_string].
    rewrite !decode_char by apply land63_lt. cbn [app length Nat.eqb].
    cbn [base64.decode]. rewrite decodeMap_pad.
    cbn [base64.isNewline Ascii.eqb Bool.eqb orb negb length
           base64.skipNewlines base64.padded Nat.sub].
    by rewrite quantumBytes_pair.
  - cbn [base64.EncodeToString list_ascii_of_string].
    rewrite !decode_char by apply land63_lt. cbn [app length Nat.eqb].
    rewrite quantumBytes_group. rewrite IH by (cbn [length] in Hlen; lia).
    by rewrite <- app_assoc.
Qed.

Lemma DecodeString_EncodeToString (src : bytes) :
  base64.DecodeString (base64.EncodeToString src) = (src, None).
Proof.
  unfold base64.DecodeString.
  by rewrite (decode_EncodeToString (length src)).
Qed.

End Base64.

Section FromEncodedHash.
Context `{K : Keys}.

(** X23. The base64 decoder inverts the encoder, so [ConvertHashToAddress] of a
    tag and the base64 text of bytes is the tag followed by the first 16 or
    32 of the bytes (the number the type takes), when there are that many;
    the result is a valid address. *)
Theorem ConvertHashToAddress_of_encoded (t : byte) (raw : bytes) (n : nat) :
  reqLenOfTag t = Some n →
  n ≤ length raw →
  base64.DecodeString (base64.EncodeToString raw) = (raw, None)
  ∧ ConvertHashToAddress [t] (base64.EncodeToString raw)
    = Returns (t :: take n raw, None)
  ∧ MetadataAddress.Validate (t :: take n raw) = Returns None.
Proof.
  intros Hreq Hlen.
  pose proof (DecodeString_EncodeToString raw) as Hdec.
  split_and!; [done | |].
  - apply ConvertHashToAddress_ok_iff. exists t, [], raw, n.
    split_and!; try done.
    assert (Hn : 16 ≤ n).
    { rewrite reqLenOfTag_typeOfTag in Hreq.
      destruct (typeOfTag t) as [[[hrp m] c] |] eqn:Ht; [| done].
      cbn in Hreq. injection Hreq as <-.
      destruct (typeOfTag_cases _ _ _ _ Ht) as [[-> _] | ->]; lia. }
    destruct raw as [| b0 [| b1 [| b2 raw]]];
      try (cbn [length] in Hlen; lia). done.
  - destruct (reqLenOfTag_valid _ _ _ Hreq Hlen) as [hrp Hf].
    unfold MetadataAddress.Validate.
    by rewrite VerifyMetadataAddressFormat_eq, Hf.
Qed.

End FromEncodedHash.

(** ** Lists of links *)

Section AccountLists.
Context `{K : Keys}.

(** The account addresses of the entries, in order: nil entries and empty
    addresses left out. *)
Definition accAddrsOf (a : AccMDLinks) : list bytes :=
  filter (λ acc, acc ≠ []) (omap (fmap AccAddr) a).

(** The elements of [l] that are not in [seen], each at its first
    occurrence. *)
Fixpoint firstOccurrences (seen l : list bytes) : list bytes :=
  match l with
  | [] => []
  | x :: l =>
      if bool_decide (x ∈ seen) then firstOccurrences seen l
      else x :: firstOccurrences (x :: seen) l
  end.

Lemma firstOccurrences_elem_of (l : list bytes) :
  ∀ seen x, x ∈ firstOccurrences seen l ↔ x ∈ l ∧ x ∉ seen.
Proof.
  induction l as [| y l IH]; intros seen x; cbn [firstOccurrences].
  - set_solver.
  - case_bool_decide as Hy.
    + rewrite IH. set_solver.
    + rewrite elem_of_cons, IH. destruct (decide (x = y)); set_solver.
Qed.

Lemma firstOccurrences_NoDup (l : list bytes) :
  ∀ seen, NoDup (firstOccurrences seen l).
Proof.
  induction l as [| y l IH]; intros seen; cbn [firstOccurrences].
  - constructor.
  - case_bool_decide as Hy; [apply IH |].
    constructor; [| apply IH]. rewrite firstOccurrences_elem_of. set_solver.
Qed.

Lemma firstOccurrences_sublist (l : list bytes) :
  ∀ seen, firstOccurrences seen l `sublist_of` l.
Proof.
  induction l as [| y l IH]; intros seen; cbn [firstOccurrences].
  - done.
  - case_bool_decide as Hy.
    + by apply sublist_cons.
    + by apply sublist_skip.
Qed.

(** The map of the loop is [true] on the addresses seen and nothing
    else. *)
Definition seenAccs (m : gmap bytes bool) (seen : list bytes) : Prop :=
  ∀ key, default false (m !! key) = bool_decide (key ∈ seen).

Lemma getAccAddrs_spec (a : AccMDLinks) :
  ∀ (m : gmap bytes bool) (seen rv : list bytes),
    seenAccs m seen →
    getAccAddrs m rv a = rv ++ firstOccurrences seen (accAddrsOf a).
Proof.
  unfold accAddrsOf.
  induction a as [| entry rest IH]; intros m seen rv Hinv.
  - cbn. by rewrite app_nil_r.
  - destruct entry as [link |]; cbn [getAccAddrs omap list_omap fmap option_fmap option_map].
    2:{ by apply IH. }
    destruct (AccAddr link) as [| b acc] eqn:Hacc.
    + rewrite decide_True by done. rewrite filter_cons_False by (by intros []).
      by apply IH.
    + rewrite decide_False by done. rewrite filter_cons_True by done.
      cbn [firstOccurrences]. rewrite (Hinv (b :: acc)).
      case_bool_decide as Hseen; cbn [negb].
      * by apply IH.
      * rewrite (IH (<[b :: acc := true]> m) ((b :: acc) :: seen)).
        { by rewrite <- app_assoc. }
        intros key. destruct (decide (b :: acc = key)) as [<- | Hne].
        -- rewrite lookup_insert_eq. cbn. symmetry.
           apply bool_decide_eq_true. set_solver.
        -- rewrite lookup_insert_ne by done. rewrite Hinv.
           apply bool_decide_ext. set_solver.
Qed.

Lemma elem_of_accAddrsOf (a : AccMDLinks) (acc : bytes) :
  acc ∈ accAddrsOf a
  ↔ acc ≠ [] ∧ ∃ link, Some link ∈ a ∧ AccAddr link = acc.
Proof.
  unfold accAddrsOf. rewrite list_elem_of_filter, list_elem_of_omap.
  split.
  - intros (Hne & [link |] & Hin & Heq); [| done].
    cbn in Heq. injection Heq as <-. eauto.
  - intros (Hne & link & Hin & <-). split; [done |].
    exists (Some link). by split.
Qed.

(** X24. [GetAccAddrs] returns the account addresses of the entries that are not
    nil and whose account address is not empty, each once, in the order of
    their first occurrence in the list. *)
Theorem GetAccAddrs_first_occurrences (a : AccMDLinks) :
  GetAccAddrs a = firstOccurrences [] (accAddrsOf a)
  ∧ NoDup (GetAccAddrs a)
  ∧ (∀ acc, acc ∈ GetAccAddrs a
            ↔ acc ≠ [] ∧ ∃ link, Some link ∈ a ∧ AccAddr link = acc)
  ∧ GetAccAddrs a `sublist_of` accAddrsOf a.
Proof.
  assert (Heq : GetAccAddrs a = firstOccurrences [] (accAddrsOf a)).
  { unfold GetAccAddrs. rewrite (getAccAddrs_spec a ∅ [] []); [done |].
    intros key. rewrite lookup_empty. cbn. symmetry.
    apply bool_decide_eq_false. set_solver. }
  rewrite Heq. split_and!.
  - done.
  - apply firstOccurrences_NoDup.
  - intros acc. rewrite firstOccurrences_elem_of, elem_of_accAddrsOf.
    set_solver.
  - apply firstOccurrences_sublist.
Qed.

(** The text [GetPrimaryUUIDs] gives for one entry. *)
Definition primaryUUIDText (entry : option AccMDLink) : string :=
  match entry with
  | Some link =>
      match MetadataAddress.PrimaryUUID (MDAddr link) with
      | Returns (u, None) => uuid.String u
      | _ => ""
      end
  | None => ""
  end.

Lemma getPrimaryUUIDs_spec (a : AccMDLinks) :
  ∀ (i : nat) (rv : list string),
    length rv = i + length a →
    (∀ j, i ≤ j → j < length rv → rv !! j = Some "") →
    getPrimaryUUIDs i rv a = Returns (take i rv ++ (primaryUUIDText <$> a)).
Proof.
  induction a as [| entry rest IH]; intros i rv Hlen Hblank.
  - cbn [getPrimaryUUIDs fmap list_fmap length] in *.
    rewrite app_nil_r. by rewrite firstn_all2 by lia.
  - cbn [getPrimaryUUIDs fmap list_fmap length] in *.
    assert (Hi : rv !! i = Some "") by (apply Hblank; lia).
    assert (Hstep : ∀ s, take (S i) (<[i := s]> rv) = take i rv ++ [s]).
    { intros s. rewrite (take_S_r _ _ s).
      - by rewrite take_insert_ge by lia.
      - apply list_lookup_insert_eq. lia. }
    assert (Hkeep : take (S i) rv = take i rv ++ [""])
      by (by apply take_S_r).
    assert (Hnext : ∀ rv' t,
              length rv' = length rv →
              (∀ j, S i ≤ j → j < length rv' → rv' !! j = Some "") →
              take (S i) rv' = take i rv ++ [t] →
              getPrimaryUUIDs (S i) rv' rest
              = Returns (take i rv ++ t :: (primaryUUIDText <$> rest))).
    { intros rv' t Hl Hb Ht. rewrite IH; [| lia | done].
      rewrite Ht. by rewrite <- app_assoc. }
    destruct entry as [link |]; cbn [primaryUUIDText].
    2:{ unfold mbind, outcome_bind, mret, outcome_ret.
        apply Hnext; [done | intros j ? ?; apply Hblank; lia | done]. }
    rewrite PrimaryUUID_eq.
    destruct (0 <? length (MDAddr link)) eqn:Hpos.
    + unfold mbind, outcome_bind, mret, outcome_ret.
      destruct (primaryOf (MDAddr link)) as [u [e |]].
      * apply Hnext; [done | intros j ? ?; apply Hblank; lia | done].
      * apply Hnext; [by rewrite length_insert | | done].
        intros j Hj1 Hj2. rewrite length_insert in Hj2.
        rewrite list_lookup_insert_ne by lia. apply Hblank; lia.
    + apply Nat.ltb_ge in Hpos.
      destruct (MDAddr link) as [| b md]; [| cbn [length] in Hpos; lia].
      unfold mbind, outcome_bind, mret, outcome_ret. cbn [primaryOf].
      apply Hnext; [done | intros j ? ?; apply Hblank; lia | done].
Qed.

Lemma hex_EncodeToString_length (src : bytes) :
  String.length (hex.EncodeToString src) = 2 * length src.
Proof.
  induction src as [| b src IH]; [done |].
  cbn [hex.EncodeToString String.length length]. rewrite IH. lia.
Qed.

Lemma uuid_String_length (u : uuid.UUID) : String.length (uuid.String u) = 36.
Proof.
  pose proof (uuid.raw_size u) as Hu. unfold uuid.String.
  rewrite !bech32_facts.length_append, !hex_EncodeToString_length.
  rewrite !length_take, !length_drop, Hu. reflexivity.
Qed.

(** X25. [GetPrimaryUUIDs] returns on every list, one text per entry in the order
    of the list: the text of the primary UUID of the entry's metadata
    address when [PrimaryUUID] returns one, which is 36 characters long, and
    the empty string for a nil entry and when [PrimaryUUID] returns an
    error (an empty address, an unknown tag, fewer than 17 bytes). *)
Theorem GetPrimaryUUIDs_entries (a : AccMDLinks) :
  GetPrimaryUUIDs a = Returns (primaryUUIDText <$> a)
  ∧ length (primaryUUIDText <$> a) = length a
  ∧ (∀ entry, primaryUUIDText entry = ""
              ∨ String.length (primaryUUIDText entry) = 36)
  ∧ (∀ link u,
       MetadataAddress.PrimaryUUID (MDAddr link) = Returns (u, None) →
       primaryUUIDText (Some link) = uuid.String u)
  ∧ (∀ link,
       (∀ u, MetadataAddress.PrimaryUUID (MDAddr link) ≠ Returns (u, None)) →
       primaryUUIDText (Some link) = "")
  ∧ primaryUUIDText None = "".
Proof.
  split_and!.
  - unfold GetPrimaryUUIDs. rewrite getPrimaryUUIDs_spec.
    + by rewrite take_0.
    + by rewrite length_replicate.
    + intros j _ Hj. rewrite length_replicate in Hj.
      by apply lookup_replicate_2.
  - by rewrite length_fmap.
  - intros [link |]; [| by left]. cbn [primaryUUIDText].
    destruct (MetadataAddress.PrimaryUUID (MDAddr link)) as [[u [e |]] | p];
      [by left | right; apply uuid_String_length | by left].
  - intros link u Hu. cbn [primaryUUIDText]. by rewrite Hu.
  - intros link Hno. cbn [primaryUUIDText].
    destruct (MetadataAddress.PrimaryUUID (MDAddr link)) as [[u [e |]] | p];
      [done | by destruct (Hno u) | done].
  - reflexivity.
Qed.

(** The metadata addresses of the entries that are not nil, in order. *)
Definition mdAddrsOf (a : AccMDLinks) : list bytes := omap (fmap MDAddr) a.

Lemma linksFailure_None_iff (a : AccMDLinks) :
  ∀ seen,
    linksFailure seen a = None
    ↔ (∀ entry, entry ∈ a →
         ∃ link, entry = Some link ∧ isValidScope (MDAddr link) = true
                 ∧ AccAddr link ≠ [])
      ∧ NoDup (mdAddrsOf a)
      ∧ (∀ x, x ∈ mdAddrsOf a → x ∉ seen).
Proof.
  unfold mdAddrsOf.
  induction a as [| entry rest IH]; intros seen.
  - cbn. split; [| done]. intros _. split_and!; [set_solver | constructor |
      set_solver].
  - cbn [linksFailure entryFailure].
    destruct entry as [link |].
    2:{ split; [done |]. intros (Hall & _).
        destruct (Hall None) as (? & ? & _); [set_solver | done]. }
    cbn [omap list_omap fmap option_fmap option_map linksFailure
           entryFailure].
    case_bool_decide as Hseen.
    { split; [done |]. intros (_ & _ & Hfresh).
      destruct (Hfresh (MDAddr link)); [set_solver | done]. }
    destruct (isValidScope (MDAddr link)) eqn:Hvalid; cbn [negb].
    2:{ split; [done |]. intros (Hall & _).
        destruct (Hall (Some link)) as (l & [= <-] & Hv & _); [set_solver |].
        congruence. }
    case_bool_decide as Hacc.
    { split; [done |]. intros (Hall & _).
      destruct (Hall (Some link)) as (l & [= <-] & _ & Hne); [set_solver |].
      done. }
    rewrite IH. rewrite NoDup_cons. split.
    + intros (Hall & Hnd & Hfresh). split_and!.
      * intros entry [-> | Hin]%elem_of_cons; [by eauto | by apply Hall].
      * intros Hin. apply Hfresh in Hin. set_solver.
      * done.
      * intros x [-> | Hin]%elem_of_cons; [done |].
        apply Hfresh in Hin. set_solver.
    + intros (Hall & [Hnotin Hnd] & Hfresh). split_and!.
      * intros entry Hin. apply Hall. set_solver.
      * done.
      * intros x Hin. rewrite not_elem_of_cons. split.
        -- intros ->. done.
        -- apply Hfresh. set_solver.
Qed.

Lemma ValidateForScopes_None_iff (a : AccMDLinks) :
  ValidateForScopes a = Returns None
  ↔ (∀ entry, entry ∈ a →
       ∃ link, entry = Some link ∧ isValidScope (MDAddr link) = true
               ∧ AccAddr link ≠ [])
    ∧ NoDup (mdAddrsOf a).
Proof.
  assert (Hspec : ∃ r, ValidateForScopes a = Returns r
                       ∧ (r = None ↔ linksFailure [] a = None)).
  { unfold ValidateForScopes.
    destruct (decide (length a = 0)) as [Hz | Hnz].
    - apply nil_length_inv in Hz. subst a. by exists None.
    - destruct (validateLinks_spec a ∅ [] seenInvariant_empty)
        as (r & Hr & _ & Hiff). by exists r. }
  destruct Hspec as (r & -> & Hiff).
  pose proof (linksFailure_None_iff a []) as Hl. split.
  - intros [= ->]. destruct (proj1 Hl (proj1 Hiff eq_refl)) as (? & ? & _).
    done.
  - intros (Hall & Hnd). f_equal. apply Hiff, Hl. split_and!; [done | done |].
    set_solver.
Qed.

Lemma isValidScope_IsScopeAddress (ma : bytes) :
  isValidScope ma = true ↔ MetadataAddress.IsScopeAddress ma = Returns true.
Proof.
  unfold isValidScope, MetadataAddress.IsScopeAddress.
  rewrite type_test_eq, VerifyMetadataAddressFormat_eq.
  rewrite bool_decide_eq_true. split.
  - intros [= ->]. by rewrite bool_decide_true.
  - intros [= Hb]. apply bool_decide_eq_true in Hb. by rewrite Hb.
Qed.

(** X26. [ValidateForScopes] returns no error exactly on the lists in which no
    entry is nil, every metadata address is a valid scope address, no
    account address is empty, and no metadata address occurs twice. *)
Theorem ValidateForScopes_accepts_iff (a : AccMDLinks) :
  ValidateForScopes a = Returns None
  ↔ (∀ entry, entry ∈ a →
       ∃ link, entry = Some link
               ∧ MetadataAddress.IsScopeAddress (MDAddr link) = Returns true
               ∧ AccAddr link ≠ [])
    ∧ NoDup (mdAddrsOf a).
Proof.
  rewrite ValidateForScopes_None_iff. split.
  - intros (Hall & Hnd). split; [| done]. intros entry Hin.
    destruct (Hall entry Hin) as (link & -> & Hv & Hne). exists link.
    by rewrite <- isValidScope_IsScopeAddress.
  - intros (Hall & Hnd). split; [| done]. intros entry Hin.
    destruct (Hall entry Hin) as (link & -> & Hv & Hne). exists link.
    by rewrite isValidScope_IsScopeAddress.
Qed.

Lemma hex_digits_no_dash (b : byte) :
  hex.digit (N.shiftr (Byte.to_N b) 4) ≠ "-"%char
  ∧ hex.digit (N.land (Byte.to_N b) 15) ≠ "-"%char.
Proof. destruct b; vm_compute; done. Qed.

(** The text of a UUID without its dashes. *)
Definition undashed (s : string) : list ascii :=
  filter (λ c, c ≠ "-"%char) (list_ascii_of_string s).

Lemma undashed_hex (src : bytes) :
  undashed (hex.EncodeToString src)
  = list_ascii_of_string (hex.EncodeToString src).
Proof.
  unfold undashed. induction src as [| b src IH]; [done |].
  cbn [hex.EncodeToString list_ascii_of_string].
  destruct (hex_digits_no_dash b) as [Hhi Hlo].
  rewrite !filter_cons_True by done. by rewrite IH.
Qed.

Lemma undashed_append (a b : string) :
  undashed (a +:+ b) = undashed a ++ undashed b.
Proof.
  unfold undashed. by rewrite bech32_facts.list_ascii_of_append, filter_app.
Qed.

Lemma uuid_pieces (b : bytes) :
  take 4 b ++ take 2 (drop 4 b) ++ take 2 (drop 6 b) ++ take 2 (drop 8 b)
  ++ drop 10 b = b.
Proof.
  rewrite !app_assoc.
  rewrite (take_take_drop b 4 2). change (4 + 2) with 6.
  rewrite (take_take_drop b 6 2). change (6 + 2) with 8.
  rewrite (take_take_drop b 8 2). apply take_drop.
Qed.

Lemma uuid_String_bytes (u : uuid.UUID) :
  (hex.Decode (undashed (uuid.String u))).1 = uuid.raw u.
Proof.
  unfold uuid.String. cbv zeta.
  rewrite !undashed_append, !undashed_hex.
  change (undashed "-") with (@nil ascii). cbn [app].
  rewrite !hex_Decode_EncodeToString. cbn [fst].
  rewrite <- (app_nil_r (list_ascii_of_string _)).
  rewrite hex_Decode_EncodeToString. cbn [hex.Decode fst].
  rewrite app_nil_r. apply uuid_pieces.
Qed.

Lemma uuid_String_inj (u v : uuid.UUID) :
  uuid.String u = uuid.String v → u = v.
Proof.
  intros Heq. apply UUID_eq.
  rewrite <- (uuid_String_bytes u), <- (uuid_String_bytes v).
  by rewrite Heq.
Qed.

Lemma valid_scope_text (link : AccMDLink) :
  isValidScope (MDAddr link) = true →
  ∃ u, MDAddr link = ScopeTag :: uuid.raw u
       ∧ primaryUUIDText (Some link) = uuid.String u.
Proof.
  intros Hv. unfold isValidScope in Hv. apply bool_decide_eq_true in Hv.
  rewrite VerifyMetadataAddressFormat_eq in Hv. injection Hv as Hv.
  destruct (formatOf_layout (MDAddr link)) as (L1 & _).
  apply L1 in Hv as (rest & Hma & Hlen).
  destruct (UUID_of_bytes rest Hlen) as [u Hu].
  exists u. split; [by rewrite Hu |].
  assert (Hp : MetadataAddress.PrimaryUUID (MDAddr link) = Returns (u, None)).
  { apply PrimaryUUID_ok_iff. exists ScopeTag, rest.
    split_and!; [done | set_solver | lia |].
    by rewrite firstn_all2 by lia. }
  cbn [primaryUUIDText]. by rewrite Hp.
Qed.

Lemma validated_texts_NoDup (a : AccMDLinks) :
  (∀ entry, entry ∈ a →
     ∃ link, entry = Some link ∧ isValidScope (MDAddr link) = true) →
  NoDup (mdAddrsOf a) → NoDup (primaryUUIDText <$> a).
Proof.
  unfold mdAddrsOf. induction a as [| entry rest IH]; intros Hall Hnd.
  { constructor. }
  destruct (Hall entry) as (link & -> & Hv); [set_solver |].
  cbn [omap list_omap fmap option_fmap option_map] in Hnd.
  apply NoDup_cons in Hnd as [Hnotin Hnd].
  rewrite fmap_cons. apply NoDup_cons. split.
  - intros (entry' & Heq & Hin)%list_elem_of_fmap.
    destruct (Hall entry') as (link' & -> & Hv'); [set_solver |].
    destruct (valid_scope_text link Hv) as (u & Hma & Ht).
    destruct (valid_scope_text link' Hv') as (u' & Hma' & Ht').
    rewrite Ht, Ht' in Heq. apply uuid_String_inj in Heq as ->.
    apply Hnotin. apply list_elem_of_omap. exists (Some link').
    split; [done |]. cbn. by rewrite Hma, Hma'.
  - apply IH; [| done]. intros e Hin. apply Hall. set_solver.
Qed.

(** X27. On a list that [ValidateForScopes] accepts, [GetPrimaryUUIDs] returns
    one UUID text of 36 characters per entry and no text twice, and the
    account address of every entry is in the result of [GetAccAddrs]. *)
Theorem validated_links_queries (a : AccMDLinks) :
  ValidateForScopes a = Returns None →
  (∃ texts, GetPrimaryUUIDs a = Returns texts
            ∧ length texts = length a
            ∧ Forall (λ s, String.length s = 36) texts
            ∧ NoDup texts)
  ∧ (∀ entry, entry ∈ a →
       ∃ link, entry = Some link ∧ AccAddr link ∈ GetAccAddrs a).
Proof.
  intros (Hall & Hnd)%ValidateForScopes_None_iff. split.
  - exists (primaryUUIDText <$> a). split_and!.
    + unfold GetPrimaryUUIDs. rewrite getPrimaryUUIDs_spec.
      * by rewrite take_0.
      * by rewrite length_replicate.
      * intros j _ Hj. rewrite length_replicate in Hj.
        by apply lookup_replicate_2.
    + by rewrite length_fmap.
    + apply Forall_fmap, Forall_forall. intros entry Hin.
      destruct (Hall entry Hin) as (link & -> & Hv & _).
      destruct (valid_scope_text link Hv) as (u & _ & Ht).
      unfold compose. rewrite Ht. apply uuid_String_length.
    + apply validated_texts_NoDup; [| done]. intros entry Hin.
      destruct (Hall entry Hin) as (link & -> & Hv & _). by exists link.
  - intros entry Hin. destruct (Hall entry Hin) as (link & -> & _ & Hne).
    exists link. split; [done |].
    unfold GetAccAddrs. rewrite (getAccAddrs_spec a ∅ [] []).
    2:{ intros key. rewrite lookup_empty. cbn. symmetry.
        apply bool_decide_eq_false. set_solver. }
    cbn [app]. rewrite firstOccurrences_elem_of, elem_of_accAddrsOf.
    split; [| set_solver]. split; [done |]. by exists link.
Qed.

End AccountLists.

(** ** Links by account *)

Section ByAccount.
Context `{U : Unicode} `{C : SDKConfig}.

(** The metadata addresses of the entries whose account address is [acc],
    in order. *)
Definition mdAddrsWith (acc : bytes) (a : AccMDLinks) : list bytes :=
  MDAddr <$> filter (λ link, AccAddr link = acc) (omap id a).

(** The configuration the SDK accepts: a prefix of lower-case printable
    characters; an account address has at most 255 bytes. *)
Definition accountPrefixOK : Prop :=
  bech32_facts.hrpOK Bech32AccountAddrPrefix
  ∧ String.length Bech32AccountAddrPrefix ≤ 500.

Lemma AccAddress_String_decodes (acc : bytes) :
  accountPrefixOK → acc ≠ [] → length acc ≤ 255 →
  ∃ text, AccAddress_String (B := bech32_reference) acc = Returns text
          ∧ text ≠ ""
          ∧ bech32.DecodeAndConvert text
            = (Bech32AccountAddrPrefix, acc, None).
Proof.
  intros [Hok Hlen] Hne Hacc.
  destruct (bech32_facts.DecodeAndConvert_ConvertAndEncode
              Bech32AccountAddrPrefix acc Hok)
    as (text & Henc & _ & Htext & Hdec); [lia |].
  exists text. split_and!; [| done | done].
  unfold AccAddress_String. rewrite decide_False by (by destruct acc).
  cbn [ConvertAndEncode bech32_reference]. by rewrite Henc.
Qed.

Lemma AccAddress_String_nil :
  AccAddress_String (B := bech32_reference) [] = Returns "".
Proof. reflexivity. Qed.

Lemma AccAddress_String_inj (x y : bytes) (text : string) :
  accountPrefixOK → length x ≤ 255 → length y ≤ 255 →
  AccAddress_String (B := bech32_reference) x = Returns text →
  AccAddress_String (B := bech32_reference) y = Returns text →
  x = y.
Proof.
  intros Hok Hx Hy Hsx Hsy.
  destruct x as [| bx x], y as [| by' y]; [done | | |].
  - destruct (AccAddress_String_decodes (by' :: y) Hok) as (t & Ht & Hne & _);
      [done | done |].
    rewrite AccAddress_String_nil in Hsx. congruence.
  - destruct (AccAddress_String_decodes (bx :: x) Hok) as (t & Ht & Hne & _);
      [done | done |].
    rewrite AccAddress_String_nil in Hsy. congruence.
  - destruct (AccAddress_String_decodes (bx :: x) Hok) as (t & Ht & _ & Hd);
      [done | done |].
    destruct (AccAddress_String_decodes (by' :: y) Hok)
      as (t' & Ht' & _ & Hd'); [done | done |].
    congruence.
Qed.

Lemma AccAddress_String_returns (acc : bytes) :
  accountPrefixOK → length acc ≤ 255 →
  ∃ text, AccAddress_String (B := bech32_reference) acc = Returns text.
Proof.
  intros Hok Hlen. destruct acc as [| b acc]; [by exists "" |].
  destruct (AccAddress_String_decodes (b :: acc) Hok) as (t & Ht & _);
    [done | done |]. by exists t.
Qed.

Lemma getMDAddrsForAccAddr_spec (acc : bytes) (text : string)
  (a : AccMDLinks) :
  accountPrefixOK → length acc ≤ 255 →
  AccAddress_String (B := bech32_reference) acc = Returns text →
  (∀ link, Some link ∈ a → length (AccAddr link) ≤ 255) →
  ∀ rv, getMDAddrsForAccAddr (B := bech32_reference) text rv a
        = Returns (rv ++ mdAddrsWith acc a).
Proof.
  intros Hok Hacc Htext. unfold mdAddrsWith.
  induction a as [| entry rest IH]; intros Hall rv.
  - cbn. by rewrite app_nil_r.
  - assert (Hrest : ∀ link, Some link ∈ rest → length (AccAddr link) ≤ 255)
      by (intros link Hin; apply Hall; set_solver).
    destruct entry as [link |]; cbn [getMDAddrsForAccAddr omap list_omap id].
    2:{ by apply IH. }
    assert (Hlink : length (AccAddr link) ≤ 255) by (apply Hall; set_solver).
    destruct (AccAddress_String_returns (AccAddr link) Hok Hlink) as [s Hs].
    rewrite Hs. unfold mbind at 1, outcome_bind at 1.
    destruct (decide (text = s)) as [-> | Hne].
    + assert (AccAddr link = acc)
        by (by apply (AccAddress_String_inj _ _ s Hok)).
      rewrite filter_cons_True by done. cbn [fmap list_fmap].
      rewrite IH by done. by rewrite <- app_assoc.
    + assert (AccAddr link ≠ acc) by (intros Heq; congruence).
      rewrite filter_cons_False by done. by apply IH.
Qed.

(** X28. [GetMDAddrsForAccAddr], given the text of an account address, returns
    the metadata addresses of the entries that hold that account address,
    in the order of the list; given the empty string it returns those of the
    entries without an account address. Nil entries are skipped. (The bech32
    package is the reference algorithm; the account prefix is any prefix it
    accepts, the account addresses have at most 255 bytes.) *)
Theorem GetMDAddrsForAccAddr_by_account (a : AccMDLinks) (acc : bytes) :
  accountPrefixOK →
  (∀ link, Some link ∈ a → length (AccAddr link) ≤ 255) →
  length acc ≤ 255 →
  ∃ text, AccAddress_String (B := bech32_reference) acc = Returns text
          ∧ (text = "" ↔ acc = [])
          ∧ GetMDAddrsForAccAddr (B := bech32_reference) a text
            = Returns (mdAddrsWith acc a).
Proof.
  intros Hok Hall Hacc.
  destruct (AccAddress_String_returns acc Hok Hacc) as [text Htext].
  exists text. split_and!; [done | |].
  - destruct acc as [| b acc].
    + rewrite AccAddress_String_nil in Htext. by injection Htext as <-.
    + destruct (AccAddress_String_decodes (b :: acc) Hok)
        as (t & Ht & Hne & _); [done | done |].
      rewrite Ht in Htext. injection Htext as <-. done.
  - unfold GetMDAddrsForAccAddr.
    by rewrite (getMDAddrsForAccAddr_spec acc).
Qed.

End ByAccount.

(** ** The theorems at concrete addresses *)

(** The UUID 91978ba2-5f35-459a-86a7-feca1b0512e0. *)
Definition exampleUUID : uuid.UUID :=
  uuid.MkUUID
    [x91; x97; x8b; xa2; x5f; x35; x45; x9a;
     x86; xa7; xfe; xca; x1b; x05; x12; xe0] eq_refl.

Definition exampleScope : bytes := x00 :: uuid.raw exampleUUID.

Definition exampleContractSpec : bytes := x03 :: uuid.raw exampleUUID.

Example exampleUUID_String :
  uuid.String exampleUUID = "91978ba2-5f35-459a-86a7-feca1b0512e0".
Proof. reflexivity. Qed.

Example exampleScope_String :
  MetadataAddress.String (K := metadataKeys) (B := bech32_reference (U := asciiStrings))
    exampleScope
  = Returns "scope1qzge0zaztu65tx5x5llv5xc9ztsqxlkwel".
Proof. vm_compute. reflexivity. Qed.

Lemma FromText_ToText_roundtrip_witness :
  ∃ addr text,
    Encode (K := metadataKeys) (U := asciiStrings) (H := sha256_reference)
      (RecordID exampleUUID "recordname") = Returns addr
    ∧ MetadataAddress.String (K := metadataKeys)
        (B := bech32_reference (U := asciiStrings)) addr = Returns text
    ∧ ParseMetadataAddressFromBech32 (K := metadataKeys) (U := asciiStrings)
        (B := bech32_reference (U := asciiStrings)) text
      = Returns (addr, "record", None).
Proof.
  apply (FromText_ToText_roundtrip (K := metadataKeys) (U := asciiStrings)
           (H := sha256_reference) (RecordID exampleUUID "recordname")).
  vm_compute. discriminate.
Defined.

Example exampleRecord_String :
  (addr ← RecordMetadataAddress (K := metadataKeys) (U := asciiStrings)
            (H := sha256_reference) exampleUUID "recordname";
   MetadataAddress.String (K := metadataKeys)
     (B := bech32_reference (U := asciiStrings)) addr)
  = Returns "record1q2ge0zaztu65tx5x5llv5xc9ztsw42dq2jdvmdazuwzcaddhh8gmu3mcze3".
Proof. vm_compute. reflexivity. Qed.

Lemma FromText_rejects_other_prefix_witness :
  ∃ text,
    ConvertAndEncode (Bech32 := bech32_reference (U := asciiStrings))
      "session" exampleScope = (text, None)
    ∧ ParseMetadataAddressFromBech32 (K := metadataKeys) (U := asciiStrings)
        (B := bech32_reference (U := asciiStrings)) text
      = Returns ([], "", Some (ErrInvalidBech32Prefix "scope" "session")).
Proof.
  apply (FromText_rejects_other_prefix (K := metadataKeys) (U := asciiStrings)
           exampleScope "scope" "session").
  - vm_compute. reflexivity.
  - discriminate.
  - split; [discriminate | reflexivity].
  - vm_compute. lia.
Defined.

Lemma AsRecordSpecAddress_empty_name_panics_witness :
  MetadataAddress.AsRecordSpecAddress (K := metadataKeys) (U := asciiStrings)
    (H := sha256_reference) exampleContractSpec ""
  = Panics (PanicString "missing name value for record spec metadata address").
Proof.
  apply (AsRecordSpecAddress_empty_name_panics (K := metadataKeys)
           exampleContractSpec "contractspec").
  - vm_compute. reflexivity.
  - apply list_elem_of_here.
Defined.

Lemma ScopeSessionIteratorPrefix_correct_witness :
  MetadataAddress.ScopeSessionIteratorPrefix (K := metadataKeys) exampleScope
    [x07; x07]
  = Returns (x01 :: uuid.raw exampleUUID, None).
Proof.
  destruct (ScopeSessionIteratorPrefix_correct (K := metadataKeys))
    as (_ & Hvalid & _).
  destruct (Hvalid exampleScope [x07; x07] "scope") as (u & Hu & Hp & _).
  - vm_compute. reflexivity.
  - apply list_elem_of_here.
  - vm_compute in Hu. injection Hu as <-. exact Hp.
Defined.

Example record_names_same_address :
  RecordMetadataAddress (K := metadataKeys) (U := asciiStrings)
    (H := sha256_reference) exampleUUID " foo "
  = RecordMetadataAddress (K := metadataKeys) (U := asciiStrings)
      (H := sha256_reference) exampleUUID "FOO".
Proof. vm_compute. reflexivity. Qed.

Example links_duplicate_scope :
  (r ← ValidateForScopes (K := metadataKeys)
         [Some (NewAccMDLink [x0a] exampleScope);
          Some (NewAccMDLink [x0b] exampleScope)];
   mret (r ≫= failureOf))
  = Returns (Some DuplicateAddress).
Proof. vm_compute. reflexivity. Qed.

Example links_record_address :
  (r ← ValidateForScopes (K := metadataKeys)
         [Some (NewAccMDLink [x0a]
                  (x02 :: uuid.raw exampleUUID ++ uuid.raw exampleUUID))];
   mret (r ≫= failureOf))
  = Returns (Some NotAScopeAddress).
Proof. vm_compute. reflexivity. Qed.

Example links_first_failure :
  ValidateForScopes (K := metadataKeys)
    [Some (NewAccMDLink [x0a] exampleScope);
     Some (NewAccMDLink [] (x00 :: uuid.raw exampleUUID ++ [x00]));
     None]
  = Returns (Some (ErrInvalidMetadataAddress "scope"
                     (x00 :: uuid.raw exampleUUID ++ [x00])
                     (ErrIncorrectLength 17 18))).
Proof. vm_compute. reflexivity. Qed.

Example links_missing_account :
  ValidateForScopes (K := metadataKeys) [Some (NewAccMDLink [] exampleScope)]
  = Returns (Some (ErrNoAccAddr exampleScope)).
Proof. vm_compute. reflexivity. Qed.

(** ** The further properties at concrete values *)

Lemma AsRecordAddress_blank_name_panics_witness :
  MetadataAddress.AsRecordAddress (K := metadataKeys) (U := asciiStrings)
    (H := sha256_reference) exampleScope " "
  = Panics (PanicString "missing name value for record metadata address")
  ∧ MetadataAddress.MustGetAsRecordAddress (K := metadataKeys)
      (U := asciiStrings) (H := sha256_reference) exampleScope " "
    = Panics (PanicString "missing name value for record metadata address").
Proof.
  apply (AsRecordAddress_blank_name_panics (K := metadataKeys)
           (U := asciiStrings) (H := sha256_reference)
           x00 (uuid.raw exampleUUID) " ").
  - apply list_elem_of_here.
  - vm_compute. lia.
  - discriminate.
  - reflexivity.
Defined.

Lemma Denom_roundtrip_witness :
  ∃ text,
    MetadataAddress.String (K := metadataKeys)
      (B := bech32_reference (U := asciiStrings)) exampleScope = Returns text
    ∧ MetadataAddress.Denom (K := metadataKeys)
        (B := bech32_reference (U := asciiStrings)) exampleScope
      = Returns (DenomPrefix +:+ text)
    ∧ MetadataAddressFromDenom (K := metadataKeys) (U := asciiStrings)
        (B := bech32_reference (U := asciiStrings)) (DenomPrefix +:+ text)
      = Returns (exampleScope, None).
Proof.
  apply (Denom_roundtrip (K := metadataKeys) (U := asciiStrings) exampleScope).
  vm_compute. reflexivity.
Defined.

Example exampleScope_Denom :
  MetadataAddress.Denom (K := metadataKeys)
    (B := bech32_reference (U := asciiStrings)) exampleScope
  = Returns "nft/scope1qzge0zaztu65tx5x5llv5xc9ztsqxlkwel".
Proof. vm_compute. reflexivity. Qed.

Lemma ConvertHashToAddress_of_encoded_witness :
  base64.DecodeString (base64.EncodeToString (uuid.raw exampleUUID))
  = (uuid.raw exampleUUID, None)
  ∧ ConvertHashToAddress (K := metadataKeys) [x00]
      (base64.EncodeToString (uuid.raw exampleUUID))
    = Returns (x00 :: take 16 (uuid.raw exampleUUID), None)
  ∧ MetadataAddress.Validate (K := metadataKeys)
      (x00 :: take 16 (uuid.raw exampleUUID)) = Returns None.
Proof.
  apply (ConvertHashToAddress_of_encoded (K := metadataKeys)
           x00 (uuid.raw exampleUUID) 16).
  - reflexivity.
  - vm_compute. lia.
Defined.

Example exampleUUID_base64 :
  base64.EncodeToString (uuid.raw exampleUUID) = "kZeLol81RZqGp/7KGwUS4A=="
  ∧ ConvertHashToAddress (K := metadataKeys) [x00] "kZeLol81RZqGp/7KGwUS4A=="
    = Returns (exampleScope, None).
Proof. split; vm_compute; reflexivity. Qed.

(** The offsets the decoder reports on corrupt input. *)
Example base64_corrupt_offsets :
  (λ s, (base64.DecodeString s).2)
    <$> ["!!!!"; "x==="; "A=AA"; "AA=A"; "AA==A"; "AAA=AAAA"; "AAAAA";
         "A="; "AA="; "AA=="; "AAA="; "AAAA"; "AAAAAA="; "YWJjZA====="]
  = [Some 0; Some 1; Some 1; Some 2; Some 4; Some 4; Some 4;
     Some 1; Some 3; None; None; None; Some 7; Some 8].
Proof. vm_compute. reflexivity. Qed.

Definition exampleLinks : AccMDLinks :=
  [Some (NewAccMDLink [x0a] exampleScope);
   Some (NewAccMDLink [x0b] (x00 :: rev (uuid.raw exampleUUID)));
   Some (NewAccMDLink [x0a] (x00 :: replicate 16 x07))].

Lemma validated_links_queries_witness :
  (∃ texts, GetPrimaryUUIDs (K := metadataKeys) exampleLinks = Returns texts
            ∧ length texts = length exampleLinks
            ∧ Forall (λ s, String.length s = 36) texts
            ∧ NoDup texts)
  ∧ (∀ entry, entry ∈ exampleLinks →
       ∃ link, entry = Some link ∧ AccAddr link ∈ GetAccAddrs exampleLinks).
Proof.
  apply (validated_links_queries (K := metadataKeys) exampleLinks).
  vm_compute. reflexivity.
Defined.

Example exampleLinks_queries :
  GetPrimaryUUIDs (K := metadataKeys) exampleLinks
  = Returns ["91978ba2-5f35-459a-86a7-feca1b0512e0";
             "e012051b-cafe-a786-9a45-355fa28b9791";
             "07070707-0707-0707-0707-070707070707"]
  ∧ GetAccAddrs exampleLinks = [[x0a]; [x0b]].
Proof. split; vm_compute; reflexivity. Qed.

(** The account prefix of the main network. *)
Definition exampleConfig : SDKConfig := {| Bech32AccountAddrPrefix := "pb" |}.

Lemma GetMDAddrsForAccAddr_by_account_witness :
  ∃ text,
    AccAddress_String (B := bech32_reference (U := asciiStrings))
      (C := exampleConfig) [x0a] = Returns text
    ∧ (text = "" ↔ [x0a] = [])
    ∧ GetMDAddrsForAccAddr (B := bech32_reference (U := asciiStrings))
        (C := exampleConfig) exampleLinks text
      = Returns (mdAddrsWith [x0a] exampleLinks).
Proof.
  apply (GetMDAddrsForAccAddr_by_account (U := asciiStrings)
           (C := exampleConfig) exampleLinks [x0a]).
  - split; [split; [discriminate | reflexivity] | vm_compute; lia].
  - intros link Hin.
    repeat (apply elem_of_cons in Hin as [Hin | Hin];
            [injection Hin as ->; vm_compute; lia |]).
    by apply elem_of_nil in Hin.
  - vm_compute. lia.
Defined.

Example exampleLinks_by_account :
  mdAddrsWith [x0a] exampleLinks
  = [exampleScope; x00 :: replicate 16 x07].
Proof. vm_compute. reflexivity. Qed.

(** A session of the example scope under the session prefix of the scope. *)
Definition exampleSession : bytes :=
  x01 :: uuid.raw exampleUUID ++ replicate 16 x07.

Lemma iterator_prefix_selects_children_witness :
  MetadataAddress.ScopeSessionIteratorPrefix (K := metadataKeys) exampleScope
    [x07; x07]
  = Returns (x01 :: uuid.raw exampleUUID, None)
  ∧ MetadataAddress.IsSessionAddress (K := metadataKeys) exampleSession
    = Returns true
  ∧ ((x01 :: uuid.raw exampleUUID) `prefix_of` exampleSession
     ↔ exampleScope = []
       ∨ MetadataAddress.AsScopeAddress (K := metadataKeys) exampleSession
         = MetadataAddress.AsScopeAddress (K := metadataKeys) exampleScope).
Proof.
  split_and!; [vm_compute; reflexivity | vm_compute; reflexivity |].
  destruct (iterator_prefix_selects_children (K := metadataKeys)
              (U := asciiStrings) (H := sha256_reference)
              exampleScope [x07; x07] (x01 :: uuid.raw exampleUUID)
              exampleSession exampleUUID "recordname") as (Hsessions & _).
  destruct Hsessions as (_ & Hparent & _); [vm_compute; reflexivity.. |].
  apply Hparent. right. vm_compute. lia.
Defined.
